(** * CircMiMi: the miRanda wrapper and the hit consolidation pipeline

    A shallow embedding of [circmimi/miranda.py]: the [Miranda] class
    (input splitting, process launching, parsing of the aligner's text) and
    [MirandaUtils] (the pandas transformations applied to the hit table).

    Conventions of the embedding.
    - A pandas [DataFrame] is a list of rows in row order, each row paired
      with its index label.  Column subsets are records.
    - A missing value (NaN) is [None]; every comparison with NaN is false,
      as in pandas.
    - A Python exception is a [Raise] result.
    - Python [int] is [Z].  The coordinates of a hit and the lengths are
      [int64] cells, or [float64] cells when the column holds a NaN; both
      are modelled by [Z].  Sums and comparisons of such cells are exact in
      either dtype while the numbers stay within 2^53 in absolute value,
      and this is the range the embedding covers; [small_coordinates] is
      the bound on a row that keeps every number of the filter within
      it.
    - The scores of the hit table are finite floats that are only compared,
      never computed with; they are modelled by rationals ([Q]).  The
      conversion of text to [float] is modelled with its rounding
      ([float_of_str]). *)

From Stdlib Require Import ZArith List String Ascii Bool Lia QArith Qabs.
From Stdlib Require Import Permutation DecimalString DecimalNat.
From Stdlib Require Import OrderedTypeEx Sorted.
Import ListNotations.

Open Scope string_scope.
Open Scope list_scope.
Open Scope Z_scope.

(** ** Exceptions *)

Inductive exn : Type :=
| KeyError (key : string)
| IndexError
| ValueError
| UnboundLocalError (name : string)
| FileNotFoundError (path : string)
| FileExistsError (path : string)
| OverflowError
| RuntimeError
| TypeError.

Inductive res (A : Type) : Type :=
| Ok (a : A)
| Raise (e : exn).
Arguments Ok {A} a.
Arguments Raise {A} e.

Definition bind {A B} (m : res A) (k : A -> res B) : res B :=
  match m with
  | Ok a => k a
  | Raise e => Raise e
  end.

Notation "x <- m ;; k" := (bind m (fun x => k))
  (at level 61, m at next level, right associativity).

(** ** Data model *)

(** One row of the table built by [get_binding_sites]: the columns of
    [Miranda.RESULT_TITLE] with the dtypes given to [astype]. *)
Record Hit : Type := mkHit {
  query_id : string;
  reference_id : string;
  score : Q;
  energy : Q;
  query_start : Z;
  query_end : Z;
  ref_start : Z;
  ref_end : Z;
  aln_length : Z;
  identity : Q;
  similarity : Q;
  aln_mirna : string;
  aln_map : string;
  aln_utr : string
}.

(** A hit with the [total_len] column of [append_exons_len]; the column is
    NaN where the left join found no length. *)
Record HitLen : Type := mkHitLen {
  hit :> Hit;
  total_len : option Z
}.

(** The tables of the later stages nest the earlier ones ([HitLen], then
    [HitCb], [HitEv], [HitAln], [HitAlnId]), a column being added where the
    class defines the method that adds it; each method reads only the
    columns it names. *)

(** A table: rows in order, each with its index label. *)
Definition DataFrame (A : Type) : Type := list (nat * A).

Definition labels {A} (df : DataFrame A) : list nat := map fst df.
Definition rows {A} (df : DataFrame A) : list A := map snd df.

(** A fresh [RangeIndex] 0..n-1 over the given rows. *)
Definition RangeIndex {A} (rs : list A) : DataFrame A :=
  combine (seq 0 (List.length rs)) rs.

(** [df.reset_index(drop=True)] *)
Definition reset_index_drop {A} (df : DataFrame A) : DataFrame A :=
  RangeIndex (rows df).

(** ** MirandaUtils.append_exons_len *)

(** [exons_len_df]: rows [(exons_id, total_len)], in order; ids may repeat. *)
Definition ExonsLen : Type := list (string * Z).

(** [left.merge(right, left_on=.., right_on=.., how='left')]: every left row,
    in order, once per matching right row (in right order), or once with a
    missing value when nothing matches. *)
Definition merge_left {A K V B} (key_eq : K -> K -> bool)
    (lkey : A -> K) (right : list (K * V)) (mk : A -> option V -> B)
    (left : list A) : list B :=
  flat_map (fun a =>
    match filter (fun e => key_eq (lkey a) (fst e)) right with
    | [] => [mk a None]
    | ms => map (fun e => mk a (Some (snd e))) ms
    end) left.

Definition append_exons_len (miranda_df : DataFrame Hit)
    (exons_len_df : ExonsLen) : DataFrame HitLen :=
  RangeIndex
    (merge_left String.eqb reference_id exons_len_df mkHitLen
       (rows miranda_df)).

(** ** MirandaUtils.remove_redundant_result *)

(** [a <= b] on a column that may hold NaN. *)
Definition le_nan (a : Z) (b : option Z) : bool :=
  match b with
  | Some t => a <=? t
  | None => false
  end.

(** The three columns returned by [_get_extended_ref_end]. *)
Record ExtRow : Type := mkExtRow {
  ext_query_id : string;
  ext_reference_id : string;
  ext_ref_end : option Z
}.

(** [s['ref_end'] + s['total_len']] adds a Python [int] to an [int] when the
    [total_len] column is [int64], and to a [float] when it is [float64]
    (the column holds a NaN); the two sums are this one while
    [|ref_end| + |total_len| <= 2^53]. *)
Definition _get_extended_ref_end (s : HitLen) : ExtRow :=
  mkExtRow (query_id s) (reference_id s)
           (option_map (Z.add (ref_end s)) (total_len s)).

(** [miranda_df[miranda_df['ref_start'] <= miranda_df['total_len']]] *)
Definition filtered_df (miranda_df : DataFrame HitLen) : DataFrame HitLen :=
  filter (fun r : nat * HitLen => le_nan (ref_start (snd r)) (total_len (snd r)))
         miranda_df.

(** The join condition of the inner merge:
    [left_on=['query_id','reference_id','ext_ref_end']],
    [right_on=['query_id','reference_id','ref_end']].  pandas compares an
    [int64] with an [int64] key as integers and any other pair of numeric
    keys as [float64]; the two comparisons are this one while both numbers
    are within 2^53 in absolute value. *)
Definition merge_keys_match (l : ExtRow) (r : HitLen) : bool :=
  String.eqb (ext_query_id l) (query_id r)
  && String.eqb (ext_reference_id l) (reference_id r)
  && match ext_ref_end l with
     | Some e => e =? ref_end r
     | None => false
     end.

(** The labels handed to [drop].

    [filtered_df[filtered_df['ref_start'] == 1]] selects the rows starting at
    position 1; [apply(_get_extended_ref_end, axis=1)] maps each to its
    three-column row, keeping the label; [reset_index()] turns those labels
    into the column ['index'] of the left table; the inner merge pairs each
    left row with every row of [filtered_df] that matches on the keys; and
    [.loc[:, 'index']] reads the left table's ['index'] column: one copy of
    the label of the row starting at 1 for each partner found.

    When no row starts at 1, [DataFrame.apply] on the empty selection does
    not call the function on any row and returns a copy of the empty
    selection, which has no column ['ext_ref_end']; the merge then raises
    [KeyError]. *)
Definition dropped_index (fdf : DataFrame HitLen) : res (list nat) :=
  match filter (fun r : nat * HitLen => ref_start (snd r) =? 1) fdf with
  | [] => Raise (KeyError "ext_ref_end")
  | starts =>
      let left :=
        map (fun r : nat * HitLen => (fst r, _get_extended_ref_end (snd r)))
            starts in
      Ok (flat_map
            (fun l => map (fun _ => fst l)
                          (filter (fun r : nat * HitLen =>
                                     merge_keys_match (snd l) (snd r)) fdf))
            left)
  end.

(** [df.drop(index_labels)]: every row whose label is listed goes. *)
Definition drop {A} (dropped : list nat) (df : DataFrame A) : DataFrame A :=
  filter (fun r : nat * A => negb (existsb (Nat.eqb (fst r)) dropped)) df.

Definition remove_redundant_result (miranda_df : DataFrame HitLen)
    : res (DataFrame HitLen) :=
  let fdf := filtered_df miranda_df in
  dropped <- dropped_index fdf ;;
  Ok (reset_index_drop (drop dropped fdf)).

(** ** MirandaUtils._is_cross_boundary, append_cross_boundary *)

(** [_is_cross_boundary] returns the integers 1 and 0. *)
Definition _is_cross_boundary (s : HitLen) : Z :=
  if le_nan (ref_start s) (total_len s)
     && match total_len s with
        | Some exons_len => exons_len <? ref_end s
        | None => false
        end
  then 1 else 0.

Record HitCb : Type := mkHitCb {
  hit_len :> HitLen;
  cross_boundary : Z
}.

(** [pd.concat([df, cross_boundary_df], axis=1)]: the new column carries the
    index of [df], so on a table with distinct labels the concatenation is
    row by row. *)
Definition append_cross_boundary (miranda_df_with_len : DataFrame HitLen)
    : DataFrame HitCb :=
  map (fun r : nat * HitLen =>
         (fst r, mkHitCb (snd r) (_is_cross_boundary (snd r))))
      miranda_df_with_len.

(** ** MirandaUtils.append_ev_id *)

(** [exons_ev_id_df]: rows [(exons_id, ev_id)]. *)
Definition ExonsEvId : Type := list (string * string).

Record HitEv : Type := mkHitEv {
  hit_cb :> HitCb;
  ev_id : option string
}.

(** A stable sort by insertion: a row goes after every row it is not
    strictly before, so rows with equal keys keep their order. *)
Fixpoint insert_sorted {A} (before : A -> A -> bool) (x : A) (l : list A)
    : list A :=
  match l with
  | [] => [x]
  | y :: l' => if before x y then x :: l else y :: insert_sorted before x l'
  end.

Definition stable_sort {A} (before : A -> A -> bool) (l : list A) : list A :=
  fold_left (fun acc x => insert_sorted before x acc) l [].

(** Ascending order on a column that may hold NaN, NaN last. *)
Definition compare_nan_last (a b : option string) : comparison :=
  match a, b with
  | Some x, Some y => String.compare x y
  | Some _, None => Lt
  | None, Some _ => Gt
  | None, None => Eq
  end.

(** [sort_values(['ev_id', 'query_id', 'score'],
                 ascending=[True, True, False])] *)
Definition ev_id_order (a b : HitEv) : bool :=
  match compare_nan_last (ev_id a) (ev_id b) with
  | Lt => true
  | Gt => false
  | Eq =>
      match String.compare (query_id a) (query_id b) with
      | Lt => true
      | Gt => false
      | Eq => match Qcompare (score a) (score b) with
              | Gt => true
              | _ => false
              end
      end
  end.

Definition append_ev_id (df : DataFrame HitCb) (exons_ev_id_df : ExonsEvId)
    : DataFrame HitEv :=
  stable_sort (fun a b => ev_id_order (snd a) (snd b))
    (RangeIndex
       (merge_left String.eqb (fun r : HitCb => reference_id r)
          exons_ev_id_df mkHitEv (rows df))).

(** ** MirandaUtils.append_merged_aln, generate_aln_id *)

Record HitAln : Type := mkHitAln {
  hit_ev :> HitEv;
  aln : string
}.

(** [reduce(lambda c1, c2: c1.add(c2), [aln_mirna, aln_map, aln_utr])]:
    the three columns of one table, added row by row. *)
Definition merged_aln (r : Hit) : string :=
  (aln_mirna r ++ aln_map r) ++ aln_utr r.

Definition append_merged_aln (miranda_df : DataFrame HitEv)
    : DataFrame HitAln :=
  map (fun r : nat * HitEv => (fst r, mkHitAln (snd r) (merged_aln (snd r))))
      miranda_df.

(** [Series.unique()]: the distinct values in order of first appearance. *)
Fixpoint unique_from {A} (eqb : A -> A -> bool) (seen l : list A) : list A :=
  match l with
  | [] => []
  | x :: l' =>
      if existsb (eqb x) seen then unique_from eqb seen l'
      else x :: unique_from eqb (x :: seen) l'
  end.

Definition unique {A} (eqb : A -> A -> bool) (l : list A) : list A :=
  unique_from eqb [] l.

Record HitAlnId : Type := mkHitAlnId {
  hit_aln :> HitAln;
  aln_id : option nat
}.

(** [all_uniq_alns.reset_index()]: each distinct alignment with its
    position in [unique()], the column that becomes [aln_id]. *)
Definition all_uniq_alns (miranda_df_with_aln : DataFrame HitAln)
    : list (string * nat) :=
  let u := unique String.eqb (map aln (rows miranda_df_with_aln)) in
  combine u (seq 0 (List.length u)).

Definition generate_aln_id (miranda_df_with_aln : DataFrame HitAln)
    : DataFrame HitAlnId :=
  RangeIndex
    (merge_left String.eqb aln (all_uniq_alns miranda_df_with_aln) mkHitAlnId
       (rows miranda_df_with_aln)).

(** ** MirandaUtils.get_grouped_results *)

Record GroupedRow : Type := mkGroupedRow {
  grp_ev_id : string;
  mirna : string;
  max_score : Q;
  count : nat;
  grp_cross_boundary : Z
}.

(** The group key of a row; a row whose [ev_id] is NaN is in no group
    ([groupby] leaves NaN keys out). *)
Definition group_key (r : HitAlnId) : option (string * string) :=
  match ev_id r with
  | Some e => Some (e, query_id r)
  | None => None
  end.

Definition key_eqb (a b : string * string) : bool :=
  String.eqb (fst a) (fst b) && String.eqb (snd a) (snd b).

Definition key_before (a b : string * string) : bool :=
  match String.compare (fst a) (fst b) with
  | Lt => true
  | Gt => false
  | Eq => match String.compare (snd a) (snd b) with
          | Lt => true
          | _ => false
          end
  end.

(** The group keys, each once, in sorted order. *)
Definition group_keys (rs : list HitAlnId) : list (string * string) :=
  stable_sort key_before
    (unique key_eqb
       (flat_map (fun r => match group_key r with
                           | Some k => [k]
                           | None => []
                           end) rs)).

Definition in_group (k : string * string) (r : HitAlnId) : bool :=
  match group_key r with
  | Some k' => key_eqb k k'
  | None => false
  end.

Definition Qmax (a b : Q) : Q := if Qle_bool a b then b else a.

(** [nunique]: the number of distinct values, NaN not counted. *)
Definition nunique (l : list (option nat)) : nat :=
  List.length
    (unique Nat.eqb
       (flat_map (fun o : option nat => match o with
                                        | Some i => [i]
                                        | None => []
                                        end) l)).

(** [.agg({'score': 'max', 'aln_id': 'nunique', 'cross_boundary': 'max'})]
    over one group. *)
Definition agg (k : string * string) (group : list HitAlnId)
    : list GroupedRow :=
  match group with
  | [] => []
  | r :: rs =>
      [mkGroupedRow (fst k) (snd k)
         (fold_left Qmax (map (fun x : HitAlnId => score x) rs) (score r))
         (nunique (map aln_id group))
         (fold_left Z.max (map (fun x : HitAlnId => cross_boundary x) rs)
                    (cross_boundary r))]
  end.

Definition get_grouped_results (miranda_df_with_aln_id : DataFrame HitAlnId)
    : DataFrame GroupedRow :=
  let rs := rows miranda_df_with_aln_id in
  RangeIndex
    (flat_map (fun k => agg k (filter (in_group k) rs)) (group_keys rs)).

(** ** Miranda: parsing the aligner's text *)

Definition TAB : ascii := "009"%char.
Definition LF : ascii := "010"%char.


(** [s.split(sep)] for a one-character separator: never empty. *)
Fixpoint split (sep : ascii) (s : string) : list string :=
  match s with
  | EmptyString => [EmptyString]
  | String c s' =>
      if Ascii.eqb c sep then EmptyString :: split sep s'
      else match split sep s' with
           | [] => [String c EmptyString]
           | w :: ws => String c w :: ws
           end
  end.

(** [l[1]] *)
Definition item1 {A} (l : list A) : res A :=
  match nth_error l 1 with
  | Some x => Ok x
  | None => Raise IndexError
  end.

Fixpoint mapM {A B} (f : A -> res B) (l : list A) : res (list B) :=
  match l with
  | [] => Ok []
  | x :: l' => y <- f x ;; ys <- mapM f l' ;; Ok (y :: ys)
  end.

(** [[kv.split('=')[1] for kv in res_line.split('\t')]] *)
Definition _get_value (res_line : string) : res (list string) :=
  mapM (fun kv => item1 (split "="%char kv)) (split TAB res_line).

(** The literal text of the pattern: two slashes, [hit_info], a tab. *)
Definition hit_info_marker : string := "//hit_info" ++ String TAB EmptyString.

(** [s] without the prefix [p], when it starts with it. *)
Fixpoint strip_prefix (p s : string) : option string :=
  match p, s with
  | EmptyString, _ => Some s
  | String a p', String b s' =>
      if Ascii.eqb a b then strip_prefix p' s' else None
  | String _ _, EmptyString => None
  end.

(** The capture group, any characters but a line feed, as many as there
    are: everything up to the next line feed. *)
Fixpoint until_LF (s : string) : string :=
  match s with
  | EmptyString => EmptyString
  | String c s' => if Ascii.eqb c LF then EmptyString else String c (until_LF s')
  end.

(** Group 1 of every match of [re.finditer(aln_res_pat, raw_result)] with
    the flag [re.M], scanning left to right.  [bol] says whether the current
    position is the start of the text or follows a line feed, the places
    where [^] matches under [re.M].  A match ends at the end of its line,
    and no position inside a line is a line start, so the scan after a
    match goes on character by character. *)
Fixpoint finditer (bol : bool) (raw : string) : list string :=
  match raw with
  | EmptyString => []
  | String c raw' =>
      let tail := finditer (Ascii.eqb c LF) raw' in
      if bol then
        match strip_prefix hit_info_marker raw with
        | Some rest => until_LF rest :: tail
        | None => tail
        end
      else tail
  end.

(** The generator, consumed to its end by the [DataFrame] constructor. *)
Definition parse_result (raw_result : string) : res (list (list string)) :=
  mapM _get_value (finditer true raw_result).

(** Python's [int()] on a string of ASCII characters: surrounding white
    space (tab to carriage return, and space), an optional sign, decimal
    digits with single underscores between them, and not more than 4300
    digits, the default of [sys.set_int_max_str_digits]. *)
Definition is_space (c : ascii) : bool :=
  let n := nat_of_ascii c in
  ((9 <=? n) && (n <=? 13))%nat || (n =? 32)%nat.

Definition digit_of (c : ascii) : option Z :=
  let n := nat_of_ascii c in
  if ((48 <=? n) && (n <=? 57))%nat then Some (Z.of_nat (n - 48)) else None.

Fixpoint lstrip (s : string) : string :=
  match s with
  | String c s' => if is_space c then lstrip s' else s
  | EmptyString => EmptyString
  end.

(** The digits after the first one: [acc] is the value so far, [us] says
    that the previous character was an underscore. *)
Fixpoint int_digits (acc : Z) (us : bool) (s : string) : res Z :=
  match s with
  | EmptyString => if us then Raise ValueError else Ok acc
  | String c s' =>
      match digit_of c with
      | Some d => int_digits (10 * acc + d) false s'
      | None =>
          if Ascii.eqb c "_"%char then
            if us then Raise ValueError else int_digits acc true s'
          else if us then Raise ValueError
          else if is_space c then
            match lstrip s' with
            | EmptyString => Ok acc
            | _ => Raise ValueError
            end
          else Raise ValueError
      end
  end.

(** The number of digits in a text. *)
Fixpoint count_digits (s : string) : nat :=
  match s with
  | String c s' =>
      match digit_of c with
      | Some _ => S (count_digits s')
      | None => count_digits s'
      end
  | EmptyString => O
  end.

Definition int_max_str_digits : nat := 4300.

Definition int_unsigned (s : string) : res Z :=
  match s with
  | String c s' =>
      match digit_of c with
      | Some d =>
          v <- int_digits d false s' ;;
          if (int_max_str_digits <? count_digits s)%nat then Raise ValueError
          else Ok v
      | None => Raise ValueError
      end
  | EmptyString => Raise ValueError
  end.

Definition int_of_str (s : string) : res Z :=
  match lstrip s with
  | String "-"%char s' => v <- int_unsigned s' ;; Ok (- v)
  | String "+"%char s' => int_unsigned s'
  | s' => int_unsigned s'
  end.


(** ** get_binding_sites: the typed table *)














Definition parse_sign (s : string) : bool * string :=
  match s with
  | String "-"%char r => (true, r)
  | String "+"%char r => (false, r)
  | _ => (false, s)
  end.

















(** ** Miranda: files, processes and the split of the input *)

(** What the code touches outside itself: directories, text files (each the
    list of its lines, a line keeping its line feed), and the commands
    started so far, latest first. *)
Record World : Type := mkWorld {
  dirs : list string;
  files : list (string * list string);
  launched : list (list string)
}.

(** Effectful code: it changes the world and returns or raises; the world
    keeps the changes made before an exception. *)
Definition M (A : Type) : Type := World -> res A * World.

Definition ret {A} (a : A) : M A := fun w => (Ok a, w).
Definition raise {A} (e : exn) : M A := fun w => (Raise e, w).

Definition bindM {A B} (m : M A) (k : A -> M B) : M B :=
  fun w =>
    match m w with
    | (Ok a, w') => k a w'
    | (Raise e, w') => (Raise e, w')
    end.

Notation "x <~ m ;; k" := (bindM m (fun x => k))
  (at level 61, m at next level, right associativity).

(** [try: m finally: cleanup] *)
Definition try_finally {A} (m : M A) (cleanup : M unit) : M A :=
  fun w =>
    let (r, w') := m w in
    match cleanup w' with
    | (Ok _, w'') => (r, w'')
    | (Raise e, w'') => (Raise e, w'')
    end.

Fixpoint forM {A B} (f : A -> M B) (l : list A) : M (list B) :=
  match l with
  | [] => ret []
  | x :: l' => y <~ f x ;; ys <~ forM f l' ;; ret (y :: ys)
  end.

Definition lookup_file (path : string) (fs : list (string * list string))
    : option (list string) :=
  option_map snd (find (fun f => String.eqb path (fst f)) fs).

Definition store_file (path : string) (content : list string)
    (fs : list (string * list string)) : list (string * list string) :=
  (path, content)
    :: filter (fun f : string * list string => negb (String.eqb path (fst f))) fs.

Definition path_exists (path : string) (w : World) : bool :=
  existsb (String.eqb path) (dirs w)
  || existsb (fun f : string * list string => String.eqb path (fst f)) (files w).

(** [os.makedirs(path)] below an existing directory. *)
Definition makedirs (path : string) : M unit :=
  fun w =>
    if path_exists path w then (Raise (FileExistsError path), w)
    else (Ok tt, mkWorld (path :: dirs w) (files w) (launched w)).

(** [open(path, 'w')] creates the file or empties it; what is written
    reaches the file when it is closed. *)
Definition open_w (path : string) : M unit :=
  fun w => (Ok tt, mkWorld (dirs w) (store_file path [] (files w)) (launched w)).

Definition close_w (path : string) (written : list string) : M unit :=
  fun w =>
    (Ok tt, mkWorld (dirs w) (store_file path written (files w)) (launched w)).

(** [open(path)] for reading, as the list of lines. *)
Definition read_lines (path : string) : M (list string) :=
  fun w =>
    match lookup_file path (files w) with
    | Some ls => (Ok ls, w)
    | None => (Raise (FileNotFoundError path), w)
    end.

(** [shutil.rmtree(d)] *)
Definition rmtree (d : string) : M unit :=
  fun w =>
    let inside (p : string) := String.prefix (d ++ "/") p in
    if existsb (String.eqb d) (dirs w) then
      (Ok tt,
       mkWorld (filter (fun p => negb (String.eqb d p || inside p)) (dirs w))
               (filter (fun f : string * list string => negb (inside (fst f)))
                       (files w))
               (launched w))
    else (Raise (FileNotFoundError d), w).

(** [os.path.join(a, b)] *)
Definition path_join (a b : string) : string :=
  match b with
  | String "/"%char _ => b
  | _ =>
      match a with
      | EmptyString => b
      | _ => if String.eqb (substring (String.length a - 1) 1 a) "/"
             then a ++ b else a ++ "/" ++ b
      end
  end.

Definition str_of_nat (n : nat) : string :=
  NilEmpty.string_of_uint (Nat.to_uint n).

Fixpoint zeros (n : nat) : string :=
  match n with
  | O => EmptyString
  | S n' => String "0"%char (zeros n')
  end.

(** ['{{:0>{}}}'.format(n).format(draw)]: [draw] right-aligned in a field
    of [n] characters, filled with zeros.  [draw] is the value that
    [random.randrange(10**n)] returns in this call. *)
Definition _rand_id (n : nat) (draw : nat) : string :=
  let s := str_of_nat draw in
  zeros (n - String.length s) ++ s.

Record Miranda : Type := mkMiranda {
  ref_file : string;
  work_dir : string;
  bin_path : string;
  options : list string
}.

(** [Miranda.__init__]: ['-keyval'] is always appended to the options. *)
Definition Miranda_init (ref_file work_dir bin_path : string)
    (options : option (list string)) : Miranda :=
  mkMiranda ref_file work_dir bin_path
    (match options with
     | Some (o :: os) => o :: os
     | _ => []
     end ++ ["-keyval"]).

(** [if out_file:] is false for [None] and for the empty string. *)
Definition _generate_cmd (self : Miranda) (seq_file : string)
    (out_file : option string) : list string :=
  let cmd := [bin_path self; ref_file self; seq_file] ++ options self in
  match out_file with
  | Some (String c f) => cmd ++ ["-out"; String c f]
  | _ => cmd
  end.

Definition startswith (c : ascii) (line : string) : bool :=
  match line with
  | String a _ => Ascii.eqb a c
  | EmptyString => false
  end.

(** The state of the loop of [_split_file]: how many times [next] was
    called on [cycle(tmp_files)], the open file [tmp_f] is bound to, if it
    is bound (as a position in [tmp_files]), and what was written to each
    open file. *)
Record SplitState : Type := mkSplitState {
  nexts : nat;
  tmp_f : option nat;
  written : list (list string)
}.

(** [tmp_files[i].write(line)] *)
Fixpoint write_at (i : nat) (line : string) (bufs : list (list string))
    : list (list string) :=
  match bufs, i with
  | [], _ => []
  | b :: bufs', O => (b ++ [line]) :: bufs'
  | b :: bufs', S i' => b :: write_at i' line bufs'
  end.

(** One turn of [for line in seq_in].  [next] on the cycle of no files
    raises [StopIteration], which a generator turns into [RuntimeError];
    writing before any header was seen finds [tmp_f] unbound. *)
Definition split_step (num : nat) (st : SplitState) (line : string)
    : res SplitState :=
  st1 <- (if startswith ">" line then
            match num with
            | O => Raise RuntimeError
            | _ => Ok (mkSplitState (S (nexts st))
                                    (Some (nexts st mod num)%nat)
                                    (written st))
            end
          else Ok st) ;;
  match tmp_f st1 with
  | None => Raise (UnboundLocalError "tmp_f")
  | Some i => Ok (mkSplitState (nexts st1) (tmp_f st1)
                               (write_at i line (written st1)))
  end.

Fixpoint split_loop (num : nat) (st : SplitState) (lines : list string)
    : res SplitState :=
  match lines with
  | [] => Ok st
  | line :: lines' => st' <- split_step num st line ;; split_loop num st' lines'
  end.

(** What the [num] partition files hold after the loop over the lines of
    the input. *)
Definition split_lines (num : nat) (lines : list string)
    : res (list (list string)) :=
  st <- split_loop num (mkSplitState 0 None (repeat [] num)) lines ;;
  Ok (written st).

Definition lift {A} (r : res A) : M A := fun w => (r, w).

(** [_split_file] as the context manager it is: [body] is the block under
    [with], run with the yielded paths; the directory is removed when the
    block ends, however it ends.  An exception before the [try] leaves the
    directory behind. *)
Definition _split_file {A} (self : Miranda) (seq_file : string) (num : Z)
    (draw : nat) (body : list string -> M A) : M A :=
  let tmp_dir :=
    path_join (work_dir self) ("miranda_tmp_" ++ _rand_id 5 draw) in
  _ <~ makedirs tmp_dir ;;
  let filenames :=
    map (fun i => ("seq_file.part" ++ str_of_nat i ++ ".fa")%string)
        (seq 1 (Z.to_nat num)) in
  let file_paths := map (path_join tmp_dir) filenames in
  _ <~ forM open_w file_paths ;;
  seq_in <~ read_lines seq_file ;;
  bufs <~ lift (split_lines (List.length file_paths) seq_in) ;;
  _ <~ forM (fun pb => close_w (fst pb) (snd pb)) (combine file_paths bufs) ;;
  try_finally (body file_paths) (rmtree tmp_dir).

Section Run.

(** The external aligner: what starting the command does to the world and
    what it prints on its standard output, or the exception of a command
    that cannot be started. *)
Variable aligner : list string -> M string.

(** Starting a command.  The processes of one call are independent, each
    with its own input and output file; they run here one after another,
    in the order they are started. *)
Definition start (cmd : list string) : M string :=
  fun w => aligner cmd (mkWorld (dirs w) (files w) (cmd :: launched w)).

(** [sp.run(cmd, stdout=sp.PIPE, encoding='utf-8').stdout] *)
Definition sp_run (cmd : list string) : M string := start cmd.

(** [sp.Popen(cmd)] followed by [wait()]: the output is not captured. *)
Definition sp_Popen (cmd : list string) : M unit :=
  _ <~ start cmd ;; ret tt.

(** [with open(out_f) as res_in: result += res_in.read()] *)
Definition read_text (path : string) : M string :=
  ls <~ read_lines path ;; ret (String.concat EmptyString ls).

(** [Miranda.run]; the result is [None] when the function falls off its
    end. *)
Definition run (self : Miranda) (seq_file : string) (num_proc : Z)
    (draw : nat) : M (option string) :=
  if num_proc =? 1 then
    stdout <~ sp_run (_generate_cmd self seq_file None) ;;
    ret (Some stdout)
  else if num_proc >? 1 then
    result <~ _split_file self seq_file num_proc draw (fun tmp_files =>
      let out_files := map (fun tmp_f => (tmp_f ++ ".result")%string) tmp_files in
      let cmds :=
        map (fun fo => _generate_cmd self (fst fo) (Some (snd fo)))
            (combine tmp_files out_files) in
      _ <~ forM sp_Popen cmds ;;
      texts <~ forM read_text out_files ;;
      ret (String.concat EmptyString texts)) ;;
    ret (Some result)
  else ret None.

End Run.

(** * Reference definitions

    The statements of the specification, written as functions and
    predicates, to be compared with the code above. *)

(** ** RedundancyFilter *)

(** Step 1 on the rows alone. *)
Definition within_len (rs : list HitLen) : list HitLen :=
  filter (fun r : HitLen => le_nan (ref_start r) (total_len r)) rs.

(** [b] has the query and reference of [a] and ends at the extended end of
    [a]: [ref_end b = ref_end a + total_len a]. *)
Definition extended_counterpart (a b : HitLen) : bool :=
  String.eqb (query_id a) (query_id b)
  && String.eqb (reference_id a) (reference_id b)
  && match total_len a with
     | Some t => ref_end a + t =? ref_end b
     | None => false
     end.

(** The coordinates of a hit and its length are small: at most 2^52 in
    absolute value.  Every such number, and every sum of two of them, is a
    binary64 number, so that the sums and the comparisons of the code are
    exact whether the [total_len] column is [int64] or [float64]. *)
Definition small_coordinates (r : HitLen) : Prop :=
  Z.abs (ref_start r) <= 2 ^ 52
  /\ Z.abs (ref_end r) <= 2 ^ 52
  /\ forall t, total_len r = Some t -> Z.abs t <= 2 ^ 52.

(** The reference of a hit is listed in the length table. *)
Definition listed_len (exons_len_df : ExonsLen) (h : Hit) : bool :=
  existsb (fun e : string * Z => String.eqb (reference_id h) (fst e))
          exons_len_df.

(** The filter as the specification words it: after step 1, every hit that
    is the extended counterpart of a hit starting at 1 goes. *)
Definition spec_redundancy_filter (rs : list HitLen) : list HitLen :=
  let s1 := within_len rs in
  filter (fun b : HitLen =>
            negb (existsb (fun a : HitLen =>
                             (ref_start a =? 1) && extended_counterpart a b) s1))
         s1.

(** The filter as the code has it: after step 1, every hit starting at 1
    that has an extended counterpart goes. *)
Definition start_redundancy_filter (rs : list HitLen) : list HitLen :=
  let s1 := within_len rs in
  filter (fun a : HitLen =>
            negb ((ref_start a =? 1) && existsb (extended_counterpart a) s1))
         s1.

(** ** AlignmentClusterer *)

(** The alignment triple of a hit. *)
Definition aln_triple (r : Hit) : string * string * string :=
  (aln_mirna r, aln_map r, aln_utr r).

(** The invariant of the data model: the three alignment strings have one
    length. *)
Definition equal_length_aln (r : Hit) : Prop :=
  String.length (aln_mirna r) = String.length (aln_map r)
  /\ String.length (aln_map r) = String.length (aln_utr r).

(** The first position of a value in a list. *)
Fixpoint index_of {A} (eqb : A -> A -> bool) (x : A) (l : list A) : nat :=
  match l with
  | [] => O
  | y :: l' => if eqb x y then O else S (index_of eqb x l')
  end.

(** The hit table with its cluster ids. *)
Definition clustered (df : DataFrame HitEv) : list HitAlnId :=
  rows (generate_aln_id (append_merged_aln df)).

(** ** Aggregator *)

(** The rows of one group. *)
Definition group_members (k : string * string) (rs : list HitAlnId)
    : list HitAlnId :=
  filter (in_group k) rs.

Definition grouped_key (g : GroupedRow) : string * string :=
  (grp_ev_id g, mirna g).


(** ** ResultParser *)


Fixpoint join (sep : ascii) (l : list string) : string :=
  match l with
  | [] => EmptyString
  | [x] => x
  | x :: l' => (x ++ String sep (join sep l'))%string
  end.





Fixpoint has_char (c : ascii) (s : string) : bool :=
  match s with
  | EmptyString => false
  | String a s' => Ascii.eqb a c || has_char c s'
  end.




(** What a line contributes to the matches: its text after the marker. *)
Definition payload (line : string) : list string :=
  match strip_prefix hit_info_marker line with
  | Some p => [p]
  | None => []
  end.

(** A decimal numeral: digits, most significant first, and its value. *)
Definition digit_char (d : nat) : ascii := ascii_of_nat (48 + d).





















(** ** Input splitting *)

(** A record of a sequence file: the header line and the lines after it. *)
Definition SeqRecord : Type := string * list string.

Definition record_lines (r : SeqRecord) : list string := fst r :: snd r.

Definition well_formed_record (r : SeqRecord) : Prop :=
  startswith ">" (fst r) = true
  /\ Forall (fun l => startswith ">" l = false) (snd r).

(** The records whose index, counted from [k], is [j] modulo [num], in
    their order. *)
Definition records_of_partition (num j k : nat) (recs : list SeqRecord)
    : list SeqRecord :=
  map snd
      (filter (fun ir : nat * SeqRecord => (fst ir mod num =? j)%nat)
              (combine (seq k (List.length recs)) recs)).

(** The directory that [_split_file] makes, the names of the files in it
    and the paths it yields. *)
Definition tmp_dir_of (self : Miranda) (draw : nat) : string :=
  path_join (work_dir self) ("miranda_tmp_" ++ _rand_id 5 draw).

Definition part_name (i : nat) : string :=
  ("seq_file.part" ++ str_of_nat i ++ ".fa")%string.

Definition part_paths (self : Miranda) (num : Z) (draw : nat) : list string :=
  map (path_join (tmp_dir_of self draw)) (map part_name (seq 1 (Z.to_nat num))).

(** [p] lies under the directory [d]. *)
Definition inside_dir (d p : string) : bool := String.prefix (d ++ "/") p.

(** The row has an event id. *)
Definition has_ev (r : HitAlnId) : bool :=
  match ev_id r with
  | Some _ => true
  | None => false
  end.

(** ** Orders *)

(** A comparison by a first key, then by a second. *)
Definition lex {A} (c1 c2 : A -> A -> comparison) (a b : A) : comparison :=
  match c1 a b with
  | Eq => c2 a b
  | r => r
  end.

(** What makes a three-way comparison the comparison of a total preorder. *)
Record total_comparison {A} (c : A -> A -> comparison) : Prop := {
  cmp_antisym : forall a b, c a b = CompOpp (c b a);
  cmp_trans_lt : forall a b d, c a b = Lt -> c b d = Lt -> c a d = Lt;
  cmp_eq_compat : forall a b d, c a b = Eq -> c a d = c b d
}.

(** The comparison behind [ev_id_order]: [ev_id], missing last, then
    [query_id], then [score] from high to low. *)
Definition ev_id_compare : HitEv -> HitEv -> comparison :=
  lex (fun a b : HitEv => compare_nan_last (ev_id a) (ev_id b))
      (lex (fun a b : HitEv => String.compare (query_id a) (query_id b))
           (fun a b : HitEv => Qcompare (score b) (score a))).


(** The event listed for a reference, if any. *)
Definition listed_ev (exons_ev_id_df : ExonsEvId) (c : HitCb) : option string :=
  option_map snd
    (find (fun e : string * string => String.eqb (reference_id c) (fst e))
          exons_ev_id_df).

(** ** Example data *)

Definition hit_at (q r : string) (s e : Z) : Hit :=
  mkHit q r 0 0 1 1 s e 0 0 0 EmptyString EmptyString EmptyString.

Definition hit_len_at (q r : string) (s e : Z) (t : option Z) : HitLen :=
  mkHitLen (hit_at q r s e) t.

(** The wrap-around scenario of the specification: [total_len = 100],
    A = (1, 20) and B = (1, 120), one query and one reference. *)
Definition wrap_A : HitLen := hit_len_at "Q" "R" 1 20 (Some 100).
Definition wrap_B : HitLen := hit_len_at "Q" "R" 1 120 (Some 100).
Definition wrap_table : DataFrame HitLen := RangeIndex [wrap_A; wrap_B].

(** A hit starting at 1 and its extended counterpart that starts later. *)
Definition late_B : HitLen := hit_len_at "Q" "R" 95 120 (Some 100).
Definition late_table : DataFrame HitLen := RangeIndex [wrap_A; late_B].

(** A hit table with a reference, X, that the length table does not list. *)
Definition hits_RX : DataFrame Hit :=
  RangeIndex [hit_at "Q" "R" 1 20; hit_at "Q" "X" 5 30].
Definition lens_R : ExonsLen := [("R", 100)].

(** A table of two classified hits, and an event table that lists only the
    reference of the first. *)
Definition cb_R : HitCb := mkHitCb (hit_len_at "Q" "R" 1 20 (Some 100)) 0.
Definition cb_X : HitCb := mkHitCb (hit_len_at "Q" "X" 5 30 (Some 100)) 0.
Definition cbs_RX : DataFrame HitCb := RangeIndex [cb_R; cb_X].
Definition evs_R : ExonsEvId := [("R", "E1")].


(** Two hits with one alignment and a third with another. *)
Definition ev_hit (q r a m u : string) : HitEv :=
  mkHitEv (mkHitCb (mkHitLen (mkHit q r 0 0 1 1 1 2 2 0 0 a m u) (Some 100)) 0)
          (Some "E1").
Definition three_alns : DataFrame HitEv :=
  RangeIndex [ev_hit "Q1" "R1" "AC" "||" "UG";
              ev_hit "Q2" "R2" "AC" "| " "UG";
              ev_hit "Q3" "R3" "AC" "||" "UG"].

Definition cl_first : HitAlnId :=
  mkHitAlnId (mkHitAln (ev_hit "Q1" "R1" "AC" "||" "UG") "AC||UG") (Some 0%nat).
Definition cl_second : HitAlnId :=
  mkHitAlnId (mkHitAln (ev_hit "Q2" "R2" "AC" "| " "UG") "AC| UG") (Some 1%nat).
Definition cl_third : HitAlnId :=
  mkHitAlnId (mkHitAln (ev_hit "Q3" "R3" "AC" "||" "UG") "AC||UG") (Some 0%nat).



(** Three records, the second without sequence lines. *)
Definition three_records : list SeqRecord :=
  [(">a", ["ACGU"; "GG"]); (">b", []); (">c", ["UU"])].

(** An aligner that prints one line and touches nothing. *)
Definition quiet_aligner (cmd : list string) : M string :=
  ret "Scan Complete".

Definition empty_world : World := mkWorld [] [] [].

(** A world with a working directory and one sequence file of three
    records, and a wrapper made with the default arguments. *)
Definition fasta_world : World :=
  mkWorld ["."] [("circ.fa", [">a"; "ACGU"; ">b"; ">c"; "UU"])] [].
Definition default_miranda : Miranda :=
  Miranda_init "mirna.fa" "." "miranda" None.

(** A block that reads the first of the yielded files. *)
Definition read_lines_of_first (paths : list string) : M (list string) :=
  read_lines (hd EmptyString paths).

(** Two hits outside the data model: their alignment strings differ in
    length, and the two triples have one concatenation. *)
Definition uneven_alns : DataFrame HitEv :=
  RangeIndex [ev_hit "Q1" "R1" "AB" "C" "D"; ev_hit "Q2" "R2" "A" "BC" "D"].


(** * Properties *)

(** ** Tables *)

Lemma rows_filter {A} (p : A -> bool) (df : DataFrame A) :
  rows (filter (fun r : nat * A => p (snd r)) df) = filter p (rows df).
Proof.
  unfold rows. induction df as [| [l a] df IH]; simpl; [reflexivity|].
  destruct (p a); simpl; now rewrite IH.
Qed.

Lemma rows_RangeIndex {A} (rs : list A) : rows (RangeIndex rs) = rs.
Proof.
  unfold rows, RangeIndex. generalize 0%nat.
  induction rs as [| a rs IH]; intros k; simpl; [reflexivity|].
  now rewrite IH.
Qed.

Lemma labels_RangeIndex {A} (rs : list A) :
  labels (RangeIndex rs) = seq 0 (List.length rs).
Proof.
  unfold labels, RangeIndex. generalize 0%nat.
  induction rs as [| a rs IH]; intros k; simpl; [reflexivity|].
  now rewrite IH.
Qed.

Lemma NoDup_labels_RangeIndex {A} (rs : list A) : NoDup (labels (RangeIndex rs)).
Proof. rewrite labels_RangeIndex. apply seq_NoDup. Qed.

Lemma NoDup_labels_filter {A} (p : nat * A -> bool) (df : DataFrame A) :
  NoDup (labels df) -> NoDup (labels (filter p df)).
Proof.
  unfold labels. induction df as [| r df IH]; simpl; intros H; [constructor|].
  inversion H as [| ? ? Hnin Hnd]; subst.
  destruct (p r); simpl; [constructor|]; auto.
  intros Hin. apply Hnin. apply in_map_iff in Hin as [x [Hx Hin]].
  apply filter_In in Hin as [Hin _]. apply in_map_iff. now exists x.
Qed.

Lemma label_unique {A} (df : DataFrame A) (r1 r2 : nat * A) :
  NoDup (labels df) -> In r1 df -> In r2 df -> fst r1 = fst r2 -> r1 = r2.
Proof.
  unfold labels. induction df as [| r df IH]; simpl; intros Hnd H1 H2 Heq.
  - contradiction.
  - inversion Hnd as [| ? ? Hnin Hnd']; subst.
    destruct H1 as [-> | H1], H2 as [-> | H2]; auto.
    + exfalso. apply Hnin. rewrite Heq. now apply in_map.
    + exfalso. apply Hnin. rewrite <- Heq. now apply in_map.
Qed.

(** ** RedundancyFilter *)

Lemma merge_keys_extended (a b : HitLen) :
  merge_keys_match (_get_extended_ref_end a) b = extended_counterpart a b.
Proof.
  unfold merge_keys_match, _get_extended_ref_end, extended_counterpart. simpl.
  now destruct (total_len a).
Qed.

Lemma rows_filtered_df (df : DataFrame HitLen) :
  rows (filtered_df df) = within_len (rows df).
Proof.
  unfold filtered_df, within_len.
  apply (rows_filter (fun r : HitLen => le_nan (ref_start r) (total_len r))).
Qed.

(** The labels dropped are those of the rows that start at 1 and have an
    extended counterpart in the table. *)
Lemma dropped_index_spec (fdf : DataFrame HitLen) (dropped : list nat) (l : nat) :
  dropped_index fdf = Ok dropped ->
  In l dropped <->
  exists a, In a fdf /\ fst a = l /\ ref_start (snd a) = 1
            /\ existsb (extended_counterpart (snd a)) (rows fdf) = true.
Proof.
  unfold dropped_index.
  destruct (filter (fun r : nat * HitLen => ref_start (snd r) =? 1) fdf)
    as [| s ss] eqn:Hs; [discriminate|].
  rewrite <- Hs. clear Hs s ss. intros [= <-].
  rewrite in_flat_map. split.
  - intros [x [Hx Hl]].
    apply in_map_iff in Hx as [a [<- Ha]].
    apply filter_In in Ha as [Ha Hst].
    apply in_map_iff in Hl as [b [Hl Hb]]. simpl in Hl.
    apply filter_In in Hb as [Hb Hm]. simpl in Hm.
    exists a. repeat split; auto; [lia|].
    apply existsb_exists. exists (snd b). split.
    + unfold rows. now apply in_map.
    + now rewrite <- merge_keys_extended.
  - intros [a [Ha [Hl [Hst Hex]]]].
    apply existsb_exists in Hex as [b [Hb Hm]].
    unfold rows in Hb. apply in_map_iff in Hb as [b' [<- Hb']].
    exists (fst a, _get_extended_ref_end (snd a)). split.
    + apply in_map_iff. exists a. split; auto.
      apply filter_In. split; auto. lia.
    + apply in_map_iff. exists b'. split; auto.
      apply filter_In. split; auto. simpl. now rewrite merge_keys_extended.
Qed.

Lemma dropped_index_ok (fdf : DataFrame HitLen) :
  (exists r, In r (rows fdf) /\ ref_start r = 1) ->
  exists dropped, dropped_index fdf = Ok dropped.
Proof.
  intros [r [Hr Hst]]. unfold dropped_index.
  destruct (filter (fun r : nat * HitLen => ref_start (snd r) =? 1) fdf)
    as [| s ss] eqn:Hs; [| eauto].
  exfalso. unfold rows in Hr. apply in_map_iff in Hr as [x [<- Hx]].
  assert (Hin : In x (filter (fun r : nat * HitLen => ref_start (snd r) =? 1) fdf)).
  { apply filter_In. split; auto. lia. }
  now rewrite Hs in Hin.
Qed.

Lemma dropped_index_raises (fdf : DataFrame HitLen) :
  (forall r, In r (rows fdf) -> ref_start r <> 1) ->
  dropped_index fdf = Raise (KeyError "ext_ref_end").
Proof.
  intros H. unfold dropped_index.
  destruct (filter (fun r : nat * HitLen => ref_start (snd r) =? 1) fdf)
    as [| s ss] eqn:Hs; [reflexivity|].
  exfalso.
  assert (Hin : In s (filter (fun r : nat * HitLen => ref_start (snd r) =? 1) fdf))
    by (rewrite Hs; now left).
  apply filter_In in Hin as [Hin Hst].
  apply (H (snd s)); [unfold rows; now apply in_map | lia].
Qed.

(** On a table with distinct labels, dropping the labels is filtering on
    the rows. *)
Lemma drop_dropped_index (fdf : DataFrame HitLen) (dropped : list nat) :
  NoDup (labels fdf) ->
  dropped_index fdf = Ok dropped ->
  drop dropped fdf =
  filter (fun r : nat * HitLen =>
            negb ((ref_start (snd r) =? 1)
                  && existsb (extended_counterpart (snd r)) (rows fdf))) fdf.
Proof.
  intros Hnd Hd. unfold drop. apply filter_ext_in. intros r Hr. f_equal.
  apply eq_true_iff_eq. rewrite existsb_exists, andb_true_iff. split.
  - intros [l [Hl Heq]]. apply Nat.eqb_eq in Heq. subst l.
    apply (dropped_index_spec _ _ _ Hd) in Hl as [a [Ha [Hfst [Hst Hex]]]].
    assert (a = r) by (apply (label_unique fdf); auto). subst a.
    split; auto. lia.
  - intros [Hst Hex]. exists (fst r). split; [| apply Nat.eqb_refl].
    apply (dropped_index_spec _ _ _ Hd). exists r. repeat split; auto. lia.
Qed.

Lemma remove_redundant_result_rows (df out : DataFrame HitLen) :
  NoDup (labels df) ->
  remove_redundant_result df = Ok out ->
  out = RangeIndex (start_redundancy_filter (rows df)).
Proof.
  intros Hnd. unfold remove_redundant_result. simpl.
  destruct (dropped_index (filtered_df df)) as [dropped|] eqn:Hd; [| discriminate].
  simpl. intros [= <-]. unfold reset_index_drop. f_equal.
  assert (Hnd' : NoDup (labels (filtered_df df)))
    by (unfold filtered_df; now apply NoDup_labels_filter).
  rewrite (drop_dropped_index (filtered_df df) dropped Hnd' Hd).
  rewrite (rows_filter (fun r : HitLen =>
             negb ((ref_start r =? 1)
                   && existsb (extended_counterpart r) (rows (filtered_df df))))).
  now rewrite rows_filtered_df.
Qed.

Lemma small_coordinates_intro (r : HitLen) :
  Z.abs (ref_start r) <= 2 ^ 52 ->
  Z.abs (ref_end r) <= 2 ^ 52 ->
  match total_len r with
  | Some t => Z.abs t <= 2 ^ 52
  | None => True
  end ->
  small_coordinates r.
Proof.
  intros H1 H2 H3. split; [exact H1|]. split; [exact H2|].
  intros t Ht. now rewrite Ht in H3.
Qed.

Lemma small_coordinates_wrap_table : Forall small_coordinates (rows wrap_table).
Proof.
  repeat constructor; apply small_coordinates_intro; simpl; lia.
Qed.

Lemma small_coordinates_hits_RX :
  Forall small_coordinates (rows (append_exons_len hits_RX lens_R)).
Proof.
  repeat constructor; apply small_coordinates_intro; simpl; lia.
Qed.

(** C1, as the specification words it, fails on the wrap-around scenario:
    the code keeps B = (1, 120) and removes A = (1, 20), where the
    specification removes B and keeps A. *)
Lemma wrap_around_removes_the_start_hit :
  remove_redundant_result wrap_table = Ok (RangeIndex [wrap_B])
  /\ spec_redundancy_filter (rows wrap_table) = [wrap_A]
  /\ remove_redundant_result wrap_table
     <> Ok (RangeIndex (spec_redundancy_filter (rows wrap_table))).
Proof.
  split; [reflexivity|]. split; [reflexivity|].
  intros H. vm_compute in H. discriminate H.
Qed.

(** On a table with distinct labels that keeps a hit starting at 1, the
    function returns, and what it returns is the filter on the rows. *)
Lemma remove_redundant_result_ok (df : DataFrame HitLen) :
  NoDup (labels df) ->
  (exists r, In r (within_len (rows df)) /\ ref_start r = 1) ->
  remove_redundant_result df
  = Ok (RangeIndex (start_redundancy_filter (rows df))).
Proof.
  intros Hnd Hst.
  rewrite <- rows_filtered_df in Hst.
  destruct (dropped_index_ok _ Hst) as [dropped Hd].
  assert (Hok : exists out, remove_redundant_result df = Ok out).
  { unfold remove_redundant_result. rewrite Hd. simpl. eauto. }
  destruct Hok as [out Hout]. rewrite Hout. f_equal.
  now apply remove_redundant_result_rows.
Qed.

(** C1 (amended): on a table with distinct index labels and small
    coordinates in which a hit starting at 1 survives step 1,
    [remove_redundant_result] returns, under a fresh index, the rows in
    their order that are left after (1) removing every hit with
    [ref_start > total_len] or no [total_len], and (2) removing every
    remaining hit A with [ref_start = 1] for which some remaining hit B has
    the query and the reference of A and
    [ref_end B = ref_end A + total_len A]; nothing else is removed.  The
    coordinates are small so that the sum and the comparison are exact
    whatever the dtype of the [total_len] column. *)
Theorem remove_redundant_result_filter (df : DataFrame HitLen) :
  NoDup (labels df) ->
  Forall small_coordinates (rows df) ->
  (exists r, In r (within_len (rows df)) /\ ref_start r = 1) ->
  remove_redundant_result df
  = Ok (RangeIndex (start_redundancy_filter (rows df))).
Proof. intros Hnd _. exact (remove_redundant_result_ok df Hnd). Qed.

Lemma remove_redundant_result_filter_witness :
  NoDup (labels wrap_table)
  /\ Forall small_coordinates (rows wrap_table)
  /\ (exists r, In r (within_len (rows wrap_table)) /\ ref_start r = 1)
  /\ remove_redundant_result wrap_table
     = Ok (RangeIndex (start_redundancy_filter (rows wrap_table))).
Proof.
  assert (H1 : NoDup (labels wrap_table)) by apply NoDup_labels_RangeIndex.
  assert (H2 : exists r, In r (within_len (rows wrap_table)) /\ ref_start r = 1).
  { exists wrap_A. split; [left; reflexivity | reflexivity]. }
  split; [exact H1|]. split; [exact small_coordinates_wrap_table|].
  split; [exact H2|].
  exact (remove_redundant_result_filter wrap_table H1
           small_coordinates_wrap_table H2).
Defined.

(** C2, as the specification words it, fails on the wrap-around scenario:
    A starts at 1 and survives step 1, and is not in the output. *)
Lemma start_hit_is_removed :
  In wrap_A (within_len (rows wrap_table))
  /\ ref_start wrap_A = 1
  /\ exists out, remove_redundant_result wrap_table = Ok out
                 /\ ~ In wrap_A (rows out).
Proof.
  split; [left; reflexivity|]. split; [reflexivity|].
  exists (RangeIndex [wrap_B]). split; [reflexivity|].
  intros [H | []]. vm_compute in H. discriminate H.
Qed.

(** C2 (amended): on a table with distinct index labels and small
    coordinates, a hit H with [ref_start = 1] that survives step 1 is in
    the output exactly when no hit that survives step 1 has the query and
    the reference of H and ends at [ref_end H + total_len H]; every hit
    that survives step 1 and does not start at 1 is in the output: only
    hits starting at 1 are removed by step 2, their extended counterparts
    stay. *)
Theorem start_hit_kept_iff_no_counterpart (df : DataFrame HitLen) (h : HitLen) :
  NoDup (labels df) ->
  Forall small_coordinates (rows df) ->
  In h (within_len (rows df)) ->
  ref_start h = 1 ->
  exists out,
    remove_redundant_result df = Ok out
    /\ (In h (rows out)
        <-> existsb (extended_counterpart h) (within_len (rows df)) = false)
    /\ (forall b, In b (within_len (rows df)) -> ref_start b <> 1 ->
                  In b (rows out)).
Proof.
  intros Hnd _ Hin Hst.
  exists (RangeIndex (start_redundancy_filter (rows df))). split.
  - apply remove_redundant_result_ok; eauto.
  - rewrite rows_RangeIndex. unfold start_redundancy_filter. split.
    + rewrite filter_In, negb_true_iff, andb_false_iff. split.
      * intros [_ [H | H]]; [lia | exact H].
      * intros H. split; auto.
    + intros b Hb Hnst. apply filter_In. split; auto.
      apply negb_true_iff, andb_false_iff. left. lia.
Qed.

Lemma start_hit_kept_iff_no_counterpart_witness :
  NoDup (labels wrap_table)
  /\ Forall small_coordinates (rows wrap_table)
  /\ In wrap_B (within_len (rows wrap_table))
  /\ ref_start wrap_B = 1
  /\ exists out,
       remove_redundant_result wrap_table = Ok out
       /\ (In wrap_B (rows out)
           <-> existsb (extended_counterpart wrap_B)
                       (within_len (rows wrap_table)) = false)
       /\ (forall b, In b (within_len (rows wrap_table)) -> ref_start b <> 1 ->
                     In b (rows out)).
Proof.
  assert (H1 : NoDup (labels wrap_table)) by apply NoDup_labels_RangeIndex.
  assert (H2 : In wrap_B (within_len (rows wrap_table)))
    by (right; left; reflexivity).
  assert (H3 : ref_start wrap_B = 1) by reflexivity.
  split; [exact H1|]. split; [exact small_coordinates_wrap_table|].
  split; [exact H2|]. split; [exact H3|].
  exact (start_hit_kept_iff_no_counterpart wrap_table wrap_B H1
           small_coordinates_wrap_table H2 H3).
Defined.

(** A second pass changes nothing when it does not raise: the rows kept by
    the filter are kept again. *)
Lemma within_len_idem (rs : list HitLen) :
  within_len (start_redundancy_filter rs) = start_redundancy_filter rs.
Proof.
  unfold within_len at 1. apply forallb_filter_id, forallb_forall.
  intros r Hr. unfold start_redundancy_filter in Hr.
  apply filter_In in Hr as [Hr _]. unfold within_len in Hr.
  now apply filter_In in Hr as [_ Hr].
Qed.

Lemma start_redundancy_filter_idem (rs : list HitLen) :
  start_redundancy_filter (start_redundancy_filter rs)
  = start_redundancy_filter rs.
Proof.
  unfold start_redundancy_filter at 1. rewrite within_len_idem.
  apply forallb_filter_id, forallb_forall. intros r Hr.
  pose proof Hr as Hr'. unfold start_redundancy_filter in Hr'.
  apply filter_In in Hr' as [_ Hp].
  apply negb_true_iff, andb_false_iff in Hp.
  apply negb_true_iff, andb_false_iff.
  destruct Hp as [Hp | Hp]; [now left | right].
  destruct (existsb (extended_counterpart r) (start_redundancy_filter rs))
    eqn:Hex; [| reflexivity].
  apply existsb_exists in Hex as [b [Hb Hm]].
  assert (Hex' : existsb (extended_counterpart r) (within_len rs) = true).
  { apply existsb_exists. exists b. split; auto.
    unfold start_redundancy_filter in Hb. now apply filter_In in Hb as [Hb _]. }
  congruence.
Qed.

Lemma remove_redundant_result_again (df out : DataFrame HitLen) :
  NoDup (labels df) ->
  remove_redundant_result df = Ok out ->
  (exists r, In r (rows out) /\ ref_start r = 1) ->
  remove_redundant_result out = Ok out.
Proof.
  intros Hnd Hout Hst.
  apply remove_redundant_result_rows in Hout; auto. subst out.
  rewrite rows_RangeIndex in Hst.
  rewrite remove_redundant_result_ok.
  - now rewrite rows_RangeIndex, start_redundancy_filter_idem.
  - apply NoDup_labels_RangeIndex.
  - now rewrite rows_RangeIndex, within_len_idem.
Qed.

Lemma remove_redundant_result_again_raises (out : DataFrame HitLen) :
  (forall r, In r (rows out) -> ref_start r <> 1) ->
  remove_redundant_result out = Raise (KeyError "ext_ref_end").
Proof.
  intros Hst. unfold remove_redundant_result. simpl.
  rewrite dropped_index_raises; [reflexivity|].
  intros r Hr. apply Hst. rewrite rows_filtered_df in Hr.
  unfold within_len in Hr. now apply filter_In in Hr as [Hr _].
Qed.

(** C7: the filter applied twice.  On the table of A = (1, 20) and
    B = (95, 120) with [total_len = 100] the first pass returns the table
    of B alone, and the second pass, given that table, raises [KeyError]:
    no hit starts at 1 any more. *)
Theorem second_pass_raises :
  remove_redundant_result late_table = Ok (RangeIndex [late_B])
  /\ (out <- remove_redundant_result late_table ;; remove_redundant_result out)
     = Raise (KeyError "ext_ref_end").
Proof. split; reflexivity. Qed.

(** ** BoundaryClassifier *)

(** C4: [append_cross_boundary] keeps the index and the rows of its input
    and adds one column, and for every row of its output whose [total_len]
    is defined the [cross_boundary] column is 1 exactly when
    [ref_start <= total_len < ref_end], and 0 otherwise; a hit from 1 to
    [total_len] gets 0, a hit from [total_len] to [total_len + 1] gets 1. *)
Theorem cross_boundary_iff (df : DataFrame HitLen) :
  labels (append_cross_boundary df) = labels df
  /\ map hit_len (rows (append_cross_boundary df)) = rows df
  /\ (forall r t,
        In r (rows (append_cross_boundary df)) ->
        total_len r = Some t ->
        (cross_boundary r = 1 <-> ref_start r <= t /\ t < ref_end r)
        /\ (cross_boundary r = 0 <-> ~ (ref_start r <= t /\ t < ref_end r))
        /\ (ref_start r = 1 -> ref_end r = t -> cross_boundary r = 0)
        /\ (ref_start r = t -> ref_end r = t + 1 -> cross_boundary r = 1)).
Proof.
  split; [| split].
  - unfold labels, append_cross_boundary. rewrite map_map. reflexivity.
  - unfold rows, append_cross_boundary. rewrite !map_map. reflexivity.
  - intros r t Hr Ht. unfold rows, append_cross_boundary in Hr.
    rewrite map_map in Hr. apply in_map_iff in Hr as [x [<- Hx]].
    simpl in *. unfold _is_cross_boundary, le_nan. rewrite Ht.
    destruct (ref_start (snd x) <=? t) eqn:H1, (t <? ref_end (snd x)) eqn:H2;
      simpl; repeat split; intros; try lia; try discriminate.
Qed.

Lemma cross_boundary_iff_witness :
  In (mkHitCb late_B 1) (rows (append_cross_boundary late_table))
  /\ total_len late_B = Some 100
  /\ (cross_boundary (mkHitCb late_B 1) = 1
      <-> ref_start late_B <= 100 /\ 100 < ref_end late_B)
  /\ In (mkHitCb wrap_A 0) (rows (append_cross_boundary late_table))
  /\ (cross_boundary (mkHitCb wrap_A 0) = 0
      <-> ~ (ref_start wrap_A <= 100 /\ 100 < ref_end wrap_A)).
Proof.
  assert (H1 : In (mkHitCb late_B 1) (rows (append_cross_boundary late_table)))
    by (right; left; reflexivity).
  assert (H2 : total_len late_B = Some 100) by reflexivity.
  assert (H3 : In (mkHitCb wrap_A 0) (rows (append_cross_boundary late_table)))
    by (left; reflexivity).
  split; [exact H1|]. split; [exact H2|]. split.
  - exact (proj1 (proj2 (proj2 (cross_boundary_iff late_table))
                    (mkHitCb late_B 1) 100 H1 H2)).
  - split; [exact H3|].
    exact (proj1 (proj2 (proj2 (proj2 (cross_boundary_iff late_table))
                           (mkHitCb wrap_A 0) 100 H3 H2))).
Defined.

(** ** Missing lengths and events *)

Lemma merge_left_missing {A K V B} (key_eq : K -> K -> bool) (lkey : A -> K)
    (right : list (K * V)) (mk : A -> option V -> B) (left : list A) (a : A) :
  In a left ->
  (forall e, In e right -> key_eq (lkey a) (fst e) = false) ->
  In (mk a None) (merge_left key_eq lkey right mk left).
Proof.
  intros Hin Hno. unfold merge_left. apply in_flat_map. exists a. split; auto.
  destruct (filter (fun e => key_eq (lkey a) (fst e)) right) as [| e es] eqn:Hf.
  - now left.
  - exfalso.
    assert (He : In e (filter (fun e => key_eq (lkey a) (fst e)) right))
      by (rewrite Hf; now left).
    apply filter_In in He as [He Hk]. rewrite (Hno e He) in Hk. discriminate.
Qed.

Lemma merge_left_inv {A K V B} (key_eq : K -> K -> bool) (lkey : A -> K)
    (right : list (K * V)) (mk : A -> option V -> B) (left : list A) (b : B) :
  In b (merge_left key_eq lkey right mk left) ->
  exists a, In a left
    /\ (b = mk a None
        \/ exists e, In e right /\ key_eq (lkey a) (fst e) = true
                     /\ b = mk a (Some (snd e))).
Proof.
  unfold merge_left. intros Hb. apply in_flat_map in Hb as [a [Ha Hb]].
  exists a. split; auto.
  destruct (filter (fun e => key_eq (lkey a) (fst e)) right) as [| e es] eqn:Hf.
  - destruct Hb as [<- | []]. now left.
  - right. rewrite <- Hf in Hb. apply in_map_iff in Hb as [e' [<- He']].
    apply filter_In in He' as [He' Hk]. eauto.
Qed.

Lemma remove_redundant_result_within (df out : DataFrame HitLen) (r : HitLen) :
  remove_redundant_result df = Ok out ->
  In r (rows out) -> In r (within_len (rows df)).
Proof.
  unfold remove_redundant_result. simpl.
  destruct (dropped_index (filtered_df df)) as [dropped|]; [| discriminate].
  simpl. intros [= <-]. unfold reset_index_drop. rewrite rows_RangeIndex.
  rewrite <- rows_filtered_df. unfold rows, drop. intros Hr.
  apply in_map_iff in Hr as [x [<- Hx]]. apply filter_In in Hx as [Hx _].
  now apply in_map.
Qed.

Lemma In_insert_sorted {A} (before : A -> A -> bool) (x y : A) (l : list A) :
  In y (insert_sorted before x l) <-> y = x \/ In y l.
Proof.
  induction l as [| z l IH]; simpl.
  - intuition congruence.
  - destruct (before x z); simpl; rewrite ?IH; intuition congruence.
Qed.

Lemma In_stable_sort {A} (before : A -> A -> bool) (y : A) (l : list A) :
  In y (stable_sort before l) <-> In y l.
Proof.
  unfold stable_sort.
  assert (H : forall acc, In y (fold_left (fun acc x => insert_sorted before x acc) l acc)
                          <-> In y acc \/ In y l).
  { induction l as [| x l IH]; intros acc; simpl.
    - intuition.
    - rewrite IH, In_insert_sorted. intuition congruence. }
  rewrite H. simpl. intuition.
Qed.

Lemma flat_map_filter_skip {A B} (f : A -> list B) (p : A -> bool) (l : list A) :
  (forall x, p x = false -> f x = []) ->
  flat_map f (filter p l) = flat_map f l.
Proof.
  intros H. induction l as [| x l IH]; simpl; [reflexivity|].
  destruct (p x) eqn:Hp; simpl; rewrite IH; [reflexivity|].
  now rewrite (H x Hp).
Qed.

Lemma filter_filter_implied {A} (p q : A -> bool) (l : list A) :
  (forall x, q x = true -> p x = true) ->
  filter q (filter p l) = filter q l.
Proof.
  intros H. induction l as [| x l IH]; simpl; [reflexivity|].
  destruct (p x) eqn:Hp; simpl; rewrite IH; [reflexivity|].
  destruct (q x) eqn:Hq; [| reflexivity].
  rewrite (H x Hq) in Hp. discriminate.
Qed.

(** Rows without an event id take no part in the summary. *)
Lemma get_grouped_results_skips_nan (df : DataFrame HitAlnId) :
  get_grouped_results (filter (fun r : nat * HitAlnId => has_ev (snd r)) df)
  = get_grouped_results df.
Proof.
  unfold get_grouped_results. rewrite (rows_filter has_ev). f_equal.
  assert (Hk : group_keys (filter has_ev (rows df)) = group_keys (rows df)).
  { unfold group_keys. rewrite flat_map_filter_skip; [reflexivity|].
    intros x Hx. unfold has_ev in Hx. unfold group_key.
    now destruct (ev_id x). }
  rewrite Hk. apply flat_map_ext. intros k. f_equal.
  apply filter_filter_implied. intros x Hx.
  unfold in_group, group_key in Hx. unfold has_ev.
  now destruct (ev_id x).
Qed.

(** C3, as the specification words it, fails: a hit whose reference is in
    neither table raises nothing; it leaves the hit table in step 1 of the
    filter, and a hit without an event leaves the summary. *)
Lemma missing_reference_is_skipped :
  In (hit_at "Q" "X" 5 30) (rows hits_RX)
  /\ (forall t, ~ In ("X", t) lens_R)
  /\ remove_redundant_result (append_exons_len hits_RX lens_R)
     = Ok (RangeIndex [wrap_A])
  /\ In cb_X (rows cbs_RX)
  /\ (forall e, ~ In ("X", e) evs_R)
  /\ rows (get_grouped_results
             (generate_aln_id (append_merged_aln (append_ev_id cbs_RX evs_R))))
     = [mkGroupedRow "E1" "Q" 0 1 0].
Proof.
  split; [right; left; reflexivity|].
  split; [intros t [H | []]; discriminate H|].
  split; [reflexivity|].
  split; [right; left; reflexivity|].
  split; [intros t [H | []]; discriminate H|].
  reflexivity.
Qed.

Lemma merge_left_found {A K V B} (key_eq : K -> K -> bool) (lkey : A -> K)
    (right : list (K * V)) (mk : A -> option V -> B) (left : list A)
    (a : A) (e : K * V) :
  In a left -> In e right -> key_eq (lkey a) (fst e) = true ->
  In (mk a (Some (snd e))) (merge_left key_eq lkey right mk left).
Proof.
  intros Ha He Hk. unfold merge_left. apply in_flat_map. exists a.
  split; [exact Ha|].
  assert (Hin : In e (filter (fun e => key_eq (lkey a) (fst e)) right))
    by (apply filter_In; auto).
  destruct (filter (fun e => key_eq (lkey a) (fst e)) right) as [| e0 es] eqn:Hf;
    [contradiction|].
  now apply (in_map (fun e => mk a (Some (snd e)))).
Qed.

Lemma existsb_false_filter {A} (p : A -> bool) (l : list A) :
  existsb p l = false -> filter p l = [].
Proof.
  induction l as [| x l IH]; simpl; [reflexivity|].
  destruct (p x); simpl; [discriminate | exact IH].
Qed.

Lemma listed_len_iff (exons_len_df : ExonsLen) (h : Hit) :
  listed_len exons_len_df h = true
  <-> exists t, In (reference_id h, t) exons_len_df.
Proof.
  unfold listed_len. rewrite existsb_exists. split.
  - intros [[k t] [He Hk]]. simpl in Hk. apply String.eqb_eq in Hk.
    exists t. now rewrite Hk.
  - intros [t Ht]. exists (reference_id h, t). split; [exact Ht|].
    simpl. apply String.eqb_refl.
Qed.

(** The hits without a length take no part in step 1: the join of the
    listed hits has the rows that survive step 1 in the join of all. *)
Lemma within_len_listed (exons_len_df : ExonsLen) (hs : list Hit) :
  within_len (merge_left String.eqb reference_id exons_len_df mkHitLen
                (filter (listed_len exons_len_df) hs))
  = within_len (merge_left String.eqb reference_id exons_len_df mkHitLen hs).
Proof.
  unfold within_len, merge_left.
  induction hs as [| h hs IH]; [reflexivity|].
  cbn [filter]. destruct (listed_len exons_len_df h) eqn:Hl; cbn [flat_map].
  - rewrite !filter_app. f_equal. exact IH.
  - rewrite filter_app, IH.
    unfold listed_len in Hl. rewrite (existsb_false_filter _ _ Hl). reflexivity.
Qed.

(** On a table with distinct labels the function is total up to the one
    [KeyError]. *)
Lemma remove_redundant_result_total (df : DataFrame HitLen) :
  NoDup (labels df) ->
  remove_redundant_result df
  = if existsb (fun r : HitLen => ref_start r =? 1) (within_len (rows df))
    then Ok (RangeIndex (start_redundancy_filter (rows df)))
    else Raise (KeyError "ext_ref_end").
Proof.
  intros Hnd.
  destruct (existsb (fun r : HitLen => ref_start r =? 1) (within_len (rows df)))
    eqn:Hex.
  - apply existsb_exists in Hex as [r [Hr Hst]].
    apply remove_redundant_result_ok; [exact Hnd|].
    exists r. split; [exact Hr | lia].
  - unfold remove_redundant_result. rewrite dropped_index_raises; [reflexivity|].
    intros r Hr Hst. rewrite rows_filtered_df in Hr.
    assert (Ht : existsb (fun r : HitLen => ref_start r =? 1)
                         (within_len (rows df)) = true).
    { apply existsb_exists. exists r. split; [exact Hr | lia]. }
    congruence.
Qed.

(** A hit starting at 1 survives step 1 of the filter on the joined table
    exactly when the length table lists a length of at least 1 for such a
    hit. *)
Lemma start_hit_listed (miranda_df : DataFrame Hit) (exons_len_df : ExonsLen) :
  existsb (fun r : HitLen => ref_start r =? 1)
          (within_len (rows (append_exons_len miranda_df exons_len_df))) = true
  <-> exists h t, In h (rows miranda_df) /\ In (reference_id h, t) exons_len_df
                  /\ ref_start h = 1 /\ 1 <= t.
Proof.
  unfold append_exons_len. rewrite rows_RangeIndex, existsb_exists. split.
  - intros [r [Hr Hst]]. unfold within_len in Hr.
    apply filter_In in Hr as [Hr Hle].
    apply merge_left_inv in Hr as [a [Ha [-> | [[k t] [He [Hk ->]]]]]].
    + discriminate Hle.
    + simpl in *. apply String.eqb_eq in Hk. exists a, t.
      split; [exact Ha|]. split; [now rewrite Hk|]. lia.
  - intros [h [t [Hh [Ht [Hst Hle]]]]]. exists (mkHitLen h (Some t)). split.
    + unfold within_len. apply filter_In. split.
      * apply (merge_left_found String.eqb reference_id exons_len_df mkHitLen
                 (rows miranda_df) h (reference_id h, t) Hh Ht).
        simpl. apply String.eqb_refl.
      * simpl. lia.
    + simpl. lia.
Qed.

(** C3 (amended): a hit whose reference the length table does not list is
    dropped without a word.  [append_exons_len] gives it a missing
    [total_len]; on the joined table, the coordinates being small,
    [remove_redundant_result] returns or raises what it returns or raises
    on the join of the listed hits alone; it returns exactly when the
    length table lists a length of at least 1 for a hit that starts at 1,
    and raises [KeyError('ext_ref_end')] otherwise; a row it returns has a
    length of the table.  A hit whose reference the event table does not
    list gets a missing [ev_id] from [append_ev_id] and stays in the hit
    table, and [get_grouped_results] returns what it returns without the
    rows that have no [ev_id]. *)
Theorem missing_reference_is_dropped
    (miranda_df : DataFrame Hit) (exons_len_df : ExonsLen)
    (df : DataFrame HitCb) (exons_ev_id_df : ExonsEvId)
    (with_id : DataFrame HitAlnId) :
  Forall small_coordinates (rows (append_exons_len miranda_df exons_len_df)) ->
  (forall h, In h (rows miranda_df) ->
     (forall t, ~ In (reference_id h, t) exons_len_df) ->
     listed_len exons_len_df h = false
     /\ In (mkHitLen h None) (rows (append_exons_len miranda_df exons_len_df)))
  /\ remove_redundant_result (append_exons_len miranda_df exons_len_df)
     = remove_redundant_result
         (append_exons_len
            (filter (fun r : nat * Hit => listed_len exons_len_df (snd r))
                    miranda_df)
            exons_len_df)
  /\ ((exists out,
         remove_redundant_result (append_exons_len miranda_df exons_len_df)
         = Ok out)
      <-> exists h t, In h (rows miranda_df)
                      /\ In (reference_id h, t) exons_len_df
                      /\ ref_start h = 1 /\ 1 <= t)
  /\ (remove_redundant_result (append_exons_len miranda_df exons_len_df)
      = Raise (KeyError "ext_ref_end")
      <-> ~ exists h t, In h (rows miranda_df)
                        /\ In (reference_id h, t) exons_len_df
                        /\ ref_start h = 1 /\ 1 <= t)
  /\ (forall out r,
        remove_redundant_result (append_exons_len miranda_df exons_len_df)
        = Ok out ->
        In r (rows out) ->
        exists t, total_len r = Some t /\ In (reference_id r, t) exons_len_df)
  /\ (forall c, In c (rows df) ->
        (forall e, ~ In (reference_id c, e) exons_ev_id_df) ->
        In (mkHitEv c None) (rows (append_ev_id df exons_ev_id_df)))
  /\ get_grouped_results with_id
     = get_grouped_results
         (filter (fun r : nat * HitAlnId => has_ev (snd r)) with_id).
Proof.
  intros _.
  assert (Hnd : NoDup (labels (append_exons_len miranda_df exons_len_df)))
    by (unfold append_exons_len; apply NoDup_labels_RangeIndex).
  pose proof (remove_redundant_result_total _ Hnd) as Htot.
  pose proof (start_hit_listed miranda_df exons_len_df) as Hst.
  split; [| split; [| split; [| split; [| split; [| split]]]]].
  - intros h Hh Hno. split.
    + destruct (listed_len exons_len_df h) eqn:Hl; [| reflexivity].
      apply listed_len_iff in Hl as [t Ht]. now destruct (Hno t).
    + unfold append_exons_len. rewrite rows_RangeIndex.
      apply merge_left_missing; auto. intros [k t] He. simpl.
      destruct (String.eqb_spec (reference_id h) k) as [Heq | Hne]; auto.
      exfalso. apply (Hno t). now rewrite Heq.
  - rewrite Htot, remove_redundant_result_total
      by (unfold append_exons_len; apply NoDup_labels_RangeIndex).
    unfold start_redundancy_filter, append_exons_len.
    rewrite !rows_RangeIndex, (rows_filter (listed_len exons_len_df)).
    rewrite within_len_listed. reflexivity.
  - rewrite <- Hst, Htot.
    destruct (existsb (fun r : HitLen => ref_start r =? 1)
                (within_len (rows (append_exons_len miranda_df exons_len_df)))).
    + split; eauto.
    + split; [intros [out H]; discriminate H | discriminate].
  - rewrite <- Hst, Htot.
    destruct (existsb (fun r : HitLen => ref_start r =? 1)
                (within_len (rows (append_exons_len miranda_df exons_len_df)))).
    + split; [discriminate | intros H; now destruct H].
    + split; [discriminate | reflexivity].
  - intros out r Hout Hr.
    apply (remove_redundant_result_within _ _ _ Hout) in Hr.
    unfold within_len in Hr. apply filter_In in Hr as [Hr Hle].
    unfold append_exons_len in Hr. rewrite rows_RangeIndex in Hr.
    apply merge_left_inv in Hr as [a [_ [-> | [[k t] [He [Hk ->]]]]]].
    + discriminate Hle.
    + simpl in *. exists t. split; auto.
      apply String.eqb_eq in Hk. now rewrite Hk.
  - intros c Hc Hnoe. unfold append_ev_id, rows. apply in_map_iff.
    assert (Hin : In (mkHitEv c None)
                     (merge_left String.eqb (fun r : HitCb => reference_id r)
                                 exons_ev_id_df mkHitEv (rows df))).
    { apply merge_left_missing; auto. intros [k e] He. simpl.
      destruct (String.eqb_spec (reference_id c) k) as [Heq | Hne]; auto.
      exfalso. apply (Hnoe e). now rewrite Heq. }
    rewrite <- (rows_RangeIndex (merge_left _ _ _ _ _)) in Hin.
    unfold rows in Hin. apply in_map_iff in Hin as [x [Hx Hin]].
    exists x. split; auto. now apply In_stable_sort.
  - symmetry. apply get_grouped_results_skips_nan.
Qed.

Lemma missing_reference_is_dropped_witness :
  Forall small_coordinates (rows (append_exons_len hits_RX lens_R))
  /\ In (hit_at "Q" "X" 5 30) (rows hits_RX)
  /\ (forall t, ~ In (reference_id (hit_at "Q" "X" 5 30), t) lens_R)
  /\ In (mkHitLen (hit_at "Q" "X" 5 30) None)
        (rows (append_exons_len hits_RX lens_R))
  /\ remove_redundant_result (append_exons_len hits_RX lens_R)
     = remove_redundant_result
         (append_exons_len
            (filter (fun r : nat * Hit => listed_len lens_R (snd r)) hits_RX)
            lens_R)
  /\ (exists out,
        remove_redundant_result (append_exons_len hits_RX lens_R) = Ok out)
  /\ In cb_X (rows cbs_RX)
  /\ (forall e, ~ In (reference_id cb_X, e) evs_R)
  /\ In (mkHitEv cb_X None) (rows (append_ev_id cbs_RX evs_R)).
Proof.
  assert (H1 : In (hit_at "Q" "X" 5 30) (rows hits_RX))
    by (right; left; reflexivity).
  assert (H2 : forall t, ~ In (reference_id (hit_at "Q" "X" 5 30), t) lens_R)
    by (intros t [H | []]; discriminate H).
  assert (H3 : In cb_X (rows cbs_RX)) by (right; left; reflexivity).
  assert (H4 : forall e, ~ In (reference_id cb_X, e) evs_R)
    by (intros e [H | []]; discriminate H).
  assert (H5 : exists h t, In h (rows hits_RX) /\ In (reference_id h, t) lens_R
                           /\ ref_start h = 1 /\ 1 <= t).
  { exists (hit_at "Q" "R" 1 20), 100. split; [left; reflexivity|].
    split; [left; reflexivity|]. split; [reflexivity | lia]. }
  destruct (missing_reference_is_dropped hits_RX lens_R cbs_RX evs_R []
              small_coordinates_hits_RX)
    as [Ha [Hb [Hc [_ [_ [Hf _]]]]]].
  split; [exact small_coordinates_hits_RX|].
  split; [exact H1|]. split; [exact H2|].
  split; [exact (proj2 (Ha _ H1 H2))|].
  split; [exact Hb|].
  split; [exact (proj2 Hc H5)|].
  split; [exact H3|]. split; [exact H4|].
  exact (Hf _ H3 H4).
Defined.

(** ** AlignmentClusterer *)

Section Unique.

Context {A : Type} (eqb : A -> A -> bool).
Hypothesis eqb_eq : forall x y, eqb x y = true <-> x = y.

Lemma existsb_eqb (x : A) (l : list A) : existsb (eqb x) l = true <-> In x l.
Proof.
  rewrite existsb_exists. split.
  - intros [y [Hy Heq]]. apply eqb_eq in Heq. now subst.
  - intros H. exists x. split; auto. now apply eqb_eq.
Qed.

Lemma unique_from_In (x : A) (seen l : list A) :
  In x (unique_from eqb seen l) <-> In x l /\ ~ In x seen.
Proof.
  revert seen. induction l as [| y l IH]; intros seen; simpl.
  - intuition.
  - destruct (existsb (eqb y) seen) eqn:Hy.
    + apply existsb_eqb in Hy. rewrite IH. intuition congruence.
    + assert (Hn : ~ In y seen)
        by (intros H; apply existsb_eqb in H; congruence).
      simpl. rewrite IH. simpl.
      destruct (eqb x y) eqn:Hxy.
      * apply eqb_eq in Hxy. subst. intuition.
      * assert (Hne : x <> y).
        { intros Heq. apply eqb_eq in Heq. congruence. }
        intuition congruence.
Qed.

Lemma unique_from_NoDup (seen l : list A) : NoDup (unique_from eqb seen l).
Proof.
  revert seen. induction l as [| y l IH]; intros seen; simpl.
  - constructor.
  - destruct (existsb (eqb y) seen); auto.
    constructor; auto. rewrite unique_from_In. simpl. intuition.
Qed.

Lemma unique_from_seen_ext (seen seen' l : list A) :
  (forall x, In x seen <-> In x seen') ->
  unique_from eqb seen l = unique_from eqb seen' l.
Proof.
  revert seen seen'. induction l as [| y l IH]; intros seen seen' H; simpl.
  - reflexivity.
  - assert (Hy : existsb (eqb y) seen = existsb (eqb y) seen').
    { apply eq_true_iff_eq. now rewrite !existsb_eqb. }
    rewrite Hy. destruct (existsb (eqb y) seen').
    + now apply IH.
    + f_equal. apply IH. intros x. simpl. now rewrite H.
Qed.

Lemma unique_from_app (seen l1 l2 : list A) :
  unique_from eqb seen (l1 ++ l2)
  = unique_from eqb seen l1 ++ unique_from eqb (rev l1 ++ seen) l2.
Proof.
  revert seen. induction l1 as [| y l1 IH]; intros seen; simpl.
  - reflexivity.
  - destruct (existsb (eqb y) seen) eqn:Hy.
    + rewrite IH. f_equal. apply unique_from_seen_ext. intros x.
      apply existsb_eqb in Hy.
      rewrite !in_app_iff. simpl. intuition congruence.
    + simpl. f_equal. rewrite IH. f_equal. now rewrite <- app_assoc.
Qed.

Lemma index_of_app_fresh (x : A) (l1 l2 : list A) :
  ~ In x l1 -> index_of eqb x (l1 ++ x :: l2) = List.length l1.
Proof.
  induction l1 as [| y l1 IH]; simpl; intros Hn.
  - now rewrite (proj2 (eqb_eq x x) eq_refl).
  - destruct (eqb x y) eqn:Hxy.
    + apply eqb_eq in Hxy. subst y. exfalso. apply Hn. now left.
    + f_equal. apply IH. intros H. apply Hn. now right.
Qed.

Lemma index_of_inj (x y : A) (l : list A) :
  In x l -> In y l -> index_of eqb x l = index_of eqb y l -> x = y.
Proof.
  induction l as [| z l IH]; simpl; [contradiction|]. intros Hx Hy.
  destruct (eqb x z) eqn:Hxz, (eqb y z) eqn:Hyz; try discriminate.
  - apply eqb_eq in Hxz, Hyz. congruence.
  - intros [= H]. apply IH; auto.
    + destruct Hx as [-> | Hx]; auto.
      rewrite (proj2 (eqb_eq x x) eq_refl) in Hxz. discriminate.
    + destruct Hy as [-> | Hy]; auto.
      rewrite (proj2 (eqb_eq y y) eq_refl) in Hyz. discriminate.
Qed.

(** In the table of the distinct values with their positions, a value has
    one row: its first position. *)
Lemma filter_combine_index (x : A) (u : list A) (k : nat) :
  NoDup u -> In x u ->
  filter (fun e : A * nat => eqb x (fst e)) (combine u (seq k (List.length u)))
  = [(x, (k + index_of eqb x u)%nat)].
Proof.
  revert k. induction u as [| y u IH]; intros k Hnd Hin; [contradiction|].
  inversion Hnd as [| ? ? Hnin Hnd']; subst. simpl.
  destruct (eqb x y) eqn:Hxy.
  - apply eqb_eq in Hxy. subst y. rewrite Nat.add_0_r. f_equal.
    assert (Hnone : forall n, filter (fun e : A * nat => eqb x (fst e))
                                     (combine u (seq n (List.length u))) = []).
    { clear IH Hnd' Hin Hnd. revert Hnin.
      induction u as [| z u IHu]; intros Hnin n; simpl; auto.
      destruct (eqb x z) eqn:Hxz.
      - apply eqb_eq in Hxz. subst. exfalso. apply Hnin. now left.
      - apply IHu. intros H. apply Hnin. now right. }
    apply Hnone.
  - destruct Hin as [-> | Hin].
    + rewrite (proj2 (eqb_eq x x) eq_refl) in Hxy. discriminate.
    + rewrite IH; auto. now rewrite Nat.add_succ_r.
Qed.

End Unique.

Lemma string_eqb_eq (x y : string) : String.eqb x y = true <-> x = y.
Proof. apply String.eqb_eq. Qed.

Lemma rows_append_merged_aln (df : DataFrame HitEv) :
  rows (append_merged_aln df)
  = map (fun r : HitEv => mkHitAln r (merged_aln r)) (rows df).
Proof.
  unfold rows, append_merged_aln. rewrite !map_map. reflexivity.
Qed.

Lemma merge_left_index (u : list string) (rs : list HitAln) :
  NoDup u ->
  (forall r, In r rs -> In (aln r) u) ->
  merge_left String.eqb aln (combine u (seq 0 (List.length u))) mkHitAlnId rs
  = map (fun r : HitAln =>
           mkHitAlnId r (Some (index_of String.eqb (aln r) u))) rs.
Proof.
  intros Hnd Hall. unfold merge_left.
  induction rs as [| r rs IH]; simpl; [reflexivity|].
  rewrite (filter_combine_index _ string_eqb_eq (aln r) u 0 Hnd);
    [| apply Hall; now left].
  simpl. f_equal. apply IH. intros r' Hr'. apply Hall. now right.
Qed.

(** Every row gets the first position of its alignment among the distinct
    alignments of the table. *)
Lemma generate_aln_id_rows (df : DataFrame HitAln) :
  rows (generate_aln_id df)
  = map (fun r : HitAln =>
           mkHitAlnId r (Some (index_of String.eqb (aln r)
                                        (unique String.eqb (map aln (rows df))))))
        (rows df).
Proof.
  unfold generate_aln_id, all_uniq_alns. rewrite rows_RangeIndex. simpl.
  apply merge_left_index.
  - apply unique_from_NoDup. apply string_eqb_eq.
  - intros r Hr. apply (unique_from_In _ string_eqb_eq).
    split; [now apply in_map | intros []].
Qed.

Lemma clustered_rows (df : DataFrame HitEv) :
  clustered df
  = map (fun r : HitEv =>
           mkHitAlnId (mkHitAln r (merged_aln r))
             (Some (index_of String.eqb (merged_aln r)
                             (unique String.eqb
                                (map (fun x : HitEv => merged_aln x)
                                     (rows df))))))
        (rows df).
Proof.
  unfold clustered. rewrite generate_aln_id_rows, rows_append_merged_aln.
  rewrite !map_map. reflexivity.
Qed.

Lemma length_append (s1 s2 : string) :
  String.length (s1 ++ s2) = (String.length s1 + String.length s2)%nat.
Proof. induction s1 as [| c s1 IH]; simpl; [reflexivity | now rewrite IH]. Qed.

Lemma append_assoc (s1 s2 s3 : string) :
  ((s1 ++ s2) ++ s3 = s1 ++ (s2 ++ s3))%string.
Proof. induction s1 as [| c s1 IH]; simpl; [reflexivity | now rewrite IH]. Qed.

Lemma append_inj_length (a1 a2 x y : string) :
  String.length a1 = String.length a2 ->
  (a1 ++ x = a2 ++ y)%string -> a1 = a2 /\ x = y.
Proof.
  revert a2. induction a1 as [| c a1 IH]; intros [| d a2]; simpl;
    try discriminate.
  - auto.
  - intros [= Hlen] [= -> H]. destruct (IH a2 Hlen H) as [-> ->]. auto.
Qed.

(** Under the invariant of the data model the concatenation determines the
    three strings. *)
Lemma merged_aln_inj (r1 r2 : Hit) :
  equal_length_aln r1 -> equal_length_aln r2 ->
  merged_aln r1 = merged_aln r2 -> aln_triple r1 = aln_triple r2.
Proof.
  unfold equal_length_aln, merged_aln, aln_triple.
  intros [H1 H1'] [H2 H2'] H.
  pose proof (f_equal String.length H) as Hlen.
  rewrite !length_append in Hlen.
  rewrite !append_assoc in H.
  apply append_inj_length in H as [-> H]; [| lia].
  apply append_inj_length in H as [-> ->]; [| lia].
  reflexivity.
Qed.

Lemma merged_aln_triple (r1 r2 : Hit) :
  aln_triple r1 = aln_triple r2 -> merged_aln r1 = merged_aln r2.
Proof.
  unfold aln_triple, merged_aln. now intros [= -> -> ->].
Qed.

Section Unique_index.

Context {A : Type} (eqb : A -> A -> bool).
Hypothesis eqb_eq : forall x y, eqb x y = true <-> x = y.

Lemma index_of_app_in (x : A) (l1 l2 : list A) :
  In x l1 -> index_of eqb x (l1 ++ l2) = index_of eqb x l1.
Proof.
  induction l1 as [| y l1 IH]; simpl; [contradiction|]. intros Hin.
  destruct (eqb x y) eqn:Hxy; [reflexivity|]. f_equal. apply IH.
  destruct Hin as [-> | Hin]; auto.
  rewrite (proj2 (eqb_eq x x) eq_refl) in Hxy. discriminate.
Qed.

Lemma index_of_lt (x : A) (l : list A) :
  In x l -> (index_of eqb x l < List.length l)%nat.
Proof.
  induction l as [| y l IH]; simpl; [contradiction|]. intros Hin.
  destruct (eqb x y) eqn:Hxy; [lia|].
  destruct Hin as [-> | Hin].
  - rewrite (proj2 (eqb_eq x x) eq_refl) in Hxy. discriminate.
  - apply IH in Hin. lia.
Qed.

Lemma unique_In (x : A) (l : list A) : In x (unique eqb l) <-> In x l.
Proof. unfold unique. rewrite (unique_from_In eqb eqb_eq). simpl. intuition. Qed.

(** The distinct values of a list start with the distinct values of each
    of its prefixes. *)
Lemma unique_app (l1 l2 : list A) :
  exists rest, unique eqb (l1 ++ l2) = unique eqb l1 ++ rest
               /\ (forall x l2', l2 = x :: l2' -> ~ In x l1 ->
                   exists rest', rest = x :: rest').
Proof.
  unfold unique. rewrite (unique_from_app eqb eqb_eq).
  eexists. split; [reflexivity|].
  intros x l2' -> Hn. simpl.
  destruct (existsb (eqb x) (rev l1 ++ [])) eqn:Hx; [| eauto].
  apply (existsb_eqb eqb eqb_eq) in Hx. rewrite app_nil_r in Hx.
  apply in_rev in Hx. contradiction.
Qed.

End Unique_index.

(** C5, as the specification words it, fails in part (ii): the id is that
    of the concatenation of the three strings, which has no delimiter, so
    two hits whose triples differ get one id when the concatenations are
    the same. *)
Lemma uneven_alns_share_an_id :
  map (fun r : HitAlnId => (aln_triple r, aln_id r)) (clustered uneven_alns)
  = [(("AB", "C", "D"), Some 0%nat); (("A", "BC", "D"), Some 0%nat)]
  /\ exists ri rj,
       nth_error (clustered uneven_alns) 0 = Some ri
       /\ nth_error (clustered uneven_alns) 1 = Some rj
       /\ aln_triple ri <> aln_triple rj
       /\ aln_id ri = aln_id rj.
Proof.
  split; [reflexivity|].
  eexists. eexists. split; [reflexivity|]. split; [reflexivity|].
  split; [discriminate | reflexivity].
Qed.

(** C5 (amended): the table with cluster ids has the input rows in their
    order, each with the concatenation of its three alignment strings and
    with an id.  Two hits have one id exactly when their concatenations
    are the same.  So (i) two hits with the same three alignment strings
    have the same [aln_id], whatever their query and reference; (ii) two
    hits with different triples have different [aln_id] when the three
    strings of each have one length, as the aligner prints them; (iii) a
    hit whose signature none of the earlier hits has gets a new id, the
    number of distinct signatures before it, which no earlier hit has, and
    a hit with the signature of another hit has that hit's id. *)
Theorem aln_id_first_seen (df : DataFrame HitEv) :
  map (fun r : HitAlnId => hit_ev r) (clustered df) = rows df
  /\ (forall r, In r (clustered df) ->
        aln r = merged_aln r /\ aln_id r <> None)
  /\ (forall i j ri rj,
        nth_error (clustered df) i = Some ri ->
        nth_error (clustered df) j = Some rj ->
        (aln_id ri = aln_id rj <-> aln ri = aln rj)
        /\ (aln_triple ri = aln_triple rj -> aln_id ri = aln_id rj)
        /\ (equal_length_aln ri -> equal_length_aln rj ->
            aln_triple ri <> aln_triple rj -> aln_id ri <> aln_id rj)
        /\ ((forall k rk, (k < i)%nat ->
                          nth_error (clustered df) k = Some rk ->
                          aln rk <> aln ri) ->
            aln_id ri
            = Some (List.length
                      (unique String.eqb
                         (map (fun r : HitAlnId => aln r)
                              (firstn i (clustered df)))))
            /\ forall k rk, (k < i)%nat ->
                            nth_error (clustered df) k = Some rk ->
                            aln_id rk <> aln_id ri)).
Proof.
  rewrite clustered_rows.
  set (m := fun x : HitEv => merged_aln x).
  set (U := unique String.eqb (map m (rows df))).
  set (F := fun r : HitEv =>
              mkHitAlnId (mkHitAln r (merged_aln r))
                         (Some (index_of String.eqb (merged_aln r) U))).
  split; [| split].
  - rewrite map_map. simpl. apply map_id.
  - intros r Hr. apply in_map_iff in Hr as [a [<- Ha]]. simpl.
    split; [reflexivity | discriminate].
  - intros i j ri rj Hi Hj.
    rewrite nth_error_map in Hi, Hj.
    destruct (nth_error (rows df) i) as [a|] eqn:Ha; [| discriminate].
    destruct (nth_error (rows df) j) as [b|] eqn:Hb; [| discriminate].
    simpl in Hi, Hj. injection Hi as <-. injection Hj as <-.
    assert (HinU : forall k r, nth_error (rows df) k = Some r -> In (m r) U).
    { intros k r Hr. apply (unique_In _ string_eqb_eq).
      apply in_map. eapply nth_error_In; eauto. }
    assert (Hsame : aln (F a) = aln (F b) -> aln_id (F a) = aln_id (F b)).
    { simpl. now intros ->. }
    assert (Hdiff : aln_id (F a) = aln_id (F b) -> aln (F a) = aln (F b)).
    { simpl. intros [= Heq].
      apply (index_of_inj _ string_eqb_eq _ _ U); eauto. }
    split; [| split; [| split]].
    + split; [exact Hdiff | exact Hsame].
    + intros Ht. apply Hsame. simpl. now apply merged_aln_triple.
    + intros La Lb Hne Heq. apply Hne.
      apply merged_aln_inj; [exact La | exact Lb | exact (Hdiff Heq)].
    + intros Hnew.
      destruct (nth_error_split _ _ Ha) as [l1 [l2 [Hrows Hlen]]].
      assert (Hfresh : ~ In (m a) (map m l1)).
      { intros Hin. apply in_map_iff in Hin as [r [Hr Hin]].
        apply In_nth_error in Hin as [k Hk].
        assert (Hki : (k < i)%nat).
        { rewrite <- Hlen. apply nth_error_Some. congruence. }
        apply (Hnew k (F r) Hki); [| exact Hr].
        rewrite nth_error_map, Hrows, nth_error_app1, Hk; [reflexivity|].
        apply nth_error_Some. congruence. }
      assert (Hfirst : map (fun r : HitAlnId => aln r)
                           (firstn i (map F (rows df)))
                       = map m l1).
      { rewrite firstn_map, map_map, Hrows, <- Hlen.
        rewrite <- (Nat.add_0_r (List.length l1)), firstn_app_2. simpl.
        now rewrite app_nil_r. }
      rewrite Hfirst.
      destruct (unique_app _ string_eqb_eq (map m l1) (map m (a :: l2)))
        as [rest [HU Hrest]].
      destruct (Hrest (m a) (map m l2) eq_refl Hfresh) as [rest' ->].
      assert (HU' : U = unique String.eqb (map m l1) ++ m a :: rest').
      { unfold U. rewrite Hrows, map_app. exact HU. }
      assert (Hfresh' : ~ In (m a) (unique String.eqb (map m l1))).
      { intros H. apply Hfresh.
        exact (proj1 (unique_In _ string_eqb_eq _ _) H). }
      split.
      * simpl. f_equal. fold (m a). rewrite HU'.
        now apply (index_of_app_fresh _ string_eqb_eq).
      * intros k rk Hk Hrk Heq.
        rewrite nth_error_map in Hrk.
        destruct (nth_error (rows df) k) as [r|] eqn:Hr; [| discriminate].
        simpl in Hrk. injection Hrk as <-. simpl in Heq.
        injection Heq as Heq.
        apply (Hnew k (F r) Hk).
        -- now rewrite nth_error_map, Hr.
        -- simpl. apply (index_of_inj _ string_eqb_eq _ _ U); eauto.
Qed.

Lemma aln_id_first_seen_witness :
  nth_error (clustered three_alns) 0 = Some cl_first
  /\ nth_error (clustered three_alns) 1 = Some cl_second
  /\ nth_error (clustered three_alns) 2 = Some cl_third
  /\ aln_triple cl_first = aln_triple cl_third
  /\ aln_id cl_first = aln_id cl_third
  /\ equal_length_aln cl_first /\ equal_length_aln cl_second
  /\ aln_triple cl_first <> aln_triple cl_second
  /\ aln_id cl_first <> aln_id cl_second
  /\ aln_id cl_second
     = Some (List.length
               (unique String.eqb
                  (map (fun r : HitAlnId => aln r)
                       (firstn 1 (clustered three_alns)))))
  /\ aln_id cl_second = Some 1%nat.
Proof.
  assert (H0 : nth_error (clustered three_alns) 0 = Some cl_first)
    by reflexivity.
  assert (H1 : nth_error (clustered three_alns) 1 = Some cl_second)
    by reflexivity.
  assert (H2 : nth_error (clustered three_alns) 2 = Some cl_third)
    by reflexivity.
  assert (Ht : aln_triple cl_first = aln_triple cl_third) by reflexivity.
  assert (L1 : equal_length_aln cl_first) by (split; reflexivity).
  assert (L2 : equal_length_aln cl_second) by (split; reflexivity).
  assert (Hne : aln_triple cl_first <> aln_triple cl_second) by discriminate.
  assert (Hnew : forall k rk, (k < 1)%nat ->
                   nth_error (clustered three_alns) k = Some rk ->
                   aln rk <> aln cl_second).
  { intros [| k] rk Hk Hrk; [| lia]. injection Hrk as <-. discriminate. }
  destruct (aln_id_first_seen three_alns) as [_ [_ H]].
  destruct (H 0%nat 2%nat cl_first cl_third H0 H2) as [_ [Hi _]].
  destruct (H 0%nat 1%nat cl_first cl_second H0 H1) as [_ [_ [Hii _]]].
  destruct (H 1%nat 0%nat cl_second cl_first H1 H0) as [_ [_ [_ Hiii]]].
  split; [exact H0|]. split; [exact H1|]. split; [exact H2|].
  split; [exact Ht|]. split; [exact (Hi Ht)|].
  split; [exact L1|]. split; [exact L2|]. split; [exact Hne|].
  split; [exact (Hii L1 L2 Hne)|].
  split; [exact (proj1 (Hiii Hnew)) | reflexivity].
Defined.

(** ** Aggregator *)

Lemma key_eqb_eq (a b : string * string) : key_eqb a b = true <-> a = b.
Proof.
  destruct a as [a1 a2], b as [b1 b2]. unfold key_eqb. simpl.
  rewrite andb_true_iff, !String.eqb_eq. split.
  - now intros [-> ->].
  - now intros [= -> ->].
Qed.


Lemma insert_sorted_perm {A} (before : A -> A -> bool) (x : A) (l : list A) :
  Permutation (x :: l) (insert_sorted before x l).
Proof.
  induction l as [| y l IH]; simpl; [reflexivity|].
  destruct (before x y); [reflexivity|].
  rewrite perm_swap. now constructor.
Qed.

Lemma stable_sort_perm {A} (before : A -> A -> bool) (l : list A) :
  Permutation l (stable_sort before l).
Proof.
  unfold stable_sort.
  assert (H : forall acc,
             Permutation (acc ++ l)
               (fold_left (fun acc x => insert_sorted before x acc) l acc)).
  { induction l as [| x l IH]; intros acc; simpl.
    - now rewrite app_nil_r.
    - rewrite <- IH. rewrite <- insert_sorted_perm.
      symmetry. apply Permutation_middle. }
  apply (H []).
Qed.


Lemma fold_Zmax (l : list Z) (a : Z) :
  let m := fold_left Z.max l a in
  (m = a \/ In m l) /\ a <= m /\ (forall x, In x l -> x <= m).
Proof.
  revert a. induction l as [| y l IH]; intros a; simpl.
  - repeat split; auto; [lia | contradiction].
  - destruct (IH (Z.max a y)) as [Hin [Hle Hall]]. repeat split.
    + destruct Hin as [-> | Hin]; [| auto]. lia.
    + lia.
    + intros x [<- | Hx]; [lia | auto].
Qed.


Lemma group_keys_In (rs : list HitAlnId) (k : string * string) :
  In k (group_keys rs) <-> exists r, In r rs /\ group_key r = Some k.
Proof.
  unfold group_keys. rewrite In_stable_sort, (unique_In _ key_eqb_eq), in_flat_map.
  split; intros [r [Hr Hk]]; exists r; split; auto.
  - destruct (group_key r); [| contradiction]. destruct Hk as [-> | []]; auto.
  - rewrite Hk. now left.
Qed.


Lemma in_group_iff (k : string * string) (r : HitAlnId) :
  in_group k r = true <-> group_key r = Some k.
Proof.
  unfold in_group. destruct (group_key r) as [k'|]; [| split; discriminate].
  rewrite key_eqb_eq. split; [now intros -> | now intros [= ->]].
Qed.

Lemma agg_key (k : string * string) (group : list HitAlnId) (g : GroupedRow) :
  In g (agg k group) -> grouped_key g = k.
Proof.
  unfold agg. destruct group as [| r rs]; [contradiction|].
  intros [<- | []]. unfold grouped_key. simpl. now destruct k.
Qed.




(** ** ResultParser *)

Lemma has_char_append (c : ascii) (a b : string) :
  has_char c (a ++ b) = has_char c a || has_char c b.
Proof.
  induction a as [| x a IH]; simpl; [reflexivity|].
  now rewrite IH, orb_assoc.
Qed.

Lemma split_plain (sep : ascii) (x : string) :
  has_char sep x = false -> split sep x = [x].
Proof.
  induction x as [| c x IH]; simpl; [reflexivity|]. intros H.
  apply orb_false_iff in H as [Hc Hx]. rewrite Hc, (IH Hx). reflexivity.
Qed.




Lemma strip_prefix_has_char (c : ascii) (m line p : string) :
  strip_prefix m line = Some p -> has_char c line = false ->
  has_char c p = false.
Proof.
  revert line. induction m as [| a m IH]; intros line; simpl.
  - now intros [= ->].
  - destruct line as [| b line]; [discriminate|].
    destruct (Ascii.eqb a b); [| discriminate].
    simpl. intros H Hc. apply orb_false_iff in Hc as [_ Hc]. eauto.
Qed.

(** Up to the end of a line, the marker is found in the text exactly when
    it is found in the line. *)
Lemma strip_prefix_line (m line rest : string) :
  has_char LF m = false ->
  strip_prefix m (line ++ String LF rest)
  = option_map (fun p => (p ++ String LF rest)%string) (strip_prefix m line).
Proof.
  intros Hm. revert line. induction m as [| a m IH]; intros line.
  - reflexivity.
  - simpl in Hm. apply orb_false_iff in Hm as [Ha Hm].
    destruct line as [| b line]; simpl.
    + now rewrite Ha.
    + destruct (Ascii.eqb a b); [now apply IH | reflexivity].
Qed.

Lemma until_LF_line (p rest : string) :
  has_char LF p = false -> until_LF (p ++ String LF rest) = p.
Proof.
  induction p as [| c p IH]; simpl; intros H.
  - reflexivity.
  - apply orb_false_iff in H as [Hc Hp]. rewrite Hc, (IH Hp). reflexivity.
Qed.

Lemma until_LF_plain (p : string) : has_char LF p = false -> until_LF p = p.
Proof.
  induction p as [| c p IH]; simpl; intros H; [reflexivity|].
  apply orb_false_iff in H as [Hc Hp]. rewrite Hc, (IH Hp). reflexivity.
Qed.

Lemma finditer_inside_line (line rest : string) :
  has_char LF line = false ->
  finditer false (line ++ String LF rest) = finditer true rest.
Proof.
  induction line as [| c line IH]; simpl; intros H.
  - reflexivity.
  - apply orb_false_iff in H as [Hc Hl]. rewrite Hc. now apply IH.
Qed.

Lemma finditer_inside_last (line : string) :
  has_char LF line = false -> finditer false line = [].
Proof.
  induction line as [| c line IH]; simpl; intros H; [reflexivity|].
  apply orb_false_iff in H as [Hc Hl]. rewrite Hc. now apply IH.
Qed.

Lemma finditer_line (line rest : string) :
  has_char LF line = false ->
  finditer true (line ++ String LF rest) = payload line ++ finditer true rest.
Proof.
  intros H. unfold payload. destruct line as [| c line].
  - reflexivity.
  - change (finditer true ((String c line) ++ String LF rest))
      with (let tail := finditer (Ascii.eqb c LF) (line ++ String LF rest) in
            match strip_prefix hit_info_marker (String c line ++ String LF rest)
            with
            | Some r => until_LF r :: tail
            | None => tail
            end).
    pose proof H as H'. simpl in H'. apply orb_false_iff in H' as [Hc Hl].
    rewrite Hc, (finditer_inside_line _ _ Hl).
    rewrite strip_prefix_line by reflexivity.
    destruct (strip_prefix hit_info_marker (String c line)) as [p|] eqn:Hp;
      simpl; [| reflexivity].
    rewrite until_LF_line; [reflexivity|].
    eapply strip_prefix_has_char; eauto.
Qed.

Lemma finditer_last (line : string) :
  has_char LF line = false -> finditer true line = payload line.
Proof.
  intros H. unfold payload. destruct line as [| c line]; [reflexivity|].
  change (finditer true (String c line))
    with (let tail := finditer (Ascii.eqb c LF) line in
          match strip_prefix hit_info_marker (String c line) with
          | Some r => until_LF r :: tail
          | None => tail
          end).
  pose proof H as H'. simpl in H'. apply orb_false_iff in H' as [Hc Hl].
  rewrite Hc, (finditer_inside_last _ Hl).
  destruct (strip_prefix hit_info_marker (String c line)) as [p|] eqn:Hp;
    simpl; [| reflexivity].
  rewrite until_LF_plain; [reflexivity|].
  eapply strip_prefix_has_char; eauto.
Qed.

(** The matches in a text made of lines are the payloads of its lines. *)
Lemma finditer_lines (lines : list string) :
  Forall (fun l => has_char LF l = false) lines ->
  finditer true (join LF lines) = flat_map payload lines.
Proof.
  induction lines as [| l lines IH]; intros H; [reflexivity|].
  inversion H as [| ? ? Hl Hls]; subst.
  destruct lines as [| l' lines'].
  - simpl. rewrite app_nil_r. now apply finditer_last.
  - change (join LF (l :: l' :: lines'))
      with (l ++ String LF (join LF (l' :: lines')))%string.
    rewrite finditer_line by assumption.
    rewrite (IH Hls). reflexivity.
Qed.




















(** ** Input splitting *)

Lemma length_write_at (i : nat) (line : string) (bufs : list (list string)) :
  List.length (write_at i line bufs) = List.length bufs.
Proof.
  revert i. induction bufs as [| b bufs IH]; intros [| i]; simpl; auto.
Qed.

Lemma nth_write_at (i j : nat) (line : string) (bufs : list (list string)) :
  (i < List.length bufs)%nat ->
  nth j (write_at i line bufs) []
  = if (j =? i)%nat then nth j bufs [] ++ [line] else nth j bufs [].
Proof.
  revert i j. induction bufs as [| b bufs IH]; intros i j Hi; simpl in Hi.
  - lia.
  - destruct i as [| i], j as [| j]; simpl; auto.
    apply IH. lia.
Qed.

(** The lines under a header go to the file of the header. *)
Lemma split_loop_body (num : nat) (st : SplitState) (i : nat)
    (body : list string) :
  tmp_f st = Some i ->
  (i < List.length (written st))%nat ->
  Forall (fun l => startswith ">" l = false) body ->
  exists st',
    split_loop num st body = Ok st'
    /\ nexts st' = nexts st
    /\ List.length (written st') = List.length (written st)
    /\ forall j, nth j (written st') []
                 = if (j =? i)%nat then nth j (written st) [] ++ body
                   else nth j (written st) [].
Proof.
  intros Hf Hi Hbody. revert st Hf Hi.
  induction Hbody as [| l body Hl Hbody IH]; intros st Hf Hi.
  - exists st. repeat split; auto. intros j.
    destruct (j =? i)%nat; [now rewrite app_nil_r | reflexivity].
  - cbn [split_loop]. unfold split_step. rewrite Hl. cbn [bind]. rewrite Hf.
    cbn [bind].
    set (st1 := mkSplitState (nexts st) (Some i) (write_at i l (written st))).
    destruct (IH st1) as [st' [Hrun [Hn [Hlen Hnth]]]]; [reflexivity | |].
    { simpl. now rewrite length_write_at. }
    exists st'. split; [exact Hrun|]. split; [exact Hn|].
    split; [simpl in Hlen; now rewrite length_write_at in Hlen|].
    intros j. rewrite Hnth. simpl. rewrite nth_write_at by assumption.
    destruct (j =? i)%nat; [now rewrite <- app_assoc | reflexivity].
Qed.

(** A record goes to the file that the cycle gives next. *)
Lemma split_loop_record (num : nat) (st : SplitState) (r : SeqRecord) :
  (0 < num)%nat ->
  List.length (written st) = num ->
  well_formed_record r ->
  exists st',
    split_loop num st (record_lines r) = Ok st'
    /\ nexts st' = S (nexts st)
    /\ List.length (written st') = num
    /\ forall j, nth j (written st') []
                 = if (j =? nexts st mod num)%nat
                   then nth j (written st) [] ++ record_lines r
                   else nth j (written st) [].
Proof.
  intros Hnum Hlen [Hh Hb]. destruct r as [h body]. simpl in Hh, Hb.
  unfold record_lines. cbn [fst snd split_loop]. unfold split_step. rewrite Hh.
  destruct num as [| n]; [lia|]. cbn [bind tmp_f nexts written].
  set (i := (nexts st mod S n)%nat).
  assert (Hi : (i < List.length (written st))%nat).
  { rewrite Hlen. apply Nat.mod_upper_bound. lia. }
  set (st1 := mkSplitState (S (nexts st)) (Some i) (write_at i h (written st))).
  destruct (split_loop_body (S n) st1 i body) as [st' [Hrun [Hn [Hl Hnth]]]];
    [reflexivity | simpl; now rewrite length_write_at | exact Hb |].
  exists st'. split; [exact Hrun|]. split; [exact Hn|].
  split; [simpl in Hl; rewrite length_write_at in Hl; congruence|].
  intros j. rewrite Hnth. simpl. rewrite nth_write_at by assumption.
  destruct (j =? i)%nat; [now rewrite <- app_assoc | reflexivity].
Qed.

Lemma split_loop_app (num : nat) (st : SplitState) (l1 l2 : list string) :
  split_loop num st (l1 ++ l2)
  = (st' <- split_loop num st l1 ;; split_loop num st' l2).
Proof.
  revert st. induction l1 as [| l l1 IH]; intros st; simpl; [reflexivity|].
  destruct (split_step num st l); simpl; [apply IH | reflexivity].
Qed.

Lemma records_of_partition_cons (num j k : nat) (r : SeqRecord)
    (recs : list SeqRecord) :
  records_of_partition num j k (r :: recs)
  = (if (k mod num =? j)%nat then [r] else [])
    ++ records_of_partition num j (S k) recs.
Proof.
  unfold records_of_partition. simpl.
  destruct (k mod num =? j)%nat; reflexivity.
Qed.

Lemma split_loop_records (num : nat) (recs : list SeqRecord) (st : SplitState) :
  (0 < num)%nat ->
  List.length (written st) = num ->
  Forall well_formed_record recs ->
  exists st',
    split_loop num st (flat_map record_lines recs) = Ok st'
    /\ List.length (written st') = num
    /\ forall j,
         (j < num)%nat ->
         nth j (written st') []
         = nth j (written st) []
           ++ flat_map record_lines
                       (records_of_partition num j (nexts st) recs).
Proof.
  intros Hnum Hlen Hwf. revert st Hlen.
  induction Hwf as [| r recs Hr Hrecs IH]; intros st Hlen.
  - exists st. repeat split; auto. intros j _. simpl. now rewrite app_nil_r.
  - cbn [flat_map]. rewrite split_loop_app.
    destruct (split_loop_record num st r Hnum Hlen Hr)
      as [st1 [Hrun1 [Hn1 [Hlen1 Hnth1]]]].
    rewrite Hrun1. cbn [bind].
    destruct (IH st1 Hlen1) as [st' [Hrun [Hlen' Hnth]]].
    exists st'. split; [exact Hrun|]. split; [exact Hlen'|].
    intros j Hj. rewrite (Hnth j Hj), Hnth1, Hn1, records_of_partition_cons.
    rewrite (Nat.eqb_sym j). destruct (nexts st mod num =? j)%nat.
    + change ([r] ++ records_of_partition num j (S (nexts st)) recs)
        with (r :: records_of_partition num j (S (nexts st)) recs).
      cbn [flat_map]. now rewrite app_assoc.
    + reflexivity.
Qed.

Lemma nth_error_combine_seq {A} (l : list A) (i k : nat) (x : A) :
  nth_error l i = Some x -> In ((k + i)%nat, x) (combine (seq k (List.length l)) l).
Proof.
  revert i k. induction l as [| y l IH]; intros [| i] k H; try discriminate.
  - injection H as ->. rewrite Nat.add_0_r. now left.
  - simpl. right. rewrite Nat.add_succ_r. apply (IH i (S k)). exact H.
Qed.

(** A line before the first header finds [tmp_f] unbound. *)
Lemma split_lines_before_header (num : nat) (l : string) (ls : list string) :
  startswith ">" l = false ->
  split_lines num (l :: ls) = Raise (UnboundLocalError "tmp_f").
Proof.
  intros H. unfold split_lines. cbn [split_loop]. unfold split_step.
  rewrite H. reflexivity.
Qed.

(** C9: the lines of a sequence file, taken as its records one after
    another, are split over [num] files so that file [j] holds the lines of
    the records whose index is [j] modulo [num], in their order: record [i]
    is in file [i mod num].  The contents are a function of the lines and
    of [num] alone. *)
Theorem split_lines_round_robin (num : nat) (recs : list SeqRecord) :
  (0 < num)%nat ->
  Forall well_formed_record recs ->
  split_lines num (flat_map record_lines recs)
  = Ok (map (fun j => flat_map record_lines (records_of_partition num j 0 recs))
            (seq 0 num))
  /\ (forall i r, nth_error recs i = Some r ->
                  In r (records_of_partition num (i mod num) 0 recs))
  /\ (forall bufs bufs',
        split_lines num (flat_map record_lines recs) = Ok bufs ->
        split_lines num (flat_map record_lines recs) = Ok bufs' ->
        bufs = bufs').
Proof.
  intros Hnum Hwf. split; [| split].
  - unfold split_lines.
    destruct (split_loop_records num recs (mkSplitState 0 None (repeat [] num)))
      as [st' [Hrun [Hlen Hnth]]]; auto.
    { simpl. apply repeat_length. }
    rewrite Hrun. cbn [bind]. f_equal.
    apply (nth_ext _ _ [] []).
    + now rewrite length_map, length_seq.
    + intros j Hj. rewrite Hlen in Hj. rewrite (Hnth j Hj). simpl.
      rewrite nth_repeat. simpl.
      rewrite (nth_indep _ []
                 (flat_map record_lines (records_of_partition num 0 0 recs)))
        by now rewrite length_map, length_seq.
      rewrite (map_nth (fun j => flat_map record_lines
                                   (records_of_partition num j 0 recs))
                       (seq 0 num) 0%nat j).
      now rewrite seq_nth.
  - intros i r Hr. unfold records_of_partition.
    apply (in_map snd _ (i, r)). apply filter_In. split.
    + apply (nth_error_combine_seq recs i 0 r Hr).
    + simpl. apply Nat.eqb_refl.
  - intros bufs bufs' H1 H2. congruence.
Qed.

Lemma split_lines_round_robin_witness :
  (0 < 2)%nat
  /\ Forall well_formed_record three_records
  /\ split_lines 2 (flat_map record_lines three_records)
     = Ok [[">a"; "ACGU"; "GG"; ">c"; "UU"]; [">b"]].
Proof.
  assert (H1 : (0 < 2)%nat) by lia.
  assert (H2 : Forall well_formed_record three_records).
  { repeat constructor. }
  split; [exact H1|]. split; [exact H2|].
  exact (proj1 (split_lines_round_robin 2 three_records H1 H2)).
Defined.

(** ** Miranda.run *)

Lemma run_positive_not_None (aligner : list string -> M string)
    (self : Miranda) (seq_file : string) (num_proc : Z) (draw : nat)
    (w : World) :
  1 <= num_proc ->
  fst (run aligner self seq_file num_proc draw w) <> Ok None.
Proof.
  intros Hn. unfold run.
  destruct (Z.eqb_spec num_proc 1) as [-> | Hne].
  - unfold bindM. destruct (sp_run aligner _ w) as [[out | e] w']; discriminate.
  - rewrite Z.gtb_ltb. destruct (Z.ltb_spec 1 num_proc) as [Hgt | Hle]; [| lia].
    unfold bindM at 1.
    destruct (_split_file self seq_file num_proc draw _ w) as [[out | e] w'];
      discriminate.
Qed.

(** C10: with [num_proc <= 0] the function runs neither branch: it returns
    [None] and leaves the world as it was, no command started and no
    directory made; and whenever it returns a text, [num_proc >= 1].  With
    [num_proc = 1] the text is what the aligner printed. *)
Theorem run_nonpositive_returns_None (aligner : list string -> M string)
    (self : Miranda) (seq_file : string) (num_proc : Z) (draw : nat)
    (w : World) :
  num_proc <= 0 ->
  run aligner self seq_file num_proc draw w = (Ok None, w)
  /\ launched (snd (run aligner self seq_file num_proc draw w)) = launched w
  /\ dirs (snd (run aligner self seq_file num_proc draw w)) = dirs w
  /\ (forall n text w',
        run aligner self seq_file n draw w = (Ok (Some text), w') -> 1 <= n)
  /\ (forall n, 1 <= n -> fst (run aligner self seq_file n draw w) <> Ok None)
  /\ (forall text w',
        start aligner (_generate_cmd self seq_file None) w = (Ok text, w') ->
        run aligner self seq_file 1 draw w = (Ok (Some text), w')).
Proof.
  intros Hn.
  assert (Hnone : forall n, n <= 0 ->
                            run aligner self seq_file n draw w = (Ok None, w)).
  { intros n Hle. unfold run.
    destruct (Z.eqb_spec n 1) as [-> | Hne]; [lia|].
    rewrite Z.gtb_ltb. destruct (Z.ltb_spec 1 n) as [Hgt | _]; [lia|].
    reflexivity. }
  rewrite (Hnone num_proc Hn). repeat split.
  - intros n text w' Hrun.
    destruct (Z.le_gt_cases n 0) as [Hle | Hgt]; [| lia].
    rewrite (Hnone n Hle) in Hrun. discriminate.
  - intros n. apply run_positive_not_None.
  - intros text w' Hs. unfold run. change (1 =? 1) with true. cbv iota.
    unfold bindM, sp_run. now rewrite Hs.
Qed.

Lemma run_nonpositive_returns_None_witness :
  0 <= 0
  /\ run quiet_aligner (Miranda_init "mirna.fa" "." "miranda" None)
         "circ.fa" 0 42 empty_world
     = (Ok None, empty_world).
Proof.
  assert (H : 0 <= 0) by lia.
  split; [exact H|].
  exact (proj1 (run_nonpositive_returns_None quiet_aligner
                  (Miranda_init "mirna.fa" "." "miranda" None)
                  "circ.fa" 0 42 empty_world H)).
Defined.

(** * Further properties *)

(** ** RedundancyFilter: errors, what is returned, a second pass *)

Lemma remove_redundant_result_cases (df : DataFrame HitLen) :
  (remove_redundant_result df = Raise (KeyError "ext_ref_end")
   /\ forall r, In r (within_len (rows df)) -> ref_start r <> 1)
  \/ ((exists out, remove_redundant_result df = Ok out)
      /\ exists r, In r (within_len (rows df)) /\ ref_start r = 1).
Proof.
  rewrite <- rows_filtered_df.
  destruct (filter (fun r : nat * HitLen => ref_start (snd r) =? 1)
                   (filtered_df df)) as [| s ss] eqn:Hs.
  - left.
    assert (Hno : forall r, In r (rows (filtered_df df)) -> ref_start r <> 1).
    { intros r Hr Hst. unfold rows in Hr. apply in_map_iff in Hr as [x [<- Hx]].
      assert (Hin : In x (filter (fun r : nat * HitLen => ref_start (snd r) =? 1)
                                 (filtered_df df)))
        by (apply filter_In; split; [exact Hx | lia]).
      now rewrite Hs in Hin. }
    split; [| exact Hno].
    unfold remove_redundant_result. now rewrite (dropped_index_raises _ Hno).
  - right.
    assert (Hst : exists r, In r (rows (filtered_df df)) /\ ref_start r = 1).
    { assert (Hin : In s (filter (fun r : nat * HitLen => ref_start (snd r) =? 1)
                                 (filtered_df df)))
        by (rewrite Hs; now left).
      apply filter_In in Hin as [Hin Hs1]. exists (snd s). split; [| lia].
      unfold rows. now apply in_map. }
    split; [| exact Hst].
    destruct (dropped_index_ok _ Hst) as [dropped Hd].
    unfold remove_redundant_result. rewrite Hd. simpl. eauto.
Qed.

(** X1: [remove_redundant_result] raises [KeyError('ext_ref_end')] exactly
    when no hit with [ref_start = 1] survives step 1, the empty table
    included, and returns a table exactly when one does. *)
Theorem remove_redundant_result_raises_iff (df : DataFrame HitLen) :
  (remove_redundant_result df = Raise (KeyError "ext_ref_end")
   <-> forall r, In r (within_len (rows df)) -> ref_start r <> 1)
  /\ ((exists out, remove_redundant_result df = Ok out)
      <-> exists r, In r (within_len (rows df)) /\ ref_start r = 1)
  /\ remove_redundant_result [] = Raise (KeyError "ext_ref_end").
Proof.
  split; [| split; [| reflexivity]].
  - split.
    + intros Hr. destruct (remove_redundant_result_cases df)
        as [[_ Hno] | [[out Hout] _]]; [exact Hno | congruence].
    + intros Hno. destruct (remove_redundant_result_cases df)
        as [[Hr _] | [_ [r [Hin Hst]]]]; [exact Hr|].
      exfalso. exact (Hno r Hin Hst).
  - split.
    + intros [out Hout]. destruct (remove_redundant_result_cases df)
        as [[Hr _] | [_ Hst]]; [congruence | exact Hst].
    + intros [r [Hin Hst]]. destruct (remove_redundant_result_cases df)
        as [[_ Hno] | [Hok _]]; [| exact Hok].
      exfalso. exact (Hno r Hin Hst).
Qed.


Lemma length_rows {A} (df : DataFrame A) : List.length (rows df) = List.length df.
Proof. unfold rows. apply length_map. Qed.




(** The hit that ends last among those that survive step 1. *)
Lemma greatest_ref_end (rs : list HitLen) :
  rs <> [] ->
  exists m, In m rs /\ forall r, In r rs -> ref_end r <= ref_end m.
Proof.
  induction rs as [| x rs IH]; [congruence|]. intros _.
  destruct rs as [| y rs'].
  - exists x. split; [now left|]. intros r [<- | []]. lia.
  - destruct IH as [m [Hm Hmax]]; [discriminate|].
    destruct (Z_le_gt_dec (ref_end x) (ref_end m)) as [Hle | Hgt].
    + exists m. split; [now right|]. intros r [<- | Hr]; auto.
    + exists x. split; [now left|]. intros r [<- | Hr]; [lia|].
      specialize (Hmax r Hr). lia.
Qed.

(** X3: on a table with distinct labels and small coordinates the filter
    never returns an empty table: when it returns, the hit with the
    greatest [ref_end] among those that survive step 1 is in the output. *)
Theorem remove_redundant_result_keeps_last (df out : DataFrame HitLen) :
  NoDup (labels df) ->
  Forall small_coordinates (rows df) ->
  remove_redundant_result df = Ok out ->
  out <> []
  /\ exists m, In m (rows out)
               /\ forall r, In r (within_len (rows df)) ->
                            ref_end r <= ref_end m.
Proof.
  intros Hnd _ Hout.
  pose proof (remove_redundant_result_rows df out Hnd Hout) as ->.
  assert (Hne : within_len (rows df) <> []).
  { destruct (remove_redundant_result_cases df)
      as [[Hr _] | [_ [r [Hin _]]]]; [congruence|].
    intros Hnil. now rewrite Hnil in Hin. }
  destruct (greatest_ref_end _ Hne) as [m [Hm Hmax]].
  assert (Hkept : In m (start_redundancy_filter (rows df))).
  { unfold start_redundancy_filter. apply filter_In. split; [exact Hm|].
    apply negb_true_iff, andb_false_iff.
    destruct (ref_start m =? 1) eqn:Hst; [right | now left].
    destruct (existsb (extended_counterpart m) (within_len (rows df)))
      eqn:Hex; [| reflexivity].
    exfalso. apply existsb_exists in Hex as [b [Hb Hc]].
    unfold extended_counterpart in Hc.
    pose proof Hm as Hm'. unfold within_len in Hm'.
    apply filter_In in Hm' as [_ Hle]. unfold le_nan in Hle.
    destruct (total_len m) as [t|]; [| discriminate].
    apply andb_true_iff in Hc as [_ Hc].
    specialize (Hmax b Hb). lia. }
  split.
  - intros Hnil. rewrite <- (rows_RangeIndex (start_redundancy_filter (rows df)))
      in Hkept. rewrite Hnil in Hkept. exact Hkept.
  - exists m. split; [now rewrite rows_RangeIndex | exact Hmax].
Qed.

Lemma remove_redundant_result_keeps_last_witness :
  NoDup (labels wrap_table)
  /\ Forall small_coordinates (rows wrap_table)
  /\ remove_redundant_result wrap_table = Ok (RangeIndex [wrap_B])
  /\ RangeIndex [wrap_B] <> []
  /\ exists m, In m (rows (RangeIndex [wrap_B]))
               /\ forall r, In r (within_len (rows wrap_table)) ->
                            ref_end r <= ref_end m.
Proof.
  assert (H1 : NoDup (labels wrap_table)) by apply NoDup_labels_RangeIndex.
  assert (H2 : remove_redundant_result wrap_table = Ok (RangeIndex [wrap_B]))
    by reflexivity.
  split; [exact H1|]. split; [exact small_coordinates_wrap_table|].
  split; [exact H2|].
  exact (remove_redundant_result_keeps_last wrap_table (RangeIndex [wrap_B])
           H1 small_coordinates_wrap_table H2).
Defined.

(** X4: on a table with distinct labels, a second pass over a returned
    table returns it unchanged when a hit with [ref_start = 1] is left in
    it, and raises [KeyError('ext_ref_end')] when none is left; it never
    removes a further row. *)
Theorem remove_redundant_result_second_pass (df out : DataFrame HitLen) :
  NoDup (labels df) ->
  remove_redundant_result df = Ok out ->
  ((exists r, In r (rows out) /\ ref_start r = 1) ->
   remove_redundant_result out = Ok out)
  /\ ((forall r, In r (rows out) -> ref_start r <> 1) ->
      remove_redundant_result out = Raise (KeyError "ext_ref_end"))
  /\ forall out', remove_redundant_result out = Ok out' -> out' = out.
Proof.
  intros Hnd Hout. split; [| split].
  - now apply (remove_redundant_result_again df).
  - apply remove_redundant_result_again_raises.
  - intros out' Hout'.
    destruct (remove_redundant_result_cases out)
      as [[Hr _] | [_ [r [Hin Hst]]]]; [congruence|].
    assert (Hin' : In r (rows out)).
    { unfold within_len in Hin. now apply filter_In in Hin as [Hin _]. }
    rewrite (remove_redundant_result_again df out Hnd Hout) in Hout'
      by eauto.
    congruence.
Qed.

Lemma remove_redundant_result_second_pass_witness :
  NoDup (labels wrap_table)
  /\ remove_redundant_result wrap_table = Ok (RangeIndex [wrap_B])
  /\ remove_redundant_result (RangeIndex [wrap_B]) = Ok (RangeIndex [wrap_B]).
Proof.
  assert (H1 : NoDup (labels wrap_table)) by apply NoDup_labels_RangeIndex.
  assert (H2 : remove_redundant_result wrap_table = Ok (RangeIndex [wrap_B]))
    by reflexivity.
  split; [exact H1|]. split; [exact H2|].
  apply (proj1 (remove_redundant_result_second_pass wrap_table
                  (RangeIndex [wrap_B]) H1 H2)).
  exists wrap_B. split; [left; reflexivity | reflexivity].
Defined.

(** ** append_exons_len: the left join *)

Lemma filter_unique_key {V} (k : string) (right : list (string * V)) :
  NoDup (map fst right) ->
  filter (fun e : string * V => String.eqb k (fst e)) right
  = match find (fun e : string * V => String.eqb k (fst e)) right with
    | Some e => [e]
    | None => []
    end.
Proof.
  induction right as [| e right IH]; simpl; intros Hnd; [reflexivity|].
  inversion Hnd as [| ? ? Hnin Hnd']; subst.
  destruct (String.eqb_spec k (fst e)) as [Heq | Hne].
  - f_equal.
    assert (Hnone : forall l, ~ In k (map fst l) ->
              filter (fun e : string * V => String.eqb k (fst e)) l = []).
    { clear. induction l as [| x l IHl]; simpl; intros Hn; [reflexivity|].
      destruct (String.eqb_spec k (fst x)) as [Hx | Hx].
      - exfalso. apply Hn. left. now symmetry.
      - apply IHl. intros H. apply Hn. now right. }
    apply Hnone. now rewrite Heq.
  - now apply IH.
Qed.



Lemma flat_map_single {A B} (g : A -> B) (l : list A) :
  flat_map (fun x => [g x]) l = map g l.
Proof. induction l as [| x l IH]; simpl; [reflexivity | now rewrite IH]. Qed.



(** X7: [remove_redundant_result] applied to what [append_exons_len]
    returns needs nothing of the index: when the coordinates are small and
    a hit starting at 1 survives step 1, it returns the rows of the joined
    table that are left after step 1 and after removing the hits starting
    at 1 that have an extended counterpart, in their order. *)
Theorem remove_redundant_result_after_join (miranda_df : DataFrame Hit)
    (exons_len_df : ExonsLen) :
  Forall small_coordinates (rows (append_exons_len miranda_df exons_len_df)) ->
  (exists r, In r (within_len (rows (append_exons_len miranda_df exons_len_df)))
             /\ ref_start r = 1) ->
  remove_redundant_result (append_exons_len miranda_df exons_len_df)
  = Ok (RangeIndex
          (start_redundancy_filter
             (rows (append_exons_len miranda_df exons_len_df)))).
Proof.
  intros _ Hst. apply remove_redundant_result_ok; [| exact Hst].
  unfold append_exons_len. apply NoDup_labels_RangeIndex.
Qed.

Lemma remove_redundant_result_after_join_witness :
  Forall small_coordinates (rows (append_exons_len hits_RX lens_R))
  /\ (exists r, In r (within_len (rows (append_exons_len hits_RX lens_R)))
                /\ ref_start r = 1)
  /\ remove_redundant_result (append_exons_len hits_RX lens_R)
     = Ok (RangeIndex [hit_len_at "Q" "R" 1 20 (Some 100)]).
Proof.
  assert (H : exists r,
             In r (within_len (rows (append_exons_len hits_RX lens_R)))
             /\ ref_start r = 1).
  { exists (hit_len_at "Q" "R" 1 20 (Some 100)).
    split; [left; reflexivity | reflexivity]. }
  split; [exact small_coordinates_hits_RX|]. split; [exact H|].
  exact (remove_redundant_result_after_join hits_RX lens_R
           small_coordinates_hits_RX H).
Defined.

(** ** BoundaryClassifier: the flags *)

(** X8: [append_cross_boundary] keeps the index and the rows of its input;
    every flag is 0 or 1; a hit with a missing [total_len] gets 0, and a
    hit flagged 1 starts before it ends. *)
Theorem append_cross_boundary_flags (df : DataFrame HitLen) :
  labels (append_cross_boundary df) = labels df
  /\ map (fun r : HitCb => hit_len r) (rows (append_cross_boundary df))
     = rows df
  /\ forall r, In r (rows (append_cross_boundary df)) ->
               cross_boundary r = _is_cross_boundary r
               /\ (cross_boundary r = 0 \/ cross_boundary r = 1)
               /\ (total_len r = None -> cross_boundary r = 0)
               /\ (cross_boundary r = 1 -> ref_start r < ref_end r).
Proof.
  unfold labels, rows, append_cross_boundary. rewrite !map_map. simpl.
  split; [reflexivity|]. split; [apply map_ext; reflexivity|].
  intros r Hr. apply in_map_iff in Hr as [x [<- _]]. simpl.
  unfold _is_cross_boundary, le_nan.
  destruct (total_len (snd x)) as [t|]; simpl.
  - destruct (ref_start (snd x) <=? t) eqn:H1, (t <? ref_end (snd x)) eqn:H2;
      simpl; repeat split; auto; intros; try discriminate; lia.
  - repeat split; auto; intros; discriminate.
Qed.



(** ** Sorting *)

Section Insertion_sort.

Context {A : Type} (before : A -> A -> bool).

Hypothesis le_trans :
  forall a b c, before b a = false -> before c b = false -> before c a = false.
Hypothesis before_le : forall a b, before a b = true -> before b a = false.

Lemma insert_sorted_sorted (x : A) (l : list A) :
  StronglySorted (fun a b => before b a = false) l ->
  StronglySorted (fun a b => before b a = false) (insert_sorted before x l).
Proof.
  induction 1 as [| y l Hl IH Hy]; simpl.
  - repeat constructor.
  - destruct (before x y) eqn:Hxy.
    + constructor; [now constructor|]. constructor; [now apply before_le|].
      rewrite Forall_forall in *. intros z Hz.
      apply (le_trans x y z); [now apply before_le | now apply Hy].
    + constructor; [exact IH|].
      rewrite Forall_forall in *. intros z Hz.
      apply In_insert_sorted in Hz as [-> | Hz]; [exact Hxy | now apply Hy].
Qed.

Lemma stable_sort_sorted (l : list A) :
  StronglySorted (fun a b => before b a = false) (stable_sort before l).
Proof.
  unfold stable_sort.
  assert (H : forall acc,
             StronglySorted (fun a b => before b a = false) acc ->
             StronglySorted (fun a b => before b a = false)
               (fold_left (fun acc x => insert_sorted before x acc) l acc)).
  { induction l as [| x l IH]; intros acc Hacc; simpl; [exact Hacc|].
    apply IH. now apply insert_sorted_sorted. }
  apply H. constructor.
Qed.

End Insertion_sort.

Lemma StronglySorted_nth {A} (R : A -> A -> Prop) (l : list A) (i j : nat)
    (a b : A) :
  StronglySorted R l -> (i < j)%nat ->
  nth_error l i = Some a -> nth_error l j = Some b -> R a b.
Proof.
  intros Hs. revert i j. induction Hs as [| x l Hl IH Hx]; intros i j Hij Hi Hj.
  - destruct i; discriminate.
  - destruct j as [| j]; [lia|]. simpl in Hj. destruct i as [| i].
    + injection Hi as <-. rewrite Forall_forall in Hx. apply Hx.
      eapply nth_error_In; eauto.
    + simpl in Hi. apply (IH i j); auto. lia.
Qed.

Lemma StronglySorted_weaken {A} (R R' : A -> A -> Prop) (l : list A) :
  (forall a b, R a b -> R' a b) -> StronglySorted R l -> StronglySorted R' l.
Proof.
  intros H. induction 1 as [| x l Hl IH Hx]; constructor; auto.
  eapply Forall_impl; [| exact Hx]. intros y. apply H.
Qed.

Lemma StronglySorted_map {A B} (f : A -> B) (R : B -> B -> Prop) (l : list A) :
  StronglySorted (fun a b => R (f a) (f b)) l -> StronglySorted R (map f l).
Proof.
  induction 1 as [| x l Hl IH Hx]; simpl; constructor; auto.
  rewrite Forall_forall in *. intros y Hy.
  apply in_map_iff in Hy as [z [<- Hz]]. now apply Hx.
Qed.

(** ** Total comparisons *)

Lemma total_comparison_le_trans {A} (c : A -> A -> comparison) :
  total_comparison c ->
  forall a b d, c a b <> Gt -> c b d <> Gt -> c a d <> Gt.
Proof.
  intros [Has Htr Heq] a b d Hab Hbd.
  destruct (c a b) eqn:Eab; [| | congruence].
  - now rewrite (Heq a b d Eab).
  - destruct (c b d) eqn:Ebd; [| | congruence].
    + assert (Edb : c d b = Eq) by (rewrite Has, Ebd; reflexivity).
      pose proof (Heq d b a Edb) as Hda.
      rewrite (Has b a), Eab in Hda. simpl in Hda.
      rewrite Has, Hda. discriminate.
    + rewrite (Htr a b d Eab Ebd). discriminate.
Qed.

Lemma total_comparison_lex {A} (c1 c2 : A -> A -> comparison) :
  total_comparison c1 -> total_comparison c2 -> total_comparison (lex c1 c2).
Proof.
  intros [Has1 Htr1 Heq1] [Has2 Htr2 Heq2]. unfold lex. constructor.
  - intros a b. rewrite (Has1 a b).
    destruct (c1 b a); simpl; [apply Has2 | reflexivity | reflexivity].
  - intros a b d Hab Hbd.
    destruct (c1 a b) eqn:Eab; [| | discriminate].
    + rewrite (Heq1 a b d Eab).
      destruct (c1 b d); [| reflexivity | discriminate]. eauto.
    + destruct (c1 b d) eqn:Ebd; [| | discriminate].
      * assert (Edb : c1 d b = Eq) by (rewrite Has1, Ebd; reflexivity).
        pose proof (Heq1 d b a Edb) as Hda.
        rewrite (Has1 b a), Eab in Hda. simpl in Hda.
        now rewrite Has1, Hda.
      * now rewrite (Htr1 a b d Eab Ebd).
  - intros a b d Hab.
    destruct (c1 a b) eqn:Eab; [| discriminate | discriminate].
    rewrite (Heq1 a b d Eab). destruct (c1 b d); auto.
Qed.

Lemma total_comparison_on {A B} (f : A -> B) (c : B -> B -> comparison) :
  total_comparison c -> total_comparison (fun a b => c (f a) (f b)).
Proof. intros [Has Htr Heq]. constructor; eauto. Qed.

Lemma total_comparison_flip {A} (c : A -> A -> comparison) :
  total_comparison c -> total_comparison (fun a b => c b a).
Proof.
  intros [Has Htr Heq]. constructor.
  - intros a b. apply Has.
  - intros a b d Hab Hbd. eauto.
  - intros a b d Hab.
    assert (Hba : c a b = Eq) by (rewrite Has, Hab; reflexivity).
    rewrite (Has d a), (Has d b). f_equal. now apply Heq.
Qed.

Lemma string_compare_total : total_comparison String.compare.
Proof.
  constructor.
  - apply String.compare_antisym.
  - intros a b d Hab Hbd.
    apply String_as_OT.cmp_lt. apply String_as_OT.cmp_lt in Hab, Hbd.
    eapply String_as_OT.lt_trans; eauto.
  - intros a b d Hab. apply String.compare_eq_iff in Hab. now subst.
Qed.

Lemma string_compare_refl (a : string) : String.compare a a = Eq.
Proof. now apply String_as_OT.cmp_eq. Qed.

Lemma compare_nan_last_total : total_comparison compare_nan_last.
Proof.
  destruct string_compare_total as [Has Htr Heq]. constructor.
  - intros [a|] [b|]; simpl; auto.
  - intros [a|] [b|] [d|]; simpl; try discriminate; eauto.
  - intros [a|] [b|] [d|]; simpl; try discriminate; eauto.
Qed.

Lemma Qcompare_total : total_comparison Qcompare.
Proof.
  constructor.
  - intros a b. now rewrite <- Qcompare_antisym.
  - intros a b d Hab Hbd. apply Qlt_alt. apply Qlt_alt in Hab, Hbd.
    eapply Qlt_trans; eauto.
  - intros a b d Hab. apply Qeq_alt in Hab. now rewrite Hab.
Qed.

Lemma ev_id_compare_total : total_comparison ev_id_compare.
Proof.
  unfold ev_id_compare. apply total_comparison_lex.
  - apply (total_comparison_on (fun a : HitEv => ev_id a)).
    apply compare_nan_last_total.
  - apply total_comparison_lex.
    + apply (total_comparison_on (fun a : HitEv => query_id a)).
      apply string_compare_total.
    + apply (total_comparison_on (fun a : HitEv => score a)
               (fun x y => Qcompare y x)).
      apply total_comparison_flip, Qcompare_total.
Qed.


Lemma ev_id_order_compare (a b : HitEv) :
  ev_id_order a b = match ev_id_compare a b with Lt => true | _ => false end.
Proof.
  unfold ev_id_order, ev_id_compare, lex.
  destruct (compare_nan_last (ev_id a) (ev_id b)); try reflexivity.
  destruct (String.compare (query_id a) (query_id b)); try reflexivity.
  rewrite <- (Qcompare_antisym (score a) (score b)).
  destruct (Qcompare (score a) (score b)); reflexivity.
Qed.


(** An order read off a total comparison sorts. *)
Lemma before_of_comparison {A} (c : A -> A -> comparison)
    (before : A -> A -> bool) :
  total_comparison c ->
  (forall a b, before a b = match c a b with Lt => true | _ => false end) ->
  (forall a b, before b a = false <-> c a b <> Gt)
  /\ (forall a b d, before b a = false -> before d b = false ->
                    before d a = false)
  /\ (forall a b, before a b = true -> before b a = false).
Proof.
  intros Hc Hb.
  assert (Hle : forall a b, before b a = false <-> c a b <> Gt).
  { intros a b. rewrite Hb, (cmp_antisym c Hc a b).
    destruct (c b a); simpl; split; congruence. }
  split; [exact Hle|]. split.
  - intros a b d Hab Hbd. apply Hle. apply Hle in Hab, Hbd.
    eapply total_comparison_le_trans; eauto.
  - intros a b Hab. rewrite Hb in Hab. rewrite Hb, (cmp_antisym c Hc b a).
    destruct (c a b); simpl; congruence.
Qed.

(** ** append_ev_id: the join and the order of the rows *)

Lemma merge_left_unique {A V B} (lkey : A -> string) (right : list (string * V))
    (mk : A -> option V -> B) (left : list A) :
  NoDup (map fst right) ->
  merge_left String.eqb lkey right mk left
  = map (fun a =>
           mk a (option_map snd
                   (find (fun e : string * V => String.eqb (lkey a) (fst e))
                         right)))
        left.
Proof.
  intros Hnd. unfold merge_left. rewrite <- flat_map_single.
  apply flat_map_ext. intros a. rewrite (filter_unique_key _ _ Hnd).
  destruct (find (fun e : string * V => String.eqb (lkey a) (fst e)) right);
    reflexivity.
Qed.

(** X10: when the event table lists no reference twice, [append_ev_id]
    returns the hits of its input, each once, with the event listed for its
    reference or a missing event, in some order; its index is a
    rearrangement of 0..n-1. *)
Theorem append_ev_id_permutation (df : DataFrame HitCb)
    (exons_ev_id_df : ExonsEvId) :
  NoDup (map fst exons_ev_id_df) ->
  Permutation (rows (append_ev_id df exons_ev_id_df))
              (map (fun c : HitCb => mkHitEv c (listed_ev exons_ev_id_df c))
                   (rows df))
  /\ Permutation (labels (append_ev_id df exons_ev_id_df))
                 (seq 0 (List.length df)).
Proof.
  intros Hnd. unfold append_ev_id.
  rewrite (merge_left_unique (fun r : HitCb => reference_id r) _ mkHitEv _ Hnd).
  fold (listed_ev exons_ev_id_df).
  set (M := map (fun c : HitCb => mkHitEv c (listed_ev exons_ev_id_df c))
                (rows df)).
  split.
  - transitivity (rows (RangeIndex M)).
    + unfold rows. apply Permutation_map. symmetry. apply stable_sort_perm.
    + now rewrite rows_RangeIndex.
  - assert (Hl : seq 0 (List.length df) = labels (RangeIndex M)).
    { rewrite labels_RangeIndex. unfold M.
      now rewrite length_map, length_rows. }
    rewrite Hl. unfold labels.
    apply Permutation_map. symmetry. apply stable_sort_perm.
Qed.

Lemma append_ev_id_permutation_witness :
  NoDup (map fst evs_R)
  /\ Permutation (rows (append_ev_id cbs_RX evs_R))
                 [mkHitEv cb_R (Some "E1"); mkHitEv cb_X None].
Proof.
  assert (H : NoDup (map fst evs_R)) by (repeat constructor; intros []).
  split; [exact H|].
  exact (proj1 (append_ev_id_permutation cbs_RX evs_R H)).
Defined.

Lemma append_ev_id_StronglySorted (df : DataFrame HitCb)
    (exons_ev_id_df : ExonsEvId) :
  StronglySorted (fun a b : HitEv => ev_id_compare a b <> Gt)
                 (rows (append_ev_id df exons_ev_id_df)).
Proof.
  unfold append_ev_id, rows.
  destruct (before_of_comparison
              (fun a b : nat * HitEv => ev_id_compare (snd a) (snd b))
              (fun a b : nat * HitEv => ev_id_order (snd a) (snd b)))
    as [Hle [Htr Has]].
  - apply (total_comparison_on (fun a : nat * HitEv => snd a)).
    apply ev_id_compare_total.
  - intros a b. apply ev_id_order_compare.
  - apply StronglySorted_map.
    eapply StronglySorted_weaken;
      [| apply (stable_sort_sorted _ Htr Has)].
    intros a b Hab. now apply Hle.
Qed.

(** X11: the rows that [append_ev_id] returns are sorted: of two rows the
    earlier has the smaller [ev_id], a missing [ev_id] counting as the
    greatest; with one [ev_id] the smaller [query_id]; with one [ev_id] and
    one [query_id] the greater or an equal [score]. *)
Theorem append_ev_id_sorted (df : DataFrame HitCb) (exons_ev_id_df : ExonsEvId)
    (i j : nat) (a b : HitEv) :
  (i < j)%nat ->
  nth_error (rows (append_ev_id df exons_ev_id_df)) i = Some a ->
  nth_error (rows (append_ev_id df exons_ev_id_df)) j = Some b ->
  ev_id_order b a = false
  /\ (ev_id a = None -> ev_id b = None)
  /\ (forall ea eb, ev_id a = Some ea -> ev_id b = Some eb ->
                    String.compare ea eb <> Gt)
  /\ (ev_id a = ev_id b -> String.compare (query_id a) (query_id b) <> Gt)
  /\ (ev_id a = ev_id b -> query_id a = query_id b ->
      (score b <= score a)%Q).
Proof.
  intros Hij Ha Hb.
  pose proof (StronglySorted_nth _ _ i j a b
                (append_ev_id_StronglySorted df exons_ev_id_df) Hij Ha Hb)
    as Hc.
  cbv beta in Hc.
  assert (Hrefl : forall o, compare_nan_last o o = Eq).
  { intros [s|]; simpl; [apply string_compare_refl | reflexivity]. }
  split; [| split; [| split; [| split]]].
  - rewrite ev_id_order_compare.
    rewrite (cmp_antisym _ ev_id_compare_total b a).
    destruct (ev_id_compare a b); simpl; congruence.
  - intros Hn. unfold ev_id_compare, lex in Hc. rewrite Hn in Hc.
    destruct (ev_id b); [simpl in Hc; congruence | reflexivity].
  - intros ea eb Hea Heb Hgt. unfold ev_id_compare, lex in Hc.
    rewrite Hea, Heb in Hc. simpl in Hc. rewrite Hgt in Hc. congruence.
  - intros He Hgt. unfold ev_id_compare, lex in Hc.
    rewrite He, Hrefl, Hgt in Hc. congruence.
  - intros He Hq. unfold ev_id_compare, lex in Hc.
    rewrite He, Hrefl, Hq, string_compare_refl in Hc.
    now apply Qle_alt.
Qed.

Lemma append_ev_id_sorted_witness :
  (0 < 1)%nat
  /\ nth_error (rows (append_ev_id cbs_RX evs_R)) 0
     = Some (mkHitEv cb_R (Some "E1"))
  /\ nth_error (rows (append_ev_id cbs_RX evs_R)) 1 = Some (mkHitEv cb_X None)
  /\ ev_id_order (mkHitEv cb_X None) (mkHitEv cb_R (Some "E1")) = false.
Proof.
  assert (H0 : (0 < 1)%nat) by lia.
  assert (H1 : nth_error (rows (append_ev_id cbs_RX evs_R)) 0
               = Some (mkHitEv cb_R (Some "E1"))) by reflexivity.
  assert (H2 : nth_error (rows (append_ev_id cbs_RX evs_R)) 1
               = Some (mkHitEv cb_X None)) by reflexivity.
  split; [exact H0|]. split; [exact H1|]. split; [exact H2|].
  exact (proj1 (append_ev_id_sorted cbs_RX evs_R 0 1 _ _ H0 H1 H2)).
Defined.

(** ** get_grouped_results: the order and the size of the summary *)

Lemma map_key_flat_map (F : string * string -> list GroupedRow)
    (keys : list (string * string)) :
  (forall k, In k keys -> exists g, F k = [g] /\ grouped_key g = k) ->
  map grouped_key (flat_map F keys) = keys.
Proof.
  induction keys as [| k keys IH]; intros H; [reflexivity|].
  cbn [flat_map]. rewrite map_app.
  destruct (H k (or_introl eq_refl)) as [g [-> Hg]]. simpl. rewrite Hg.
  f_equal. apply IH. intros k' Hk'. apply H. now right.
Qed.

Lemma grouped_keys_are_group_keys (df : DataFrame HitAlnId) :
  map grouped_key (rows (get_grouped_results df)) = group_keys (rows df).
Proof.
  unfold get_grouped_results. rewrite rows_RangeIndex.
  apply map_key_flat_map. intros k Hk.
  apply group_keys_In in Hk as [r [Hr Hkr]].
  destruct (filter (in_group k) (rows df)) as [| r0 rest] eqn:Hf.
  - exfalso. assert (Hin : In r (filter (in_group k) (rows df))).
    { apply filter_In. split; [exact Hr | now apply in_group_iff]. }
    now rewrite Hf in Hin.
  - eexists. split; [reflexivity|]. unfold grouped_key. simpl. now destruct k.
Qed.

Lemma length_grouped_results (df : DataFrame HitAlnId) :
  List.length (get_grouped_results df) = List.length (group_keys (rows df)).
Proof.
  rewrite <- grouped_keys_are_group_keys, length_map. apply eq_sym, length_rows.
Qed.




Lemma length_unique_from_le {A} (eqb : A -> A -> bool) (seen l : list A) :
  (List.length (unique_from eqb seen l) <= List.length l)%nat.
Proof.
  revert seen. induction l as [| x l IH]; intros seen; simpl; [lia|].
  destruct (existsb (eqb x) seen); simpl.
  - specialize (IH seen). lia.
  - specialize (IH (x :: seen)). lia.
Qed.

Lemma length_flat_map_le {A B} (f : A -> list B) (l : list A) :
  (forall a, (List.length (f a) <= 1)%nat) ->
  (List.length (flat_map f l) <= List.length l)%nat.
Proof.
  intros H. induction l as [| a l IH]; [apply Nat.le_refl|].
  cbn [flat_map List.length]. rewrite length_app. specialize (H a). lia.
Qed.

Lemma grouped_row_inv (df : DataFrame HitAlnId) (g : GroupedRow) :
  In g (rows (get_grouped_results df)) ->
  exists r0 rest,
    group_members (grouped_key g) (rows df) = r0 :: rest
    /\ max_score g
       = fold_left Qmax (map (fun x : HitAlnId => score x) rest) (score r0)
    /\ count g = nunique (map aln_id (r0 :: rest))
    /\ grp_cross_boundary g
       = fold_left Z.max (map (fun x : HitAlnId => cross_boundary x) rest)
                   (cross_boundary r0).
Proof.
  unfold get_grouped_results. rewrite rows_RangeIndex. intros Hg.
  apply in_flat_map in Hg as [k [_ Hin]].
  pose proof (agg_key _ _ _ Hin) as Hk. unfold group_members. rewrite Hk.
  unfold agg in Hin. destruct (filter (in_group k) (rows df)) as [| r0 rest];
    [contradiction|].
  destruct Hin as [<- | []]. exists r0, rest. repeat split.
Qed.

(** X13: the summary is never longer than the hit table and is empty when
    no hit has an event; every row of it stands for at least one hit, and
    its [count] is at most the number of hits of its group, and at least 1
    when every hit has an [aln_id]. *)
Theorem grouped_results_bounds (df : DataFrame HitAlnId) :
  (List.length (get_grouped_results df) <= List.length df)%nat
  /\ ((forall r, In r (rows df) -> ev_id r = None) ->
      get_grouped_results df = [])
  /\ forall g, In g (rows (get_grouped_results df)) ->
       let members := group_members (grouped_key g) (rows df) in
       (1 <= List.length members)%nat
       /\ (count g <= List.length members)%nat
       /\ ((forall r, In r (rows df) -> aln_id r <> None) ->
           (1 <= count g)%nat).
Proof.
  split; [| split].
  - rewrite length_grouped_results.
    unfold group_keys. rewrite <- (Permutation_length (stable_sort_perm _ _)).
    etransitivity; [apply length_unique_from_le|].
    rewrite <- (length_rows df).
    induction (rows df) as [| r rs IH]; [apply Nat.le_refl|].
    cbn [flat_map List.length]. rewrite length_app.
    destruct (group_key r); simpl; lia.
  - intros Hnone. unfold get_grouped_results.
    assert (Hk : group_keys (rows df) = []).
    { destruct (group_keys (rows df)) as [| k ks] eqn:Hks; [reflexivity|].
      assert (Hin : In k (group_keys (rows df))) by (rewrite Hks; now left).
      apply group_keys_In in Hin as [r [Hr Hkr]].
      unfold group_key in Hkr. rewrite (Hnone r Hr) in Hkr. discriminate. }
    now rewrite Hk.
  - intros g Hg members.
    destruct (grouped_row_inv df g Hg) as [r0 [rest [Hm [_ [Hc _]]]]].
    unfold members. rewrite Hm, Hc. split; [simpl; lia|]. split.
    + unfold nunique. etransitivity; [apply length_unique_from_le|].
      etransitivity; [apply length_flat_map_le|].
      * intros [i|]; simpl; lia.
      * now rewrite length_map.
    + intros Hsome.
      assert (Hr0 : In r0 (rows df)).
      { assert (Hin : In r0 (group_members (grouped_key g) (rows df)))
          by (rewrite Hm; now left).
        unfold group_members in Hin. now apply filter_In in Hin as [Hin _]. }
      specialize (Hsome r0 Hr0). unfold nunique. cbn [map flat_map].
      destruct (aln_id r0) as [i|]; [| congruence]. simpl. lia.
Qed.

(** X14: when the flags of the hit table are those that
    [_is_cross_boundary] gives, the flag of a summary row is 1 exactly when
    some hit of its group starts at or before [total_len] and ends after
    it, and 0 otherwise. *)
Theorem grouped_flag_spans_boundary (df : DataFrame HitAlnId) (g : GroupedRow) :
  In g (rows (get_grouped_results df)) ->
  (forall r : HitAlnId, In r (rows df) ->
                        cross_boundary r = _is_cross_boundary r) ->
  (grp_cross_boundary g = 1
   <-> exists r : HitAlnId,
         In r (group_members (grouped_key g) (rows df))
         /\ exists t, total_len r = Some t /\ ref_start r <= t < ref_end r)
  /\ (grp_cross_boundary g = 0 \/ grp_cross_boundary g = 1).
Proof.
  intros Hg Hflags.
  destruct (grouped_row_inv df g Hg) as [r0 [rest [Hm [_ [_ Hz]]]]].
  rewrite Hm, Hz.
  destruct (fold_Zmax (map (fun x : HitAlnId => cross_boundary x) rest)
                      (cross_boundary r0)) as [Hz1 [Hz2 Hz3]].
  set (mz := fold_left Z.max (map (fun x : HitAlnId => cross_boundary x) rest)
                       (cross_boundary r0)) in *.
  assert (Hsub : forall r, In r (r0 :: rest) -> In r (rows df)).
  { intros r Hr. rewrite <- Hm in Hr. unfold group_members in Hr.
    now apply filter_In in Hr as [Hr _]. }
  assert (Hspan : forall r : HitAlnId, In r (r0 :: rest) ->
            (cross_boundary r = 0 \/ cross_boundary r = 1)
            /\ (cross_boundary r = 1
                <-> exists t, total_len r = Some t
                              /\ ref_start r <= t < ref_end r)).
  { intros r Hr. rewrite (Hflags r (Hsub r Hr)).
    unfold _is_cross_boundary, le_nan.
    destruct (total_len r) as [t|].
    - destruct (Z.leb_spec (ref_start r) t) as [H1 | H1],
               (Z.ltb_spec t (ref_end r)) as [H2 | H2]; simpl.
      + split; [now right|]. split; [| reflexivity].
        intros _. exists t. split; [reflexivity | lia].
      + split; [now left|]. split; [discriminate|].
        intros [t' [Heq Ht]]. injection Heq as <-. lia.
      + split; [now left|]. split; [discriminate|].
        intros [t' [Heq Ht]]. injection Heq as <-. lia.
      + split; [now left|]. split; [discriminate|].
        intros [t' [Heq Ht]]. injection Heq as <-. lia.
    - simpl. split; [now left|].
      split; [discriminate | intros [t [Ht _]]; discriminate]. }
  assert (Hzin : exists r, In r (r0 :: rest) /\ cross_boundary r = mz).
  { destruct Hz1 as [Hz1 | Hz1].
    - exists r0. split; [now left | now rewrite Hz1].
    - apply in_map_iff in Hz1 as [r [Hr Hin]]. exists r.
      split; [now right | exact Hr]. }
  destruct Hzin as [rm [Hrm Hcm]]. split.
  - split.
    + intros H1. exists rm. split; [exact Hrm|].
      apply (Hspan rm Hrm). congruence.
    + intros [r [Hr Hsp]]. apply (Hspan r Hr) in Hsp.
      assert (Hle : cross_boundary r <= mz).
      { destruct Hr as [<- | Hr]; [exact Hz2|]. apply Hz3.
        now apply (in_map (fun x : HitAlnId => cross_boundary x)). }
      destruct (proj1 (Hspan rm Hrm)); lia.
  - destruct (proj1 (Hspan rm Hrm)); lia.
Qed.

Lemma grouped_flag_spans_boundary_witness :
  In (mkGroupedRow "E1" "Q" 0 1 0)
     (rows (get_grouped_results
              (generate_aln_id (append_merged_aln (append_ev_id cbs_RX evs_R)))))
  /\ (forall r : HitAlnId,
        In r (rows (generate_aln_id
                      (append_merged_aln (append_ev_id cbs_RX evs_R)))) ->
        cross_boundary r = _is_cross_boundary r)
  /\ (grp_cross_boundary (mkGroupedRow "E1" "Q" 0 1 0) = 0
      \/ grp_cross_boundary (mkGroupedRow "E1" "Q" 0 1 0) = 1).
Proof.
  assert (H1 : In (mkGroupedRow "E1" "Q" 0 1 0)
                  (rows (get_grouped_results
                           (generate_aln_id
                              (append_merged_aln (append_ev_id cbs_RX evs_R))))))
    by (left; reflexivity).
  assert (H2 : forall r : HitAlnId,
             In r (rows (generate_aln_id
                           (append_merged_aln (append_ev_id cbs_RX evs_R)))) ->
             cross_boundary r = _is_cross_boundary r).
  { intros r [<- | [<- | []]]; reflexivity. }
  split; [exact H1|]. split; [exact H2|].
  exact (proj2 (grouped_flag_spans_boundary _ _ H1 H2)).
Defined.

(** ** generate_aln_id: the ids in use *)

Lemma index_of_nth {A} (eqb : A -> A -> bool) (l : list A) (k : nat) (d : A) :
  (forall x y, eqb x y = true <-> x = y) ->
  NoDup l -> (k < List.length l)%nat -> index_of eqb (nth k l d) l = k.
Proof.
  intros Heq. revert k. induction l as [| y l IH]; intros k Hnd Hk;
    simpl in Hk; [lia|].
  inversion Hnd as [| ? ? Hnin Hnd']; subst.
  destruct k as [| k]; simpl.
  - now rewrite (proj2 (Heq y y) eq_refl).
  - destruct (eqb (nth k l d) y) eqn:Hy.
    + apply Heq in Hy. exfalso. apply Hnin. rewrite <- Hy. apply nth_In. lia.
    + f_equal. apply IH; [exact Hnd' | lia].
Qed.

(** X15: the cluster ids in use are exactly 0, 1, ..., n-1, where n is
    the number of distinct alignments of the table, at most the number of
    hits; the first hit has id 0. *)
Theorem aln_ids_dense (df : DataFrame HitEv) :
  let n := List.length
             (unique String.eqb
                     (map (fun r : HitEv => merged_aln r) (rows df))) in
  (forall r, In r (clustered df) ->
             exists k, aln_id r = Some k /\ (k < n)%nat)
  /\ (forall k, (k < n)%nat ->
                exists r, In r (clustered df) /\ aln_id r = Some k)
  /\ (n <= List.length df)%nat
  /\ (forall r, nth_error (clustered df) 0 = Some r -> aln_id r = Some 0%nat).
Proof.
  intros n. rewrite clustered_rows.
  set (m := fun x : HitEv => merged_aln x) in *.
  set (U := unique String.eqb (map m (rows df))) in *.
  assert (HU : NoDup U) by (apply unique_from_NoDup, string_eqb_eq).
  split; [| split; [| split]].
  - intros r Hr. apply in_map_iff in Hr as [x [<- Hx]]. simpl.
    eexists. split; [reflexivity|].
    apply (index_of_lt _ string_eqb_eq).
    apply (unique_In _ string_eqb_eq). now apply (in_map m).
  - intros k Hk.
    assert (Hin : In (nth k U EmptyString) (map m (rows df))).
    { apply (proj1 (unique_In _ string_eqb_eq _ _)). now apply nth_In. }
    apply in_map_iff in Hin as [x [Hx Hin]].
    eexists. split; [apply in_map_iff; exists x; split; [reflexivity | exact Hin]|].
    simpl. f_equal. fold (m x). rewrite Hx.
    now apply (index_of_nth _ _ _ _ string_eqb_eq).
  - unfold n, U, unique. etransitivity; [apply length_unique_from_le|].
    now rewrite length_map, length_rows.
  - intros r Hr. destruct (rows df) as [| x xs] eqn:Hrows; [discriminate|].
    simpl in Hr. injection Hr as <-. simpl. f_equal.
    unfold U, unique. simpl. now rewrite String.eqb_refl.
Qed.

(** ** ResultParser on any text *)

Lemma split_nonempty (sep : ascii) (s : string) : split sep s <> [].
Proof.
  destruct s as [| c s]; simpl; [discriminate|].
  destruct (Ascii.eqb c sep); [discriminate|].
  destruct (split sep s); discriminate.
Qed.

Lemma split_no_sep (sep : ascii) (s : string) :
  Forall (fun f => has_char sep f = false) (split sep s).
Proof.
  induction s as [| c s IH]; simpl; [repeat constructor|].
  destruct (Ascii.eqb c sep) eqn:Hc; [constructor; [reflexivity | exact IH]|].
  destruct (split sep s) as [| w ws]; [repeat constructor; simpl; now rewrite Hc|].
  inversion IH as [| ? ? Hw Hws]; subst. constructor; [| exact Hws].
  simpl. now rewrite Hc, Hw.
Qed.

Lemma join_split (sep : ascii) (s : string) : join sep (split sep s) = s.
Proof.
  induction s as [| c s IH]; simpl; [reflexivity|].
  destruct (Ascii.eqb_spec c sep) as [-> | Hc].
  - pose proof (split_nonempty sep s) as Hne.
    destruct (split sep s) as [| w ws]; [congruence|].
    change (join sep (EmptyString :: w :: ws))
      with (String sep (join sep (w :: ws))).
    now rewrite IH.
  - pose proof (split_nonempty sep s) as Hne.
    destruct (split sep s) as [| w ws]; [congruence|].
    destruct ws as [| w' ws'].
    + simpl in *. now rewrite IH.
    + change (join sep (String c w :: w' :: ws'))
        with (String c (w ++ String sep (join sep (w' :: ws'))))%string.
      change (join sep (w :: w' :: ws'))
        with (w ++ String sep (join sep (w' :: ws')))%string in IH.
      now rewrite IH.
Qed.

Lemma has_char_piece (c sep : ascii) (s f : string) :
  In f (split sep s) -> has_char c f = true -> has_char c s = true.
Proof.
  revert f. induction s as [| a s IH]; intros f; simpl.
  - intros [<- | []]. discriminate.
  - destruct (Ascii.eqb a sep).
    + intros [<- | Hf] Hc; [discriminate|].
      rewrite (IH f Hf Hc). apply orb_true_r.
    + pose proof (split_nonempty sep s) as Hne.
      destruct (split sep s) as [| w ws]; [congruence|].
      intros [<- | Hf] Hc.
      * simpl in Hc. apply orb_true_iff in Hc as [Hc | Hc].
        -- now rewrite Hc.
        -- rewrite (IH w (or_introl eq_refl) Hc). apply orb_true_r.
      * rewrite (IH f (or_intror Hf) Hc). apply orb_true_r.
Qed.

Lemma finditer_split (raw : string) :
  finditer true raw = flat_map payload (split LF raw).
Proof.
  rewrite <- (join_split LF raw) at 1. apply finditer_lines, split_no_sep.
Qed.

(** X16: on any text, the scan with the pattern finds exactly the lines
    that start with the marker, a line being what stands between two line
    feeds, and [parse_result] is [_get_value] applied to what follows the
    marker on each of them, in order. *)
Theorem parse_result_by_lines (raw_result : string) :
  finditer true raw_result = flat_map payload (split LF raw_result)
  /\ parse_result raw_result
     = mapM _get_value (flat_map payload (split LF raw_result)).
Proof.
  split; [apply finditer_split|]. unfold parse_result.
  now rewrite finditer_split.
Qed.

(** A field gives a value exactly when it holds a [=]. *)
Lemma item1_split_eq (kv : string) :
  (has_char "="%char kv = true
   /\ exists v, item1 (split "="%char kv) = Ok v
                /\ has_char "="%char v = false
                /\ forall c, has_char c v = true -> has_char c kv = true)
  \/ (has_char "="%char kv = false
      /\ item1 (split "="%char kv) = Raise IndexError).
Proof.
  destruct (has_char "="%char kv) eqn:Hk.
  - left. split; [reflexivity|].
    pose proof (split_no_sep "="%char kv) as Hno.
    pose proof (fun c f => has_char_piece c "="%char kv f) as Hpiece.
    destruct (split "="%char kv) as [| k [| v rest]] eqn:Hs.
    + exfalso. now apply (split_nonempty "="%char kv).
    + exfalso. pose proof (join_split "="%char kv) as Hj. rewrite Hs in Hj.
      simpl in Hj. subst k. inversion Hno as [| ? ? Hk' _]; subst. congruence.
    + exists v. split; [reflexivity|]. split.
      * inversion Hno as [| ? ? _ Hno']; subst.
        now inversion Hno' as [| ? ? Hv _]; subst.
      * intros c Hc. apply (Hpiece c v); [right; now left | exact Hc].
  - right. split; [reflexivity|]. now rewrite (split_plain _ _ Hk).
Qed.

Lemma mapM_cases {A B} (f : A -> res B) (l : list A) (e : exn) :
  (forall x, In x l -> (exists y, f x = Ok y) \/ f x = Raise e) ->
  (exists ys, mapM f l = Ok ys /\ Forall2 (fun x y => f x = Ok y) l ys)
  \/ (mapM f l = Raise e /\ exists x, In x l /\ f x = Raise e).
Proof.
  induction l as [| x l IH]; intros H.
  - left. exists []. split; [reflexivity | constructor].
  - destruct (H x (or_introl eq_refl)) as [[y Hy] | Hx].
    + destruct IH as [[ys [Hys Hall]] | [Hr [x' [Hx' Hf]]]].
      * intros x' Hx'. apply H. now right.
      * left. exists (y :: ys). split; [simpl; now rewrite Hy, Hys|].
        now constructor.
      * right. split; [simpl; now rewrite Hy, Hr|].
        exists x'. split; [now right | exact Hf].
    + right. split; [simpl; now rewrite Hx|].
      exists x. split; [now left | exact Hx].
Qed.

Lemma Forall2_length_eq {A B} (R : A -> B -> Prop) (l : list A) (l' : list B) :
  Forall2 R l l' -> List.length l = List.length l'.
Proof. induction 1; simpl; congruence. Qed.

Lemma Forall2_In_l {A B} (R : A -> B -> Prop) (l : list A) (l' : list B) (x : A) :
  Forall2 R l l' -> In x l -> exists y, In y l' /\ R x y.
Proof.
  induction 1 as [| a b l l' Hab Hall IH]; intros Hx; [contradiction|].
  destruct Hx as [<- | Hx].
  - exists b. split; [now left | exact Hab].
  - destruct (IH Hx) as [y [Hy Hr]]. exists y. split; [now right | exact Hr].
Qed.

Lemma Forall2_In_r {A B} (R : A -> B -> Prop) (l : list A) (l' : list B) (y : B) :
  Forall2 R l l' -> In y l' -> exists x, In x l /\ R x y.
Proof.
  induction 1 as [| a b l l' Hab Hall IH]; intros Hy; [contradiction|].
  destruct Hy as [<- | Hy].
  - exists a. split; [now left | exact Hab].
  - destruct (IH Hy) as [x [Hx Hr]]. exists x. split; [now right | exact Hr].
Qed.

(** The two outcomes of [_get_value]. *)
Lemma _get_value_cases (res_line : string) :
  (exists values,
     _get_value res_line = Ok values
     /\ List.length values = List.length (split TAB res_line)
     /\ Forall (fun v => has_char "="%char v = false
                         /\ has_char TAB v = false) values
     /\ forall f, In f (split TAB res_line) -> has_char "="%char f = true)
  \/ (_get_value res_line = Raise IndexError
      /\ exists f, In f (split TAB res_line) /\ has_char "="%char f = false).
Proof.
  unfold _get_value.
  set (g := fun kv => item1 (split "="%char kv)).
  assert (Hg : forall x, In x (split TAB res_line) ->
                         (exists y, g x = Ok y) \/ g x = Raise IndexError).
  { intros x _. unfold g.
    destruct (item1_split_eq x) as [[_ [v [Hv _]]] | [_ Hr]]; eauto. }
  destruct (mapM_cases g (split TAB res_line) IndexError Hg)
    as [[ys [Hys Hall]] | [Hr [x [Hx Hgx]]]].
  - left. exists ys. split; [exact Hys|]. split; [| split].
    + symmetry. eapply Forall2_length_eq; eauto.
    + apply Forall_forall. intros v Hv.
      destruct (Forall2_In_r _ _ _ v Hall Hv) as [x [Hx Hxv]].
      unfold g in Hxv.
      destruct (item1_split_eq x) as [[_ [v' [Hv' [Hv1 Hv2]]]] | [_ Hr]];
        [| congruence].
      rewrite Hv' in Hxv. injection Hxv as ->. split; [exact Hv1|].
      pose proof (split_no_sep TAB res_line) as Hno.
      rewrite Forall_forall in Hno.
      destruct (has_char TAB v) eqn:Ht; [| reflexivity].
      specialize (Hv2 TAB Ht). rewrite (Hno x Hx) in Hv2. discriminate.
    + intros f Hf. destruct (Forall2_In_l _ _ _ f Hall Hf) as [y [_ Hfy]].
      unfold g in Hfy.
      destruct (item1_split_eq f) as [[Hk _] | [_ Hr]]; [exact Hk | congruence].
  - right. split; [exact Hr|]. exists x. split; [exact Hx|].
    unfold g in Hgx.
    destruct (item1_split_eq x) as [[_ [v [Hv _]]] | [Hk _]];
      [congruence | exact Hk].
Qed.

(** X17: [_get_value] raises [IndexError] exactly when some tab-separated
    field of the line holds no [=], as the empty line does; otherwise it
    returns one value for each field, none of which holds a [=] or a tab:
    a value that held a [=] is cut at it. *)
Theorem _get_value_shape (res_line : string) :
  (_get_value res_line = Raise IndexError
   <-> exists f, In f (split TAB res_line) /\ has_char "="%char f = false)
  /\ ((exists values, _get_value res_line = Ok values)
      <-> forall f, In f (split TAB res_line) -> has_char "="%char f = true)
  /\ (forall values,
        _get_value res_line = Ok values ->
        List.length values = List.length (split TAB res_line)
        /\ Forall (fun v => has_char "="%char v = false
                            /\ has_char TAB v = false) values)
  /\ _get_value EmptyString = Raise IndexError.
Proof.
  destruct (_get_value_cases res_line)
    as [[vs [Hv [Hlen [Hplain Hall]]]] | [Hr [f [Hf Hk]]]].
  - split; [| split; [| split; [| reflexivity]]].
    + split; [congruence|]. intros [f [Hf Hk]].
      rewrite (Hall f Hf) in Hk. discriminate.
    + split; [intros _; exact Hall | eauto].
    + intros values Hvalues. rewrite Hv in Hvalues. injection Hvalues as <-.
      split; assumption.
  - split; [| split; [| split; [| reflexivity]]].
    + split; [eauto | intros _; exact Hr].
    + split; [intros [values Hv]; congruence|].
      intros Hall. rewrite (Hall f Hf) in Hk. discriminate.
    + intros values Hv. congruence.
Qed.

(** X18: [parse_result] raises [IndexError] exactly when some line that
    starts with the marker has, after the marker, a tab-separated field
    without [=]; otherwise it returns one record for each line that starts
    with the marker, and the empty list for a text without such a line.
    No other exception comes out of it. *)
Theorem parse_result_errors (raw_result : string) :
  (parse_result raw_result = Raise IndexError
   <-> exists line p f,
         In line (split LF raw_result)
         /\ strip_prefix hit_info_marker line = Some p
         /\ In f (split TAB p) /\ has_char "="%char f = false)
  /\ (forall records,
        parse_result raw_result = Ok records ->
        List.length records
        = List.length (flat_map payload (split LF raw_result)))
  /\ ((forall line, In line (split LF raw_result) ->
                    strip_prefix hit_info_marker line = None) ->
      parse_result raw_result = Ok [])
  /\ (forall e, parse_result raw_result = Raise e -> e = IndexError).
Proof.
  unfold parse_result. rewrite finditer_split.
  set (ps := flat_map payload (split LF raw_result)).
  assert (Hps : forall p, In p ps <->
            exists line, In line (split LF raw_result)
                         /\ strip_prefix hit_info_marker line = Some p).
  { intros p. unfold ps. rewrite in_flat_map. unfold payload.
    split; intros [line [Hl Hin]]; exists line; split; auto.
    - destruct (strip_prefix hit_info_marker line); [| contradiction].
      destruct Hin as [-> | []]. reflexivity.
    - rewrite Hin. now left. }
  assert (Hf : forall x, In x ps ->
                         (exists y, _get_value x = Ok y)
                         \/ _get_value x = Raise IndexError).
  { intros x _.
    destruct (_get_value_cases x) as [[v [Hv _]] | [Hr _]]; eauto. }
  destruct (mapM_cases _get_value ps IndexError Hf)
    as [[ys [Hys Hall]] | [Hr [x [Hx Hfx]]]].
  - split; [| split; [| split]].
    + split; [congruence|]. intros [line [p [f [Hl [Hsp [Hfin Hk]]]]]].
      assert (Hin : In p ps) by (apply Hps; eauto).
      destruct (Forall2_In_l _ _ _ p Hall Hin) as [y [_ Hy]].
      destruct (_get_value_cases p) as [[v [_ [_ [_ Hfields]]]] | [Hr _]];
        [| congruence].
      rewrite (Hfields f Hfin) in Hk. discriminate.
    + intros records Hrec. rewrite Hys in Hrec. injection Hrec as <-.
      symmetry. eapply Forall2_length_eq; eauto.
    + intros Hnone. destruct ps as [| p ps'] eqn:Hpe; [reflexivity|].
      assert (Hin : In p (p :: ps')) by now left.
      apply Hps in Hin as [line [Hl Hsp]]. rewrite (Hnone line Hl) in Hsp.
      discriminate.
    + intros e He. congruence.
  - split; [| split; [| split]].
    + split; [| intros _; exact Hr]. intros _.
      apply Hps in Hx as [line [Hl Hsp]].
      destruct (_get_value_cases x) as [[v [Hv _]] | [_ [f [Hfin Hk]]]];
        [congruence|].
      exists line, x, f. auto.
    + intros records Hrec. congruence.
    + intros Hnone. apply Hps in Hx as [line [Hl Hsp]].
      rewrite (Hnone line Hl) in Hsp. discriminate.
    + intros e He. congruence.
Qed.

(** ** _split_file: the loop over any lines *)

Lemma concat_write_at (i : nat) (line : string) (bufs : list (list string)) :
  (i < List.length bufs)%nat ->
  Permutation (List.concat (write_at i line bufs)) (List.concat bufs ++ [line]).
Proof.
  revert i. induction bufs as [| b bufs IH]; intros i Hi; simpl in Hi; [lia|].
  destruct i as [| i]; cbn [write_at List.concat].
  - rewrite <- !app_assoc. apply Permutation_app_head, Permutation_app_comm.
  - rewrite <- app_assoc. apply Permutation_app_head, IH. lia.
Qed.

Lemma concat_repeat_nil {A} (n : nat) : List.concat (repeat (@nil A) n) = [].
Proof. induction n as [| n IH]; simpl; auto. Qed.

(** Once [tmp_f] is bound the loop cannot fail, and it neither loses nor
    repeats a line. *)
Lemma split_loop_bound (num : nat) (lines : list string) (st : SplitState)
    (i : nat) :
  (0 < num)%nat ->
  tmp_f st = Some i -> (i < num)%nat -> List.length (written st) = num ->
  exists st',
    split_loop num st lines = Ok st'
    /\ List.length (written st') = num
    /\ Permutation (List.concat (written st')) (List.concat (written st) ++ lines).
Proof.
  intros Hnum. revert st i.
  induction lines as [| l lines IH]; intros st i Hf Hi Hlen.
  - exists st. split; [reflexivity|]. split; [exact Hlen|].
    now rewrite app_nil_r.
  - cbn [split_loop]. unfold split_step. destruct num as [| n]; [lia|].
    destruct (startswith ">" l); cbn [bind tmp_f nexts written].
    + set (j := (nexts st mod S n)%nat).
      assert (Hj : (j < S n)%nat) by (apply Nat.mod_upper_bound; lia).
      destruct (IH (mkSplitState (S (nexts st)) (Some j)
                                 (write_at j l (written st))) j)
        as [st' [Hrun [Hlen' Hperm]]];
        [reflexivity | exact Hj | simpl; now rewrite length_write_at |].
      exists st'. split; [exact Hrun|]. split; [exact Hlen'|].
      etransitivity; [exact Hperm|]. simpl.
      change (l :: lines) with ([l] ++ lines). rewrite app_assoc.
      apply Permutation_app_tail, concat_write_at. now rewrite Hlen.
    + rewrite Hf. cbn [bind].
      destruct (IH (mkSplitState (nexts st) (Some i)
                                 (write_at i l (written st))) i)
        as [st' [Hrun [Hlen' Hperm]]];
        [reflexivity | exact Hi | simpl; now rewrite length_write_at |].
      exists st'. split; [exact Hrun|]. split; [exact Hlen'|].
      etransitivity; [exact Hperm|]. simpl.
      change (l :: lines) with ([l] ++ lines). rewrite app_assoc.
      apply Permutation_app_tail, concat_write_at. now rewrite Hlen.
Qed.

(** With one file, the file is the input. *)
Lemma split_loop_single (lines : list string) (st : SplitState)
    (b : list string) :
  tmp_f st = Some 0%nat -> written st = [b] ->
  exists st', split_loop 1 st lines = Ok st' /\ written st' = [b ++ lines].
Proof.
  revert st b. induction lines as [| l lines IH]; intros st b Hf Hw.
  - exists st. split; [reflexivity|]. now rewrite app_nil_r.
  - cbn [split_loop]. unfold split_step.
    destruct (startswith ">" l); cbn [bind tmp_f nexts written].
    + rewrite Nat.mod_1_r, Hw. cbn [write_at].
      destruct (IH (mkSplitState (S (nexts st)) (Some 0%nat) [b ++ [l]])
                   (b ++ [l])) as [st' [Hrun Hw']]; [reflexivity.. |].
      exists st'. split; [exact Hrun|]. now rewrite Hw', <- app_assoc.
    + rewrite Hf, Hw. cbn [bind write_at].
      destruct (IH (mkSplitState (nexts st) (Some 0%nat) [b ++ [l]])
                   (b ++ [l])) as [st' [Hrun Hw']]; [reflexivity.. |].
      exists st'. split; [exact Hrun|]. now rewrite Hw', <- app_assoc.
Qed.

(** The four outcomes of the loop. *)
Lemma split_lines_cases (num : nat) (lines : list string) :
  (lines = [] /\ split_lines num lines = Ok (repeat [] num))
  \/ (exists l ls, lines = l :: ls /\ startswith ">" l = false
                   /\ split_lines num lines = Raise (UnboundLocalError "tmp_f"))
  \/ (exists l ls, lines = l :: ls /\ startswith ">" l = true /\ num = 0%nat
                   /\ split_lines num lines = Raise RuntimeError)
  \/ (exists l ls bufs,
        lines = l :: ls /\ startswith ">" l = true /\ (0 < num)%nat
        /\ split_lines num lines = Ok bufs
        /\ List.length bufs = num
        /\ Permutation (List.concat bufs) lines
        /\ (num = 1%nat -> bufs = [lines])).
Proof.
  destruct lines as [| l ls]; [left; split; reflexivity|]. right.
  destruct (startswith ">" l) eqn:Hh.
  - right. destruct num as [| n].
    + left. exists l, ls. repeat split; auto.
      unfold split_lines. cbn [split_loop]. unfold split_step. now rewrite Hh.
    + right.
      assert (Hstep : split_lines (S n) (l :: ls)
                      = (st <- split_loop (S n)
                                 (mkSplitState 1 (Some 0%nat)
                                    (write_at 0 l (repeat [] (S n)))) ls ;;
                         Ok (written st))).
      { unfold split_lines. cbn [split_loop]. unfold split_step. rewrite Hh.
        cbn [bind tmp_f nexts written]. now rewrite Nat.Div0.mod_0_l. }
      destruct (split_loop_bound (S n) ls
                  (mkSplitState 1 (Some 0%nat) (write_at 0 l (repeat [] (S n))))
                  0) as [st' [Hrun [Hlen Hperm]]];
        [lia | reflexivity | lia
         | simpl; now rewrite repeat_length |].
      exists l, ls, (written st'). split; [reflexivity|]. split; [exact Hh|].
      split; [lia|]. split; [rewrite Hstep, Hrun; reflexivity|].
      split; [exact Hlen|]. split.
      * etransitivity; [exact Hperm|]. simpl.
        now rewrite concat_repeat_nil.
      * intros Hn. injection Hn as ->.
        destruct (split_loop_single ls
                    (mkSplitState 1 (Some 0%nat) [[l]]) [l])
          as [st1 [Hrun1 Hw1]]; [reflexivity.. |].
        simpl in Hrun. rewrite Hrun1 in Hrun. injection Hrun as <-.
        exact Hw1.
  - left. exists l, ls. split; [reflexivity|]. split; [exact Hh|].
    now apply split_lines_before_header.
Qed.

(** X19: what the loop does on any input and any number of files.  It
    succeeds exactly when the input is empty, or starts with a header and
    there is at least one file; it raises [UnboundLocalError] exactly when
    the first line is not a header, whatever the number of files, and
    [RuntimeError] exactly when the first line is a header and there is no
    file to cycle over.  Nothing else is raised. *)
Theorem split_lines_outcomes (num : nat) (lines : list string) :
  ((exists bufs, split_lines num lines = Ok bufs)
   <-> lines = []
       \/ ((0 < num)%nat
           /\ exists l ls, lines = l :: ls /\ startswith ">" l = true))
  /\ (split_lines num lines = Raise (UnboundLocalError "tmp_f")
      <-> exists l ls, lines = l :: ls /\ startswith ">" l = false)
  /\ (split_lines num lines = Raise RuntimeError
      <-> num = 0%nat
          /\ exists l ls, lines = l :: ls /\ startswith ">" l = true)
  /\ (forall e, split_lines num lines = Raise e ->
                e = UnboundLocalError "tmp_f" \/ e = RuntimeError).
Proof.
  destruct (split_lines_cases num lines)
    as [[-> Hr] | [[l [ls [-> [Hh Hr]]]] | [[l [ls [-> [Hh [Hn Hr]]]]]
        | [l [ls [bufs [-> [Hh [Hn [Hr _]]]]]]]]]]; rewrite Hr.
  - split; [| split; [| split]].
    + split; [now left | eauto].
    + split; [discriminate | intros [l [ls [H _]]]; discriminate].
    + split; [discriminate | intros [_ [l [ls [H _]]]]; discriminate].
    + discriminate.
  - split; [| split; [| split]].
    + split; [intros [bufs H]; discriminate|].
      intros [H | [_ [l' [ls' [H Hh']]]]]; [discriminate|].
      injection H as <- <-. congruence.
    + split; [eauto | reflexivity].
    + split; [discriminate|].
      intros [_ [l' [ls' [H Hh']]]]. injection H as <- <-. congruence.
    + intros e He. injection He as <-. now left.
  - split; [| split; [| split]].
    + split; [intros [bufs H]; discriminate|].
      intros [H | [Hpos _]]; [discriminate | lia].
    + split; [discriminate|].
      intros [l' [ls' [H Hh']]]. injection H as <- <-. congruence.
    + split; [eauto | reflexivity].
    + intros e He. injection He as <-. now right.
  - split; [| split; [| split]].
    + split; [intros _; right; eauto | eauto].
    + split; [discriminate|].
      intros [l' [ls' [H Hh']]]. injection H as <- <-. congruence.
    + split; [discriminate | intros [H0 _]; lia].
    + discriminate.
Qed.

(** X20: when the loop succeeds there are [num] files, every line of the
    input is in exactly one of them, as often as it is in the input, and
    with one file the file is the input. *)
Theorem split_lines_keeps_every_line (num : nat) (lines : list string)
    (bufs : list (list string)) :
  split_lines num lines = Ok bufs ->
  List.length bufs = num
  /\ Permutation (List.concat bufs) lines
  /\ (num = 1%nat -> bufs = [lines]).
Proof.
  intros H.
  destruct (split_lines_cases num lines)
    as [[-> Hr] | [[l [ls [-> [Hh Hr]]]] | [[l [ls [-> [Hh [Hn Hr]]]]]
        | [l [ls [bufs' [-> [Hh [Hn [Hr Hall]]]]]]]]]];
    rewrite Hr in H; try discriminate; injection H as <-.
  - split; [apply repeat_length|]. split.
    + now rewrite concat_repeat_nil.
    + now intros ->.
  - exact Hall.
Qed.

Lemma split_lines_keeps_every_line_witness :
  split_lines 2 [">a"; "ACGU"; ">b"; ">c"; "UU"]
  = Ok [[">a"; "ACGU"; ">c"; "UU"]; [">b"]]
  /\ Permutation (List.concat [[">a"; "ACGU"; ">c"; "UU"]; [">b"]])
                 [">a"; "ACGU"; ">b"; ">c"; "UU"].
Proof.
  assert (H : split_lines 2 [">a"; "ACGU"; ">b"; ">c"; "UU"]
              = Ok [[">a"; "ACGU"; ">c"; "UU"]; [">b"]]) by reflexivity.
  split; [exact H|].
  exact (proj1 (proj2 (split_lines_keeps_every_line 2 _ _ H))).
Defined.

(** ** _split_file: the files and the directory *)

Lemma bindM_ok {A B} (m : M A) (k : A -> M B) (w w' : World) (a : A) :
  m w = (Ok a, w') -> bindM m k w = k a w'.
Proof. intros H. unfold bindM. now rewrite H. Qed.

Lemma bindM_raise {A B} (m : M A) (k : A -> M B) (w w' : World) (e : exn) :
  m w = (Raise e, w') -> bindM m k w = (Raise e, w').
Proof. intros H. unfold bindM. now rewrite H. Qed.

Lemma find_filter_other (p q : string) (fs : list (string * list string)) :
  p <> q ->
  find (fun f => String.eqb p (fst f))
       (filter (fun f : string * list string => negb (String.eqb q (fst f))) fs)
  = find (fun f => String.eqb p (fst f)) fs.
Proof.
  intros Hne. induction fs as [| [k v] fs IH]; [reflexivity|]. simpl.
  destruct (String.eqb_spec q k) as [<- | Hqk]; simpl.
  - destruct (String.eqb_spec p q) as [-> | _]; [contradiction | exact IH].
  - destruct (String.eqb p k); [reflexivity | exact IH].
Qed.

Lemma lookup_store_same (p : string) (c : list string)
    (fs : list (string * list string)) :
  lookup_file p (store_file p c fs) = Some c.
Proof. unfold lookup_file, store_file. simpl. now rewrite String.eqb_refl. Qed.

Lemma lookup_store_other (p q : string) (c : list string)
    (fs : list (string * list string)) :
  p <> q -> lookup_file p (store_file q c fs) = lookup_file p fs.
Proof.
  intros Hne. unfold lookup_file, store_file. simpl.
  destruct (String.eqb_spec p q) as [-> | _]; [contradiction|].
  now rewrite find_filter_other.
Qed.

(** Writing one file after another. *)
Lemma forM_store {A} (key : A -> string) (val : A -> list string)
    (l : list A) (w : World) :
  forM (fun x w0 =>
          (Ok tt, mkWorld (dirs w0) (store_file (key x) (val x) (files w0))
                          (launched w0))) l w
  = (Ok (map (fun _ => tt) l),
     mkWorld (dirs w)
             (fold_left (fun fs x => store_file (key x) (val x) fs) l (files w))
             (launched w)).
Proof.
  revert w. induction l as [| x l IH]; intros w.
  - destruct w; reflexivity.
  - cbn [forM]. unfold bindM at 1. unfold bindM at 1. rewrite IH. reflexivity.
Qed.

Lemma lookup_fold_store_other {A} (key : A -> string) (val : A -> list string)
    (l : list A) (fs : list (string * list string)) (p : string) :
  ~ In p (map key l) ->
  lookup_file p (fold_left (fun fs x => store_file (key x) (val x) fs) l fs)
  = lookup_file p fs.
Proof.
  revert fs. induction l as [| x l IH]; intros fs Hnin; [reflexivity|].
  cbn [fold_left]. rewrite IH; [| intros H; apply Hnin; now right].
  apply lookup_store_other. intros ->. apply Hnin. now left.
Qed.

Lemma lookup_fold_store_in {A} (key : A -> string) (val : A -> list string)
    (l : list A) (fs : list (string * list string)) (x : A) :
  NoDup (map key l) -> In x l ->
  lookup_file (key x)
              (fold_left (fun fs x => store_file (key x) (val x) fs) l fs)
  = Some (val x).
Proof.
  revert fs. induction l as [| y l IH]; intros fs Hnd Hin; [contradiction|].
  cbn [map] in Hnd. inversion Hnd as [| ? ? Hnin Hnd']; subst.
  cbn [fold_left]. destruct Hin as [-> | Hin].
  - rewrite lookup_fold_store_other by exact Hnin. apply lookup_store_same.
  - now apply IH.
Qed.

Lemma lookup_fold_store_const {A} (key : A -> string) (c : list string)
    (l : list A) (fs : list (string * list string)) (x : A) :
  In x l ->
  lookup_file (key x) (fold_left (fun fs x => store_file (key x) c fs) l fs)
  = Some c.
Proof.
  revert fs x. induction l as [| y l IH]; intros fs x Hin; [contradiction|].
  cbn [fold_left].
  destruct (in_dec string_dec (key x) (map key l)) as [Hl | Hl].
  - apply in_map_iff in Hl as [z [Hz Hzl]]. rewrite <- Hz. now apply IH.
  - rewrite (lookup_fold_store_other key (fun _ => c)) by exact Hl.
    destruct Hin as [-> | Hin]; [apply lookup_store_same|].
    exfalso. apply Hl. now apply in_map.
Qed.

Lemma map_fst_combine_eq {A B} (l : list A) (l' : list B) :
  List.length l = List.length l' -> map fst (combine l l') = l.
Proof.
  revert l'. induction l as [| x l IH]; intros [| y l'] H; simpl in *;
    try discriminate; [reflexivity|].
  f_equal. apply IH. lia.
Qed.

Lemma append_inj_l (a x y : string) : (a ++ x = a ++ y)%string -> x = y.
Proof. intros H. now apply (append_inj_length a a x y eq_refl). Qed.

Lemma append_inj_r (x y b : string) : (x ++ b = y ++ b)%string -> x = y.
Proof.
  intros H. apply (append_inj_length x y b b); [| exact H].
  apply (f_equal String.length) in H. rewrite !length_append in H. lia.
Qed.

Lemma str_of_nat_inj (n m : nat) : str_of_nat n = str_of_nat m -> n = m.
Proof.
  unfold str_of_nat. intros H.
  apply (f_equal NilEmpty.uint_of_string) in H. rewrite !NilEmpty.usu in H.
  injection H as H. now apply Unsigned.to_uint_inj.
Qed.

Lemma part_name_inj (i j : nat) : part_name i = part_name j -> i = j.
Proof.
  unfold part_name. intros H. apply append_inj_l, append_inj_r in H.
  now apply str_of_nat_inj.
Qed.

(** Joining a directory and a relative name. *)
Lemma path_join_relative (a : string) (c : ascii) (b : string) :
  c <> "/"%char ->
  path_join a (String c b)
  = match a with
    | EmptyString => String c b
    | _ => if String.eqb (substring (String.length a - 1) 1 a) "/"
           then (a ++ String c b)%string
           else (a ++ "/" ++ String c b)%string
    end.
Proof.
  intros Hc. unfold path_join.
  destruct c as [[] [] [] [] [] [] [] []]; try reflexivity.
  exfalso. now apply Hc.
Qed.

Lemma path_join_prefix (a : string) :
  exists pre, forall c b,
    c <> "/"%char -> path_join a (String c b) = (pre ++ String c b)%string.
Proof.
  destruct a as [| x a].
  - exists EmptyString. intros c b Hc. now rewrite path_join_relative.
  - destruct (String.eqb (substring (String.length (String x a) - 1) 1
                                    (String x a)) "/") eqn:He.
    + exists (String x a). intros c b Hc.
      rewrite path_join_relative by exact Hc. now rewrite He.
    + exists (String x a ++ "/")%string. intros c b Hc.
      rewrite path_join_relative by exact Hc. rewrite He.
      now rewrite append_assoc.
Qed.

Lemma last_char_exists (s : string) :
  s <> EmptyString -> exists x c, s = (x ++ String c EmptyString)%string.
Proof.
  induction s as [| a s IH]; intros Hne; [congruence|].
  destruct s as [| b s].
  - exists EmptyString, a. reflexivity.
  - destruct IH as [x [c Hx]]; [discriminate|].
    exists (String a x), c. simpl. now rewrite <- Hx.
Qed.

Lemma substring_last (x : string) (c : ascii) :
  substring (String.length x) 1 (x ++ String c EmptyString)
  = String c EmptyString.
Proof. induction x as [| a x IH]; simpl; [reflexivity | exact IH]. Qed.

Lemma has_slash_uint (u : Decimal.uint) :
  has_char "/"%char (NilEmpty.string_of_uint u) = false.
Proof. induction u; simpl; auto. Qed.

Lemma str_of_nat_nonempty (d : nat) : str_of_nat d <> EmptyString.
Proof.
  unfold str_of_nat. intros H. pose proof H as H0.
  apply (f_equal NilEmpty.uint_of_string) in H. rewrite NilEmpty.usu in H.
  simpl in H. injection H as H.
  apply (f_equal Nat.of_uint) in H. rewrite Unsigned.of_to in H.
  simpl in H. subst d. discriminate.
Qed.

(** The directory has a name, and the name does not end in a slash. *)
Lemma tmp_dir_no_slash (self : Miranda) (draw : nat) :
  exists x c,
    tmp_dir_of self draw = (x ++ String c EmptyString)%string
    /\ c <> "/"%char.
Proof.
  unfold tmp_dir_of, _rand_id.
  destruct (path_join_prefix (work_dir self)) as [pre Hpre].
  destruct (last_char_exists (str_of_nat draw) (str_of_nat_nonempty draw))
    as [y [c Hy]].
  set (k := (5 - String.length (str_of_nat draw))%nat). rewrite Hy.
  exists (pre ++ "miranda_tmp_" ++ zeros k ++ y)%string, c. split.
  - change ("miranda_tmp_" ++ (zeros k ++ y ++ String c EmptyString))%string
      with (String "m" ("iranda_tmp_"
                        ++ (zeros k ++ y ++ String c EmptyString)))%string.
    rewrite Hpre by discriminate.
    change (String "m" ("iranda_tmp_"
                        ++ (zeros k ++ y ++ String c EmptyString)))%string
      with ("miranda_tmp_" ++ (zeros k ++ y ++ String c EmptyString))%string.
    now rewrite !append_assoc.
  - intros ->. pose proof (has_slash_uint (Nat.to_uint draw)) as Hs.
    fold (str_of_nat draw) in Hs. rewrite Hy, has_char_append in Hs.
    simpl in Hs. rewrite orb_true_r in Hs. discriminate.
Qed.

Lemma path_join_tmp_dir (self : Miranda) (draw : nat) (c : ascii) (b : string) :
  c <> "/"%char ->
  path_join (tmp_dir_of self draw) (String c b)
  = (tmp_dir_of self draw ++ "/" ++ String c b)%string.
Proof.
  intros Hc. rewrite path_join_relative by exact Hc.
  destruct (tmp_dir_no_slash self draw) as [x [d [Hx Hd]]]. rewrite Hx.
  destruct (x ++ String d EmptyString)%string as [| a s] eqn:Hs.
  - destruct x; discriminate.
  - rewrite <- Hs. rewrite length_append. simpl String.length.
    replace (String.length x + 1 - 1)%nat with (String.length x) by lia.
    rewrite substring_last.
    destruct (String.eqb_spec (String d EmptyString) "/") as [He | _];
      [| reflexivity].
    injection He as ->. contradiction.
Qed.

Lemma part_path_eq (self : Miranda) (draw : nat) (i : nat) :
  path_join (tmp_dir_of self draw) (part_name i)
  = (tmp_dir_of self draw ++ "/" ++ part_name i)%string.
Proof. unfold part_name. simpl append. now apply path_join_tmp_dir. Qed.

Lemma prefix_append (a b : string) : String.prefix a (a ++ b) = true.
Proof.
  induction a as [| c a IH]; simpl; [now destruct b|].
  destruct (ascii_dec c c); [exact IH | contradiction].
Qed.

Lemma NoDup_map_inj {A B} (f : A -> B) (l : list A) :
  (forall x y, f x = f y -> x = y) -> NoDup l -> NoDup (map f l).
Proof.
  intros Hinj. induction 1 as [| x l Hnin Hnd IH]; simpl; constructor; auto.
  intros Hin. apply in_map_iff in Hin as [y [Hy Hyl]].
  apply Hinj in Hy. now subst y.
Qed.

(** The yielded paths: as many as asked for, distinct, all under the
    directory. *)
Lemma part_paths_facts (self : Miranda) (num : Z) (draw : nat) :
  List.length (part_paths self num draw) = Z.to_nat num
  /\ NoDup (part_paths self num draw)
  /\ forall p, In p (part_paths self num draw) ->
               inside_dir (tmp_dir_of self draw) p = true.
Proof.
  unfold part_paths. split; [| split].
  - now rewrite !length_map, length_seq.
  - rewrite map_map. apply NoDup_map_inj; [| apply seq_NoDup].
    intros i j H. rewrite !part_path_eq in H.
    apply append_inj_l, append_inj_l in H. now apply part_name_inj.
  - intros p Hp. rewrite map_map in Hp.
    apply in_map_iff in Hp as [i [<- _]]. rewrite part_path_eq.
    unfold inside_dir. rewrite <- append_assoc. apply prefix_append.
Qed.

(** [_split_file] up to its [yield], when the directory can be made. *)
Lemma _split_file_steps {A} (self : Miranda) (seq_file : string) (num : Z)
    (draw : nat) (body : list string -> M A) (w : World) :
  path_exists (tmp_dir_of self draw) w = false ->
  ~ In seq_file (part_paths self num draw) ->
  let paths := part_paths self num draw in
  let w1 := mkWorld (tmp_dir_of self draw :: dirs w)
                    (fold_left (fun fs p => store_file p [] fs) paths (files w))
                    (launched w) in
  _split_file self seq_file num draw body w
  = match lookup_file seq_file (files w) with
    | None => (Raise (FileNotFoundError seq_file), w1)
    | Some lines =>
        match split_lines (Z.to_nat num) lines with
        | Raise e => (Raise e, w1)
        | Ok bufs =>
            try_finally (body paths) (rmtree (tmp_dir_of self draw))
              (mkWorld (dirs w1)
                 (fold_left (fun fs pb => store_file (fst pb) (snd pb) fs)
                            (combine paths bufs) (files w1))
                 (launched w1))
        end
    end.
Proof.
  intros Hex Hnin paths w1.
  change (_split_file self seq_file num draw body w)
    with (bindM (makedirs (tmp_dir_of self draw)) (fun _ =>
          bindM (forM open_w paths) (fun _ =>
          bindM (read_lines seq_file) (fun seq_in =>
          bindM (lift (split_lines (List.length paths) seq_in)) (fun bufs =>
          bindM (forM (fun pb => close_w (fst pb) (snd pb))
                      (combine paths bufs)) (fun _ =>
          try_finally (body paths) (rmtree (tmp_dir_of self draw))))))) w).
  rewrite (bindM_ok _ _ w
             (mkWorld (tmp_dir_of self draw :: dirs w) (files w) (launched w)) tt)
    by (unfold makedirs; now rewrite Hex).
  rewrite (bindM_ok _ _ _ w1 (map (fun _ => tt) paths))
    by apply (forM_store (fun p : string => p) (fun _ => [])).
  assert (Hlook : lookup_file seq_file (files w1) = lookup_file seq_file (files w)).
  { apply (lookup_fold_store_other (fun p : string => p) (fun _ => [])).
    now rewrite map_id. }
  assert (Hlen : List.length paths = Z.to_nat num)
    by apply part_paths_facts.
  destruct (lookup_file seq_file (files w)) as [lines |] eqn:Hl.
  - rewrite (bindM_ok _ _ w1 w1 lines)
      by (unfold read_lines; now rewrite Hlook).
    rewrite Hlen.
    destruct (split_lines (Z.to_nat num) lines) as [bufs | e].
    + rewrite (bindM_ok _ _ w1 w1 bufs) by reflexivity.
      rewrite (bindM_ok _ _ w1 _ (map (fun _ => tt) (combine paths bufs))
                 (forM_store fst snd (combine paths bufs) w1)).
      reflexivity.
    + now rewrite (bindM_raise _ _ w1 w1 e).
  - now rewrite (bindM_raise _ _ w1 w1 (FileNotFoundError seq_file))
      by (unfold read_lines; now rewrite Hlook).
Qed.

(** X21: when the directory to make is there already, as a directory or as
    a file, [_split_file] raises [FileExistsError]: nothing is written or
    removed, and the block under [with] is not run. *)
Theorem _split_file_existing_dir {A} (self : Miranda) (seq_file : string)
    (num : Z) (draw : nat) (body : list string -> M A) (w : World) :
  path_exists (tmp_dir_of self draw) w = true ->
  _split_file self seq_file num draw body w
  = (Raise (FileExistsError (tmp_dir_of self draw)), w).
Proof.
  intros Hex.
  change (_split_file self seq_file num draw body w)
    with (bindM (makedirs (tmp_dir_of self draw)) (fun _ =>
          bindM (forM open_w (part_paths self num draw)) (fun _ =>
          bindM (read_lines seq_file) (fun seq_in =>
          bindM (lift (split_lines (List.length (part_paths self num draw))
                                   seq_in)) (fun bufs =>
          bindM (forM (fun pb => close_w (fst pb) (snd pb))
                      (combine (part_paths self num draw) bufs)) (fun _ =>
          try_finally (body (part_paths self num draw))
                      (rmtree (tmp_dir_of self draw))))))) w).
  apply bindM_raise. unfold makedirs. now rewrite Hex.
Qed.

Lemma _split_file_existing_dir_witness :
  path_exists (tmp_dir_of default_miranda 42)
              (mkWorld ["./miranda_tmp_00042"] [] []) = true
  /\ _split_file default_miranda "circ.fa" 2 42 (fun _ => ret tt)
                 (mkWorld ["./miranda_tmp_00042"] [] [])
     = (Raise (FileExistsError "./miranda_tmp_00042"),
        mkWorld ["./miranda_tmp_00042"] [] []).
Proof.
  assert (H : path_exists (tmp_dir_of default_miranda 42)
                          (mkWorld ["./miranda_tmp_00042"] [] []) = true)
    by reflexivity.
  split; [exact H|].
  exact (_split_file_existing_dir default_miranda "circ.fa" 2 42
           (fun _ => ret tt) _ H).
Defined.

(** X22: an exception before the [yield] leaves the directory behind.  When
    the input file is missing, or its first line is not a header,
    [_split_file] raises [FileNotFoundError] or [UnboundLocalError] without
    running the block under [with], and the directory it made stays, with
    every partition file in it, empty. *)
Theorem _split_file_raises_before_yield {A} (self : Miranda)
    (seq_file : string) (num : Z) (draw : nat) (w : World) :
  path_exists (tmp_dir_of self draw) w = false ->
  ~ In seq_file (part_paths self num draw) ->
  (lookup_file seq_file (files w) = None
   \/ exists l ls, lookup_file seq_file (files w) = Some (l :: ls)
                   /\ startswith ">" l = false) ->
  exists e w',
    (forall body : list string -> M A,
       _split_file self seq_file num draw body w = (Raise e, w'))
    /\ (lookup_file seq_file (files w) = None -> e = FileNotFoundError seq_file)
    /\ (lookup_file seq_file (files w) <> None -> e = UnboundLocalError "tmp_f")
    /\ dirs w' = tmp_dir_of self draw :: dirs w
    /\ launched w' = launched w
    /\ (forall p, In p (part_paths self num draw) ->
                  lookup_file p (files w') = Some [])
    /\ (forall p, ~ In p (part_paths self num draw) ->
                  lookup_file p (files w') = lookup_file p (files w)).
Proof.
  intros Hex Hnin Hin.
  set (w1 := mkWorld (tmp_dir_of self draw :: dirs w)
               (fold_left (fun fs p => store_file p [] fs)
                          (part_paths self num draw) (files w))
               (launched w)).
  assert (Hfiles : (forall p, In p (part_paths self num draw) ->
                              lookup_file p (files w1) = Some [])
                   /\ (forall p, ~ In p (part_paths self num draw) ->
                                 lookup_file p (files w1) = lookup_file p (files w))).
  { split; intros p Hp.
    - now apply (lookup_fold_store_const (fun q : string => q) []).
    - apply (lookup_fold_store_other (fun q : string => q) (fun _ => [])).
      now rewrite map_id. }
  destruct Hin as [Hnone | [l [ls [Hsome Hl]]]].
  - exists (FileNotFoundError seq_file), w1. split.
    + intros body.
      rewrite (_split_file_steps self seq_file num draw body w Hex Hnin).
      now rewrite Hnone.
    + split; [reflexivity|]. split; [congruence|].
      split; [reflexivity|]. split; [reflexivity | exact Hfiles].
  - exists (UnboundLocalError "tmp_f"), w1. split.
    + intros body.
      rewrite (_split_file_steps self seq_file num draw body w Hex Hnin).
      rewrite Hsome. now rewrite (split_lines_before_header _ l ls Hl).
    + split; [congruence|]. split; [reflexivity|].
      split; [reflexivity|]. split; [reflexivity | exact Hfiles].
Qed.

Lemma _split_file_raises_before_yield_witness :
  exists w',
    _split_file default_miranda "missing.fa" 2 42 (fun _ => ret tt) fasta_world
    = (Raise (FileNotFoundError "missing.fa"), w')
    /\ dirs w' = ["./miranda_tmp_00042"; "."].
Proof.
  assert (H1 : path_exists (tmp_dir_of default_miranda 42) fasta_world = false)
    by reflexivity.
  assert (H2 : ~ In "missing.fa" (part_paths default_miranda 2 42)).
  { intros [H | [H | []]]; discriminate. }
  assert (H3 : lookup_file "missing.fa" (files fasta_world) = None
               \/ exists l ls,
                    lookup_file "missing.fa" (files fasta_world) = Some (l :: ls)
                    /\ startswith ">" l = false)
    by (left; reflexivity).
  destruct (@_split_file_raises_before_yield unit default_miranda "missing.fa"
              2 42 fasta_world H1 H2 H3)
    as [e [w' [Hrun [He [_ [Hd _]]]]]].
  exists w'. split.
  - rewrite <- (He eq_refl). apply Hrun.
  - exact Hd.
Defined.

(** X23: when the directory can be made and the input splits, the block
    under [with] is run with [num] distinct paths, all under the new
    directory, in a world where path [j] holds partition [j] of the input
    and every other file is as it was; no command has been started. *)
Theorem _split_file_yields_partitions {A} (self : Miranda) (seq_file : string)
    (num : Z) (draw : nat) (w : World) (lines : list string)
    (bufs : list (list string)) :
  path_exists (tmp_dir_of self draw) w = false ->
  ~ In seq_file (part_paths self num draw) ->
  lookup_file seq_file (files w) = Some lines ->
  split_lines (Z.to_nat num) lines = Ok bufs ->
  exists w1,
    (forall body : list string -> M A,
       _split_file self seq_file num draw body w
       = try_finally (body (part_paths self num draw))
                     (rmtree (tmp_dir_of self draw)) w1)
    /\ dirs w1 = tmp_dir_of self draw :: dirs w
    /\ launched w1 = launched w
    /\ List.length (part_paths self num draw) = Z.to_nat num
    /\ NoDup (part_paths self num draw)
    /\ (forall p, In p (part_paths self num draw) ->
                  inside_dir (tmp_dir_of self draw) p = true)
    /\ (forall j, (j < Z.to_nat num)%nat ->
                  lookup_file (nth j (part_paths self num draw) EmptyString)
                              (files w1)
                  = Some (nth j bufs []))
    /\ (forall p, ~ In p (part_paths self num draw) ->
                  lookup_file p (files w1) = lookup_file p (files w)).
Proof.
  intros Hex Hnin Hsome Hsplit.
  destruct (part_paths_facts self num draw) as [Hlen [Hnd Hin]].
  assert (Hbufs : List.length bufs = Z.to_nat num).
  { destruct (split_lines_cases (Z.to_nat num) lines)
      as [[-> Hr] | [[l [ls [-> [Hh Hr]]]] | [[l [ls [-> [Hh [Hn Hr]]]]]
          | [l [ls [bufs' [-> [Hh [Hn [Hr [Hl _]]]]]]]]]]];
      rewrite Hr in Hsplit; try discriminate; injection Hsplit as <-.
    - apply repeat_length.
    - exact Hl. }
  set (paths := part_paths self num draw) in *.
  set (w0 := mkWorld (tmp_dir_of self draw :: dirs w)
               (fold_left (fun fs p => store_file p [] fs) paths (files w))
               (launched w)).
  exists (mkWorld (dirs w0)
            (fold_left (fun fs pb => store_file (fst pb) (snd pb) fs)
                       (combine paths bufs) (files w0))
            (launched w0)).
  assert (Hkeys : map fst (combine paths bufs) = paths)
    by (apply map_fst_combine_eq; congruence).
  split; [| repeat split; auto].
  - intros body.
    rewrite (_split_file_steps self seq_file num draw body w Hex Hnin).
    now rewrite Hsome, Hsplit.
  - intros j Hj. cbn [files].
    assert (Hjc : In (nth j paths EmptyString, nth j bufs [])
                     (combine paths bufs)).
    { rewrite <- combine_nth by congruence. apply nth_In.
      rewrite length_combine. lia. }
    apply (lookup_fold_store_in fst snd (combine paths bufs) (files w0)
             (nth j paths EmptyString, nth j bufs []));
      [now rewrite Hkeys | exact Hjc].
  - intros p Hp. cbn [files].
    rewrite (lookup_fold_store_other fst snd) by now rewrite Hkeys.
    apply (lookup_fold_store_other (fun q : string => q) (fun _ => [])).
    now rewrite map_id.
Qed.

Lemma _split_file_yields_partitions_witness :
  exists w1,
    _split_file default_miranda "circ.fa" 2 42 read_lines_of_first fasta_world
    = try_finally (read_lines_of_first (part_paths default_miranda 2 42))
                  (rmtree (tmp_dir_of default_miranda 42)) w1
    /\ lookup_file "./miranda_tmp_00042/seq_file.part2.fa" (files w1)
       = Some [">b"].
Proof.
  assert (H1 : path_exists (tmp_dir_of default_miranda 42) fasta_world = false)
    by reflexivity.
  assert (H2 : ~ In "circ.fa" (part_paths default_miranda 2 42)).
  { intros [H | [H | []]]; discriminate. }
  assert (H3 : lookup_file "circ.fa" (files fasta_world)
               = Some [">a"; "ACGU"; ">b"; ">c"; "UU"]) by reflexivity.
  assert (H4 : split_lines (Z.to_nat 2) [">a"; "ACGU"; ">b"; ">c"; "UU"]
               = Ok [[">a"; "ACGU"; ">c"; "UU"]; [">b"]]) by reflexivity.
  destruct (@_split_file_yields_partitions (list string) default_miranda
              "circ.fa" 2 42 fasta_world _ _ H1 H2 H3 H4)
    as [w1 [Hrun [_ [_ [_ [_ [_ [Hj _]]]]]]]].
  exists w1. split; [apply Hrun|].
  apply (Hj 1%nat). simpl. lia.
Defined.

(** What [finally: shutil.rmtree(tmp_dir)] leaves. *)
Lemma try_finally_rmtree {A} (m : M A) (d : string) (w1 w2 : World)
    (r0 : res A) :
  m w1 = (r0, w2) ->
  exists r w',
    try_finally m (rmtree d) w1 = (r, w')
    /\ ~ In d (dirs w')
    /\ launched w' = launched w2
    /\ ((r = r0 /\ In d (dirs w2)
         /\ (forall f, In f (files w') -> inside_dir d (fst f) = false)
         /\ (forall f, In f (files w2) -> inside_dir d (fst f) = false ->
                       In f (files w')))
        \/ (r = Raise (FileNotFoundError d) /\ w' = w2)).
Proof.
  intros Hm. unfold try_finally. rewrite Hm. unfold rmtree.
  destruct (existsb (String.eqb d) (dirs w2)) eqn:Hd.
  - eexists. eexists. split; [reflexivity|]. cbn [dirs files launched].
    split; [| split; [reflexivity|]].
    + intros Hin. apply filter_In in Hin as [_ Hin].
      now rewrite String.eqb_refl in Hin.
    + left. split; [reflexivity|]. split; [| split].
      * apply existsb_exists in Hd as [x [Hx Hxd]].
        apply String.eqb_eq in Hxd. now subst x.
      * intros f Hf. apply filter_In in Hf as [_ Hf].
        unfold inside_dir. now destruct (String.prefix (d ++ "/") (fst f)).
      * intros f Hf Hout. apply filter_In. split; [exact Hf|].
        unfold inside_dir in Hout. now rewrite Hout.
  - exists (Raise (FileNotFoundError d)), w2. split; [reflexivity|].
    split; [| split; [reflexivity|]].
    + intros Hin.
      assert (Ht : existsb (String.eqb d) (dirs w2) = true).
      { apply existsb_exists. exists d. split; [exact Hin|].
        apply String.eqb_refl. }
      congruence.
    + right. split; reflexivity.
Qed.

(** X24: when the block under [with] is run, the directory is gone when
    [_split_file] ends, whether the block returns or raises.  The outcome
    is the outcome of the block and no file is left under the directory,
    while the files elsewhere stay; unless the block has removed the
    directory itself, in which case [FileNotFoundError] from [rmtree]
    replaces the outcome of the block. *)
Theorem _split_file_cleans_up {A} (self : Miranda) (seq_file : string)
    (num : Z) (draw : nat) (w : World) (lines : list string)
    (bufs : list (list string)) (body : list string -> M A) :
  path_exists (tmp_dir_of self draw) w = false ->
  ~ In seq_file (part_paths self num draw) ->
  lookup_file seq_file (files w) = Some lines ->
  split_lines (Z.to_nat num) lines = Ok bufs ->
  exists w1 r0 w2 r w',
    body (part_paths self num draw) w1 = (r0, w2)
    /\ _split_file self seq_file num draw body w = (r, w')
    /\ ~ In (tmp_dir_of self draw) (dirs w')
    /\ launched w' = launched w2
    /\ ((r = r0 /\ In (tmp_dir_of self draw) (dirs w2)
         /\ (forall f, In f (files w') ->
                       inside_dir (tmp_dir_of self draw) (fst f) = false)
         /\ (forall f, In f (files w2) ->
                       inside_dir (tmp_dir_of self draw) (fst f) = false ->
                       In f (files w')))
        \/ (r = Raise (FileNotFoundError (tmp_dir_of self draw)) /\ w' = w2)).
Proof.
  intros Hex Hnin Hsome Hsplit.
  pose proof (_split_file_steps self seq_file num draw body w Hex Hnin) as Hrun.
  cbv zeta in Hrun. rewrite Hsome, Hsplit in Hrun.
  match type of Hrun with
  | _ = try_finally _ _ ?w1 =>
      destruct (body (part_paths self num draw) w1) as [r0 w2] eqn:Hbody;
      destruct (try_finally_rmtree (body (part_paths self num draw))
                  (tmp_dir_of self draw) w1 w2 r0 Hbody)
        as [r [w' [Hfin Hrest]]];
      exists w1, r0, w2, r, w'
  end.
  split; [exact Hbody|]. split; [now rewrite Hrun | exact Hrest].
Qed.

Lemma _split_file_cleans_up_witness :
  exists w',
    _split_file default_miranda "circ.fa" 2 42 read_lines_of_first fasta_world
    = (Ok [">a"; "ACGU"; ">c"; "UU"], w')
    /\ ~ In (tmp_dir_of default_miranda 42) (dirs w').
Proof.
  assert (H1 : path_exists (tmp_dir_of default_miranda 42) fasta_world = false)
    by reflexivity.
  assert (H2 : ~ In "circ.fa" (part_paths default_miranda 2 42)).
  { intros [H | [H | []]]; discriminate. }
  assert (H3 : lookup_file "circ.fa" (files fasta_world)
               = Some [">a"; "ACGU"; ">b"; ">c"; "UU"]) by reflexivity.
  assert (H4 : split_lines (Z.to_nat 2) [">a"; "ACGU"; ">b"; ">c"; "UU"]
               = Ok [[">a"; "ACGU"; ">c"; "UU"]; [">b"]]) by reflexivity.
  destruct (_split_file_cleans_up default_miranda "circ.fa" 2 42 fasta_world
              _ _ read_lines_of_first H1 H2 H3 H4)
    as [w1 [r0 [w2 [r [w' [_ [Hrun [Hgone _]]]]]]]].
  exists w'. split; [| exact Hgone].
  rewrite Hrun. f_equal.
  assert (Hc : fst (_split_file default_miranda "circ.fa" 2 42
                      read_lines_of_first fasta_world)
               = Ok [">a"; "ACGU"; ">c"; "UU"]) by reflexivity.
  now rewrite Hrun in Hc.
Defined.

(** ** Miranda.run with several processes *)

Lemma bindM_ext {A B} (m : M A) (k k' : A -> M B) (w : World) :
  (forall a w', k a w' = k' a w') -> bindM m k w = bindM m k' w.
Proof. intros H. unfold bindM. destruct (m w) as [[a | e] w']; auto. Qed.

Lemma bindM_congr {A B} (m m' : M A) (k k' : A -> M B) (w : World) :
  m w = m' w -> (forall a w', k a w' = k' a w') -> bindM m k w = bindM m' k' w.
Proof.
  intros Hm H. unfold bindM. rewrite Hm. destruct (m' w) as [[a | e] w']; auto.
Qed.

Lemma forM_ext {A B} (f g : A -> M B) (l : list A) (w : World) :
  (forall x w', f x w' = g x w') -> forM f l w = forM g l w.
Proof.
  intros H. revert w. induction l as [| x l IH]; intros w; [reflexivity|].
  cbn [forM]. unfold bindM at 1 3. rewrite H.
  destruct (g x w) as [[y | e] w']; [| reflexivity].
  unfold bindM. now rewrite IH.
Qed.

Lemma _split_file_ext {A} (self : Miranda) (seq_file : string) (num : Z)
    (draw : nat) (body body' : list string -> M A) (w : World) :
  (forall paths w', body paths w' = body' paths w') ->
  _split_file self seq_file num draw body w
  = _split_file self seq_file num draw body' w.
Proof.
  intros H. unfold _split_file.
  repeat (apply bindM_ext; intros ? ?).
  unfold try_finally. now rewrite H.
Qed.

(** X25: with more than one process, what the aligner prints is not part
    of the result: [run] returns the same and leaves the same world when
    the text that the aligner prints is replaced by any other. *)
Theorem run_discards_stdout (aligner : list string -> M string)
    (f : string -> string) (self : Miranda) (seq_file : string)
    (num_proc : Z) (draw : nat) (w : World) :
  1 < num_proc ->
  run (fun cmd w0 =>
         (match fst (aligner cmd w0) with
          | Ok text => Ok (f text)
          | Raise e => Raise e
          end, snd (aligner cmd w0)))
      self seq_file num_proc draw w
  = run aligner self seq_file num_proc draw w.
Proof.
  intros Hn. unfold run.
  destruct (Z.eqb_spec num_proc 1) as [-> | _]; [lia|].
  rewrite Z.gtb_ltb. destruct (Z.ltb_spec 1 num_proc) as [_ | Hle]; [| lia].
  apply bindM_congr; [| reflexivity].
  apply _split_file_ext. intros paths w'. cbv zeta.
  apply bindM_congr; [| reflexivity].
  apply forM_ext. intros cmd w0. unfold sp_Popen, bindM, start. cbv beta.
  destruct (aligner cmd _) as [[text | e] w1]; reflexivity.
Qed.

Lemma run_discards_stdout_witness :
  1 < 2
  /\ run (fun cmd w0 =>
            (match fst (quiet_aligner cmd w0) with
             | Ok text => Ok (String.append text " again")
             | Raise e => Raise e
             end, snd (quiet_aligner cmd w0)))
         default_miranda "circ.fa" 2 42 fasta_world
     = run quiet_aligner default_miranda "circ.fa" 2 42 fasta_world.
Proof.
  assert (H : 1 < 2) by lia.
  split; [exact H|].
  exact (run_discards_stdout quiet_aligner (fun text => String.append text " again")
           default_miranda "circ.fa" 2 42 fasta_world H).
Defined.

(** ** _rand_id: the decimal text of the draw *)

Lemma length_string_of_uint (u : Decimal.uint) :
  String.length (NilEmpty.string_of_uint u) = Unsigned.usize u.
Proof. induction u; simpl; auto. Qed.

Lemma usize_revapp (d d' : Decimal.uint) :
  Unsigned.usize (Decimal.revapp d d')
  = (Unsigned.usize d + Unsigned.usize d')%nat.
Proof.
  revert d'. induction d; intros d'; simpl; auto; rewrite IHd; simpl; lia.
Qed.

(** One more digit only when the successor is a power of ten. *)
Lemma usize_succ (d : Decimal.uint) :
  Unsigned.usize (Decimal.Little.succ d) = Unsigned.usize d
  \/ (Unsigned.usize (Decimal.Little.succ d) = S (Unsigned.usize d)
      /\ S (Unsigned.of_lu d) = (10 ^ Unsigned.usize d)%nat).
Proof.
  induction d; try (left; reflexivity).
  - right. split; reflexivity.
  - destruct IHd as [IH | [IH1 IH2]].
    + left. simpl. now rewrite IH.
    + right. split; [simpl; now rewrite IH1|].
      change (Unsigned.usize (Decimal.D9 d)) with (S (Unsigned.usize d)).
      rewrite Nat.pow_succ_r', <- IH2.
      change (Unsigned.of_lu (Decimal.D9 d)) with (9 + 10 * Unsigned.of_lu d)%nat.
      lia.
Qed.

Lemma usize_to_lu (n : nat) :
  n = 0%nat \/ (10 ^ Unsigned.usize (Unsigned.to_lu n) <= 10 * n)%nat.
Proof.
  induction n as [| n IH]; [now left|]. right.
  rewrite Unsigned.to_lu_succ.
  destruct (usize_succ (Unsigned.to_lu n)) as [Hs | [Hs Hp]].
  - rewrite Hs. destruct IH as [-> | IH]; [simpl; lia | lia].
  - rewrite Hs, Nat.pow_succ_r', <- Hp, Unsigned.of_to_lu. lia.
Qed.

Lemma length_str_of_nat (k d : nat) :
  (d < 10 ^ k)%nat ->
  (1 <= String.length (str_of_nat d) <= Nat.max k 1)%nat.
Proof.
  intros Hd. unfold str_of_nat.
  rewrite length_string_of_uint, Unsigned.to_uint_alt.
  unfold Decimal.rev. rewrite usize_revapp. simpl Unsigned.usize.
  rewrite Nat.add_0_r. split.
  - destruct d as [| d]; [simpl; lia|]. rewrite Unsigned.to_lu_succ.
    destruct (Unsigned.to_lu d); simpl; lia.
  - destruct (usize_to_lu d) as [-> | Hle]; [simpl; lia|].
    assert (Hlt : (10 ^ Unsigned.usize (Unsigned.to_lu d) < 10 ^ S k)%nat).
    { rewrite (Nat.pow_succ_r' 10 k). lia. }
    apply Nat.pow_lt_mono_r_iff in Hlt; lia.
Qed.

Lemma length_zeros (k : nat) : String.length (zeros k) = k.
Proof. induction k as [| k IH]; simpl; auto. Qed.

(** Reading a decimal numeral, with the value so far. *)
Lemma int_digits_uint (u : Decimal.uint) (a : nat) :
  int_digits (Z.of_nat a) false (NilEmpty.string_of_uint u)
  = Ok (Z.of_nat (Nat.of_uint_acc u a)).
Proof.
  revert a.
  induction u; intros a; [reflexivity | ..];
    cbn [NilEmpty.string_of_uint int_digits Nat.of_uint_acc];
    match goal with
    | |- context [digit_of ?c] =>
        let v := eval cbv in (digit_of c) in change (digit_of c) with v
    end;
    cbv iota; rewrite <- IHu; f_equal;
    rewrite Nat.tail_mul_spec; lia.
Qed.

Lemma int_digits_zeros (k : nat) (s : string) :
  int_digits 0 false (zeros k ++ s) = int_digits 0 false s.
Proof. induction k as [| k IH]; [reflexivity | exact IH]. Qed.

Lemma int_of_str_digit_first (c : ascii) (s : string) :
  digit_of c <> None ->
  int_of_str (String c s) = int_unsigned (String c s).
Proof.
  intros H.
  destruct c as [[] [] [] [] [] [] [] []];
    try (exfalso; apply H; reflexivity); reflexivity.
Qed.

Lemma int_unsigned_digits (c : ascii) (s : string) :
  digit_of c <> None ->
  (count_digits (String c s) <= int_max_str_digits)%nat ->
  int_unsigned (String c s)
  = (v <- int_digits 0 false (String c s) ;; Ok v).
Proof.
  intros H Hc. unfold int_unsigned.
  destruct (Nat.ltb_spec int_max_str_digits (count_digits (String c s)));
    [lia|].
  cbn [int_digits]. destruct (digit_of c) as [d|]; [| congruence].
  now rewrite Z.mul_0_r, Z.add_0_l.
Qed.

Lemma first_digit_uint (u : Decimal.uint) :
  match NilEmpty.string_of_uint u with
  | EmptyString => True
  | String c _ => digit_of c <> None
  end.
Proof. destruct u; simpl; try exact I; discriminate. Qed.

Lemma count_digits_uint (u : Decimal.uint) :
  count_digits (NilEmpty.string_of_uint u) = Unsigned.usize u.
Proof.
  induction u; [reflexivity | ..];
    cbn [NilEmpty.string_of_uint count_digits Unsigned.usize];
    match goal with
    | |- context [digit_of ?c] =>
        let v := eval cbv in (digit_of c) in change (digit_of c) with v
    end;
    cbv iota; now rewrite IHu.
Qed.

Lemma count_digits_zeros (k : nat) (s : string) :
  count_digits (zeros k ++ s) = (k + count_digits s)%nat.
Proof.
  induction k as [| k IH]; [reflexivity|].
  cbn [zeros append count_digits].
  change (digit_of "0") with (Some 0). now rewrite IH.
Qed.

(** Read without the limit on the digits, the id is the draw. *)
Lemma int_digits_rand_id (n draw : nat) :
  int_digits 0 false (_rand_id n draw) = Ok (Z.of_nat draw).
Proof.
  unfold _rand_id. rewrite int_digits_zeros. unfold str_of_nat.
  pose proof (int_digits_uint (Nat.to_uint draw) 0) as Hu.
  change (Z.of_nat 0) with 0 in Hu.
  change (Nat.of_uint_acc (Nat.to_uint draw) 0)
    with (Nat.of_uint (Nat.to_uint draw)) in Hu.
  now rewrite Hu, Unsigned.of_to.
Qed.

Lemma length_rand_id (n draw : nat) :
  String.length (_rand_id n draw)
  = Nat.max n (String.length (str_of_nat draw)).
Proof. unfold _rand_id. rewrite length_append, length_zeros. lia. Qed.

Lemma count_digits_rand_id (n draw : nat) :
  count_digits (_rand_id n draw) = String.length (_rand_id n draw).
Proof.
  rewrite length_rand_id. unfold _rand_id.
  rewrite count_digits_zeros. unfold str_of_nat.
  rewrite count_digits_uint, length_string_of_uint. lia.
Qed.

(** X26: for a draw below [10 ** n], which is what [randrange] returns,
    and [n] within the limit that [int()] puts on the digits, the id has
    exactly [n] characters (one for [n = 0]) and is the decimal text of the
    draw filled with zeros on the left: [int()] reads the draw back from
    it.  Two draws give one id only when they are equal. *)
Theorem _rand_id_reads_back (n draw : nat) :
  (n <= int_max_str_digits)%nat ->
  (draw < 10 ^ n)%nat ->
  int_of_str (_rand_id n draw) = Ok (Z.of_nat draw)
  /\ String.length (_rand_id n draw) = Nat.max n 1
  /\ (forall draw', _rand_id n draw = _rand_id n draw' -> draw = draw').
Proof.
  intros Hn Hd.
  assert (Hlen : String.length (_rand_id n draw) = Nat.max n 1).
  { rewrite length_rand_id. pose proof (length_str_of_nat n draw Hd). lia. }
  split; [| split; [exact Hlen|]].
  - pose proof (int_digits_rand_id n draw) as Hv.
    pose proof (count_digits_rand_id n draw) as Hc. rewrite Hlen in Hc.
    assert (Hfirst : exists c s, _rand_id n draw = String c s
                                 /\ digit_of c <> None).
    { unfold _rand_id.
      destruct (n - String.length (str_of_nat draw))%nat as [| k].
      - cbn [zeros append].
        pose proof (first_digit_uint (Nat.to_uint draw)) as Hf.
        pose proof (str_of_nat_nonempty draw) as Hne.
        unfold str_of_nat in *.
        destruct (NilEmpty.string_of_uint (Nat.to_uint draw)) as [| c s];
          [congruence | eauto].
      - cbn [zeros append]. eexists. eexists. split; [reflexivity|].
        discriminate. }
    destruct Hfirst as [c [s [Hs Hdig]]]. rewrite Hs in *.
    rewrite (int_of_str_digit_first c s Hdig).
    rewrite (int_unsigned_digits c s Hdig).
    + now rewrite Hv.
    + rewrite Hc. unfold int_max_str_digits in *. lia.
  - intros draw' H. apply (f_equal (int_digits 0 false)) in H.
    rewrite !int_digits_rand_id in H. injection H as H. lia.
Qed.

Lemma _rand_id_reads_back_witness :
  (3 <= int_max_str_digits)%nat
  /\ (42 < 10 ^ 3)%nat
  /\ int_of_str (_rand_id 3 42) = Ok 42
  /\ String.length (_rand_id 3 42) = 3%nat.
Proof.
  assert (H1 : (3 <= int_max_str_digits)%nat) by (unfold int_max_str_digits; lia).
  assert (H2 : (42 < 10 ^ 3)%nat) by (simpl; lia).
  split; [exact H1|]. split; [exact H2|].
  destruct (_rand_id_reads_back 3 42 H1 H2) as [H3 [H4 _]].
  split; [exact H3 | exact H4].
Defined.

(** * The typed table of get_binding_sites *)

(** ** Rounding to binary64 *)











(** ** float() on the text of a decimal number *)

Lemma digit_char_facts (d : nat) :
  (d < 10)%nat ->
  is_space (digit_char d) = false
  /\ Ascii.eqb (digit_char d) "_" = false
  /\ parse_sign (String (digit_char d) EmptyString)
     = (false, String (digit_char d) EmptyString).
Proof.
  intros H. do 10 (destruct d as [| d]; [repeat split|]). lia.
Qed.
















(** ** The table built from the records *)













